(** * A model of the MPCL garbled-circuit tool chain

    Shallow embedding of the parts of the repository that the verified
    properties are about:

    - [ot]: wire labels (package [ot]);
    - [circuit]: the garbler and the evaluator ([circuit/garble.go],
      [circuit/eval.go]);
    - [circuits]: the circuit builder ([compiler/circuits]);
    - [ast]: constant folding and SSA generation ([compiler/ast]);
    - [types]: the type parser ([types/parse.go]).

    Go functions returning [(T, error)] return a [result]; a run-time
    panic is a result of its own.  Mutable objects reached through
    pointers (wire maps, the compiler, SSA blocks) are threaded as
    explicit state. *)

From Stdlib Require Import ZArith List String Ascii Lia Bool.
From Stdlib Require Import Strings.Byte.
From stdpp Require Import base numbers option list gmap strings sorting.

Local Open Scope Z_scope.

(** ** Results of Go calls *)

Inductive panic : Type :=
| IndexOutOfRange (i len : Z)
| SliceBoundsOutOfRange (i cap : Z)
| MakeNegativeLen (n : Z)
| NegativeShift (n : Z)
| PanicMsg (msg : string).

Inductive result (E A : Type) : Type :=
| Ok (a : A)
| Err (e : E)
| Panic (p : panic).

Arguments Ok {E A} a.
Arguments Err {E A} e.
Arguments Panic {E A} p.

(** State-and-error monad: a Go function that mutates objects of type [S]
    and may return an error or panic. *)
Definition M (S E A : Type) : Type := S -> result E (A * S).

Definition ret {S E A} (a : A) : M S E A := fun s => Ok (a, s).

Definition bind {S E A B} (m : M S E A) (k : A -> M S E B) : M S E B :=
  fun s => match m s with
           | Ok (a, s') => k a s'
           | Err e => Err e
           | Panic p => Panic p
           end.

Definition fail {S E A} (e : E) : M S E A := fun _ => Err e.
Definition throw {S E A} (p : panic) : M S E A := fun _ => Panic p.
Definition get {S E} : M S E S := fun s => Ok (s, s).
Definition put {S E} (s : S) : M S E unit := fun _ => Ok (tt, s).

Declare Scope go_scope.
Delimit Scope go_scope with go.
Notation "'let*' x ':=' m 'in' k" := (bind m (fun x => k))
  (at level 10, x pattern, m at level 100, k at level 200) : go_scope.
Local Open Scope go_scope.

(** Big- and little-endian byte strings of a non-negative integer. *)
Definition byte_of_Z (z : Z) : byte :=
  match Byte.of_N (Z.to_N (z mod 256)) with
  | Some b => b
  | None => x00
  end.

Definition Z_of_byte (b : byte) : Z := Z.of_N (Byte.to_N b).

Fixpoint le_bytes (n : nat) (z : Z) : list byte :=
  match n with
  | O => []
  | S n' => byte_of_Z z :: le_bytes n' (z / 256)
  end.

Fixpoint le_value (bs : list byte) : Z :=
  match bs with
  | [] => 0
  | b :: bs' => Z_of_byte b + 256 * le_value bs'
  end.

(** ** Package [ot]: labels *)

Module ot.

(** Modelled from the spec: package [ot] (type [Label] with its methods,
    [Wire], [Inputs]) is not under src/.  A label is a k-bit bit string,
    k = 128 for garbling; its permute-and-point bit S is its least
    significant bit; [Mul2]/[Mul4] are the carry-less doubling and
    quadrupling (left shifts inside the 128 bits); [NewTweak] turns a
    32-bit gate ID into a label; [Bytes]/[LabelFromData] are the 16-byte
    big-endian encoding and its inverse. *)
Definition Label : Type := Z.

Definition k : Z := 128.

Definition Copy (l : Label) : Label := l.

Definition Xor (l o : Label) : Label := Z.lxor l o.

Definition S (l : Label) : bool := Z.testbit l 0.

Definition SetS (set : bool) (l : Label) : Label :=
  if set then Z.lor l 1 else Z.ldiff l 1.

Definition Mul2 (l : Label) : Label := Z.land (Z.shiftl l 1) (Z.ones k).

Definition Mul4 (l : Label) : Label := Z.land (Z.shiftl l 2) (Z.ones k).

Definition NewTweak (tweak : Z) : Label := Z.land tweak (Z.ones 32).

Definition Bytes (l : Label) : list byte :=
  rev (le_bytes 16 (Z.land l (Z.ones k))).

Definition LabelFromData (data : list byte) : Label :=
  le_value (rev (take 16 data)).

(** [rand.Reader]: the blocks of random bytes that successive reads will
    deliver; a read from the exhausted source fails. *)
Definition Rand : Type := list (list byte).

Inductive error : Type :=
| ErrRandRead.

Definition NewLabel (rand : Rand) : result error Label * Rand :=
  match rand with
  | [] => (Err ErrRandRead, [])
  | block :: rest => (Ok (LabelFromData block), rest)
  end.

Record Wire : Type := mkWire { Label0 : Label; Label1 : Label }.

(** [ot.Inputs] is [map[int]Wire]. *)
Abbreviation Inputs := (gmap Z Wire).

End ot.

(** ** Package [circuit]: garbling and evaluation *)

Module circuit.

Import ot.

Inductive Operation : Type := XOR | XNOR | AND | OR | INV.

(** Wire identifiers of a compiled circuit (32-bit, dense from 0). *)
Abbreviation Wire := Z.

(** Modelled from the spec: [circuit.Gate] and [circuit.Circuit] are
    declared outside src/.  A gate is the tuple of an operation, two input
    wires, one output wire and its 32-bit gate ID; INV has only input0. *)
Record Gate : Type := mkGate {
  Input0 : Wire;
  Input1 : Wire;
  Output : Wire;
  Op : Operation;
  ID : Z
}.

Definition Gate_Inputs (g : Gate) : list Wire :=
  match Op g with
  | INV => [Input0 g]
  | _ => [Input0 g; Input1 g]
  end.

Record Circuit : Type := mkCircuit {
  NumGates : Z;
  NumWires : Z;
  Gates : list Gate
}.

(** [crypto/cipher.Block]: a block size and the encryption of one block. *)
Record Block : Type := mkBlock {
  BlockSize : nat;
  Encrypt : list byte -> list byte
}.

Inductive error : Type :=
| ErrRand (e : ot.error)
| ErrKeySize (len : nat)
| ErrGateOutputAlreadySet (w : Wire)
| ErrInvalidOperand (op : Operation)
| ErrInvalidOperation (op : Operation)
| ErrNoInputA
| ErrNoInputB
| ErrCorruptedCircuit (i len : Z).

(** [aes.NewCipher]: the key must be 16, 24 or 32 bytes long.  The cipher
    itself, [aes key block], belongs to the Go library and is a parameter. *)
Definition aes_NewCipher (aes : list byte -> list byte -> list byte)
    (key : list byte) : result error Block :=
  let n := length key in
  if (Nat.eqb n 16 || Nat.eqb n 24 || Nat.eqb n 32)%bool
  then Ok {| BlockSize := 16; Encrypt := aes key |}
  else Err (ErrKeySize n).

Definition Enc : Type := Label -> option Label -> Label -> Z -> list byte.

Definition Dec : Type :=
  Label -> option Label -> Z -> list byte -> result error (list byte).

Record TableEntry : Type := mkEntry {
  Index : Z;
  Data : list byte
}.

(** [ByIndex.Less]. *)
Definition Less (a b : TableEntry) : bool := Index a <? Index b.

(** [sort.Sort] from the Go library on a [ByIndex] of at most four
    entries: the library sorts slices shorter than 12 by insertion.  The
    element at position i moves left while it is [Less] than its left
    neighbour.  [insertLeft x p] inserts [x] into the reversed prefix [p]
    (its head is the left neighbour). *)
Fixpoint insertLeft (x : TableEntry) (p : list TableEntry) : list TableEntry :=
  match p with
  | [] => [x]
  | y :: rest => if Less x y then y :: insertLeft x rest else x :: y :: rest
  end.

Definition sort_ByIndex (table : list TableEntry) : list TableEntry :=
  rev (fold_left (fun p x => insertLeft x p) table []).

Definition idx (l0 l1 : option Label) : Z :=
  match l0, l1 with
  | None, None => 0
  | None, Some l1 => if S l1 then 1 else 0
  | Some l0, None => if S l0 then 1 else 0
  | Some l0, Some l1 =>
      let ret := 0 in
      let ret := if S l0 then Z.lor ret 2 else ret in
      let ret := if S l1 then Z.lor ret 1 else ret in
      ret
  end.

Definition makeK (a : Label) (b : option Label) (t : Z) : Label :=
  let k := Copy a in
  let k := Mul2 k in
  let k := match b with
           | Some b => let tmp := Mul4 (Copy b) in Xor k tmp
           | None => k
           end in
  Xor k (NewTweak t).

Definition encrypt (alg : Block) (a : Label) (b : option Label) (c : Label)
    (t : Z) : list byte :=
  let k := makeK a b t in
  let crypted := Encrypt alg (Bytes k) in
  let pi := LabelFromData crypted in
  let pi := Xor pi k in
  let pi := Xor pi c in
  Bytes pi.

Definition decrypt (alg : Block) (a : Label) (b : option Label) (t : Z)
    (encrypted : list byte) : result error (list byte) :=
  let k := makeK a b t in
  let crypted := Encrypt alg (Bytes k) in
  let c := LabelFromData encrypted in
  let c := Xor c (LabelFromData crypted) in
  let c := Xor c k in
  Ok (Bytes c).

Definition entry (enc : Enc) (a : Label) (b : option Label) (c : Label)
    (tweak : Z) : TableEntry :=
  {| Index := idx (Some a) b; Data := enc a b c tweak |}.

(** The objects a garbling run mutates: the wire-label map and the random
    source. *)
Record GState : Type := mkGState {
  wires : Inputs;
  rand : Rand
}.

Abbreviation G := (M GState error).

Definition makeLabels (r : Label) : G ot.Wire :=
  fun st =>
    match NewLabel (rand st) with
    | (Ok l0, rest) =>
        let l1 := Xor (Copy l0) r in
        Ok ({| Label0 := l0; Label1 := l1 |},
            {| wires := wires st; rand := rest |})
    | (Err e, _) => Err (ErrRand e)
    | (Panic p, _) => Panic p
    end.

Definition setWire (i : Wire) (w : ot.Wire) : G unit :=
  fun st => Ok (tt, {| wires := <[i := w]> (wires st); rand := rand st |}).

Definition getWire (i : Wire) : G (option ot.Wire) :=
  fun st => Ok (wires st !! i, st).

(** The first loop of [Gate.Garble]: the labels of the input wires,
    created where the wire has none yet. *)
Fixpoint garbleInputs (r : Label) (inputs : list Wire) : G (list ot.Wire) :=
  match inputs with
  | [] => ret []
  | i :: rest =>
      let* ow := getWire i in
      let* w := match ow with
                | Some w => ret w
                | None => let* w := makeLabels r in
                          let* _ := setWire i w in
                          ret w
                end in
      let* ws := garbleInputs r rest in
      ret (w :: ws)
  end.

Definition Gate_Garble (g : Gate) (enc : Enc) (r : Label)
    : G (list (list byte)) :=
  let* ins := garbleInputs r (Gate_Inputs g) in
  let* ow := getWire (Output g) in
  match ow with
  | Some _ => fail (ErrGateOutputAlreadySet (Output g))
  | None =>
      let* w :=
        match Op g with
        | XOR =>
            match ins with
            | in0 :: in1 :: _ =>
                let l0 := Xor (Copy (Label0 in0)) (Label0 in1) in
                let l1 := Xor (Copy (Label0 in0)) (Label1 in1) in
                ret {| Label0 := l0; Label1 := l1 |}
            | _ => throw (IndexOutOfRange 1 (Z.of_nat (length ins)))
            end
        | _ => makeLabels r
        end in
      let* _ := setWire (Output g) w in
      let* table :=
        match Op g, ins with
        | XOR, _ => ret []
        | AND, a :: b :: _ =>
            ret [ entry enc (Label0 a) (Some (Label0 b)) (Label0 w) (ID g);
                  entry enc (Label0 a) (Some (Label1 b)) (Label0 w) (ID g);
                  entry enc (Label1 a) (Some (Label0 b)) (Label0 w) (ID g);
                  entry enc (Label1 a) (Some (Label1 b)) (Label1 w) (ID g) ]
        | OR, a :: b :: _ =>
            ret [ entry enc (Label0 a) (Some (Label0 b)) (Label0 w) (ID g);
                  entry enc (Label0 a) (Some (Label1 b)) (Label1 w) (ID g);
                  entry enc (Label1 a) (Some (Label0 b)) (Label1 w) (ID g);
                  entry enc (Label1 a) (Some (Label1 b)) (Label1 w) (ID g) ]
        | INV, a :: _ =>
            ret [ entry enc (Label0 a) None (Label1 w) (ID g);
                  entry enc (Label1 a) None (Label0 w) (ID g) ]
        | XNOR, _ => fail (ErrInvalidOperand (Op g))
        | _, _ => throw (IndexOutOfRange (Z.of_nat (length ins))
                           (Z.of_nat (length ins)))
        end in
      ret (map Data (sort_ByIndex table))
  end.

Record Garbled : Type := mkGarbled {
  Wires : Inputs;
  GGates : list (list (list byte))
}.

(** The gate loop of [Circuit.Garble]: [garbled[idx] = data]. *)
Fixpoint garbleGates (gates : list Gate) (idx : nat) (enc : Enc) (r : Label)
    (garbled : list (list (list byte))) : G (list (list (list byte))) :=
  match gates with
  | [] => ret garbled
  | gate :: rest =>
      let* data := Gate_Garble gate enc r in
      if (idx <? length garbled)%nat
      then garbleGates rest (Datatypes.S idx) enc r (<[idx := data]> garbled)
      else throw (IndexOutOfRange (Z.of_nat idx) (Z.of_nat (length garbled)))
  end.

(** The last loop of [Circuit.Garble]: labels for the wires no gate
    touched. *)
Fixpoint assignUnset (r : Label) (ids : list Z) : G unit :=
  match ids with
  | [] => ret tt
  | i :: rest =>
      let* ow := getWire i in
      let* _ := match ow with
                | Some _ => ret tt
                | None => let* w := makeLabels r in setWire i w
                end in
      assignUnset r rest
  end.

(** [Circuit.Garble], from the first read of the random source on.  The
    result carries the offset R, which the Go function keeps local. *)
Definition Circuit_Garble_R (aes : list byte -> list byte -> list byte)
    (c : Circuit) (key : list byte) (rnd : Rand)
    : result error (Garbled * Label) :=
  match NewLabel rnd with
  | (Err e, _) => Err (ErrRand e)
  | (Panic p, _) => Panic p
  | (Ok r, rnd) =>
      let r := SetS true r in
      if NumGates c <? 0 then Panic (MakeNegativeLen (NumGates c)) else
      let garbled := replicate (Z.to_nat (NumGates c)) [] in
      match aes_NewCipher aes key with
      | Err e => Err e
      | Panic p => Panic p
      | Ok alg =>
          let enc : Enc := fun a b c t => encrypt alg a b c t in
          let run :=
            let* garbled := garbleGates (Gates c) 0 enc r garbled in
            let* _ := assignUnset r (seqZ 0 (NumWires c)) in
            ret garbled in
          match run {| wires := ∅; rand := rnd |} with
          | Ok (garbled, st) =>
              Ok ({| Wires := wires st; GGates := garbled |}, r)
          | Err e => Err e
          | Panic p => Panic p
          end
      end
  end.

Definition Circuit_Garble (aes : list byte -> list byte -> list byte)
    (c : Circuit) (key : list byte) (rnd : Rand) : result error Garbled :=
  match Circuit_Garble_R aes c key rnd with
  | Ok (g, _) => Ok g
  | Err e => Err e
  | Panic p => Panic p
  end.

(** [Gate.Eval] of [circuit/eval.go]; the evaluator's wire map holds one
    label per wire. *)
Definition Gate_Eval (g : Gate) (wires : gmap Z Label) (dec : Dec)
    (garbled : list (list byte)) : result error (list byte) :=
  match Op g with
  | XNOR => Err (ErrInvalidOperation (Op g))
  | op =>
      let oa := wires !! Input0 g in
      let ob := match op with INV => None | _ => wires !! Input1 g end in
      let bOK := match op with
                 | INV => true
                 | _ => bool_decide (is_Some (wires !! Input1 g))
                 end in
      match oa with
      | None => Err ErrNoInputA
      | Some a =>
          if negb bOK then Err ErrNoInputB else
          match op, ob with
          | XOR, Some b => Ok (Bytes (Xor (Copy a) b))
          | XOR, None => Panic (PanicMsg "nil label")
          | _, _ =>
              let i := idx (Some a) ob in
              if Z.of_nat (length garbled) <=? i
              then Err (ErrCorruptedCircuit i (Z.of_nat (length garbled)))
              else match garbled !! Z.to_nat i with
                   | Some row => dec a ob (ID g) row
                   | None => Panic (IndexOutOfRange i
                                      (Z.of_nat (length garbled)))
                   end
          end
      end
  end.

(** [Circuit.Eval]. *)
Fixpoint evalGates (gates : list Gate) (idx : nat) (dec : Dec)
    (garbled : list (list (list byte))) (wires : gmap Z Label)
    : result error (gmap Z Label) :=
  match gates with
  | [] => Ok wires
  | gate :: rest =>
      match garbled !! idx with
      | None => Panic (IndexOutOfRange (Z.of_nat idx)
                         (Z.of_nat (length garbled)))
      | Some rows =>
          match Gate_Eval gate wires dec rows with
          | Ok output =>
              evalGates rest (Datatypes.S idx) dec garbled
                (<[Output gate := LabelFromData output]> wires)
          | Err e => Err e
          | Panic p => Panic p
          end
      end
  end.

Definition Circuit_Eval (aes : list byte -> list byte -> list byte)
    (c : Circuit) (key : list byte) (wires : gmap Z Label)
    (garbled : list (list (list byte))) : result error (gmap Z Label) :=
  match aes_NewCipher aes key with
  | Err e => Err e
  | Panic p => Panic p
  | Ok alg =>
      let dec : Dec := fun a b t data => decrypt alg a b t data in
      evalGates (Gates c) 0 dec garbled wires
  end.

End circuit.

(** ** Package [circuits]: the circuit builder *)

Module circuits.

Import circuit(Operation, XOR, XNOR, AND, OR, INV).

(** A [*Wire]: the address of a wire object on the heap. *)
Abbreviation WireRef := nat.

(** Modelled from the spec: the builder's [Gate] type and its constructors
    [NewBinary] and [NewINV] are declared outside src/.  A gate is the
    tuple of an operation, input wires [A] and [B] (INV has only [A]) and
    an output wire [O]; constructing it registers the gate with its wires
    through [Wire.AddOutput] and [Wire.SetInput] of compiler.go (each wire
    has at most one producing gate). *)
Record Gate : Type := mkGate {
  Op : Operation;
  A : WireRef;
  B : option WireRef;
  O : WireRef
}.

Definition UnassignedID : Z := 4294967295.

Record Wire : Type := mkWire {
  Output : bool;
  ID : Z;
  NumOutputs : Z;
  Input : option Gate;
  Outputs : list Gate
}.

Record Compiler : Type := mkCompiler {
  Inputs : list WireRef;
  COutputs : list WireRef;
  Gates : list Gate;
  nextWireID : Z;
  zeroWire : option WireRef;
  oneWire : option WireRef
}.

(** The builder's mutable objects: the compiler and the wire objects it
    points to.  The address of a wire is its position in [heap]. *)
Record BState : Type := mkBState {
  comp : Compiler;
  heap : list Wire
}.

Inductive error : Type :=
| ErrLtArgs (r : nat)
| ErrLeArgs (r : nat)
| ErrLogicalAndArgs (x y r : nat).

Abbreviation Build := (M BState error).

Definition NewWire : Build WireRef :=
  fun st =>
    let w := {| Output := false; ID := UnassignedID; NumOutputs := 0;
                Input := None; Outputs := [] |} in
    Ok (length (heap st), {| comp := comp st; heap := heap st ++ [w] |}).

Definition derefWire (w : WireRef) : Build Wire :=
  fun st => match heap st !! w with
            | Some o => Ok (o, st)
            | None => Panic (PanicMsg "nil wire")
            end.

Definition storeWire (w : WireRef) (o : Wire) : Build unit :=
  fun st => Ok (tt, {| comp := comp st; heap := <[w := o]> (heap st) |}).

Definition Wire_SetInput (w : WireRef) (gate : Gate) : Build unit :=
  let* o := derefWire w in
  match Input o with
  | Some _ => throw (PanicMsg "Input gate already set")
  | None =>
      storeWire w {| Output := Output o; ID := ID o;
                     NumOutputs := NumOutputs o;
                     Input := Some gate; Outputs := Outputs o |}
  end.

Definition Wire_AddOutput (w : WireRef) (gate : Gate) : Build unit :=
  let* o := derefWire w in
  storeWire w {| Output := Output o; ID := ID o;
                 NumOutputs := (NumOutputs o + 1) mod 2 ^ 32;
                 Input := Input o; Outputs := Outputs o ++ [gate] |}.

Definition NewBinary (op : Operation) (a b o : WireRef) : Build Gate :=
  let gate := {| Op := op; A := a; B := Some b; O := o |} in
  let* _ := Wire_AddOutput a gate in
  let* _ := Wire_AddOutput b gate in
  let* _ := Wire_SetInput o gate in
  ret gate.

Definition NewINV (i o : WireRef) : Build Gate :=
  let gate := {| Op := INV; A := i; B := None; O := o |} in
  let* _ := Wire_AddOutput i gate in
  let* _ := Wire_SetInput o gate in
  ret gate.

Definition AddGate (gate : Gate) : Build unit :=
  fun st =>
    let c := comp st in
    Ok (tt, {| comp := {| Inputs := Inputs c; COutputs := COutputs c;
                          Gates := Gates c ++ [gate];
                          nextWireID := nextWireID c;
                          zeroWire := zeroWire c; oneWire := oneWire c |};
               heap := heap st |}).

Definition setZeroWire (w : WireRef) : Build unit :=
  fun st =>
    let c := comp st in
    Ok (tt, {| comp := {| Inputs := Inputs c; COutputs := COutputs c;
                          Gates := Gates c; nextWireID := nextWireID c;
                          zeroWire := Some w; oneWire := oneWire c |};
               heap := heap st |}).

Definition setOneWire (w : WireRef) : Build unit :=
  fun st =>
    let c := comp st in
    Ok (tt, {| comp := {| Inputs := Inputs c; COutputs := COutputs c;
                          Gates := Gates c; nextWireID := nextWireID c;
                          zeroWire := zeroWire c; oneWire := Some w |};
               heap := heap st |}).

(** [c.Inputs[0]]. *)
Definition firstInput : Build WireRef :=
  fun st => match Inputs (comp st) with
            | i :: _ => Ok (i, st)
            | [] => Panic (IndexOutOfRange 0 0)
            end.

Definition ZeroWire : Build WireRef :=
  let* st := get in
  match zeroWire (comp st) with
  | Some w => ret w
  | None =>
      let* w := NewWire in
      let* _ := setZeroWire w in
      let* i := firstInput in
      let* gate := NewBinary XOR i i w in
      let* _ := AddGate gate in
      ret w
  end.

Definition OneWire : Build WireRef :=
  let* st := get in
  match oneWire (comp st) with
  | Some w => ret w
  | None =>
      let* w := NewWire in
      let* _ := setOneWire w in
      let* i := firstInput in
      let* gate := NewBinary XNOR i i w in
      let* _ := AddGate gate in
      ret w
  end.

(** One of the two padding loops of [ZeroPad]: [n] iterations from index
    [i]. *)
Fixpoint padLoop (x : list WireRef) (n i : nat) : Build (list WireRef) :=
  match n with
  | 0%nat => ret []
  | S n' =>
      let* w := match x !! i with
                | Some w => ret w
                | None => ZeroWire
                end in
      let* rest := padLoop x n' (S i) in
      ret (w :: rest)
  end.

Definition ZeroPad (x y : list WireRef) : Build (list WireRef * list WireRef) :=
  if Nat.eqb (length x) (length y) then ret (x, y) else
  let max := length x in
  let max := if (max <? length y)%nat then length y else max in
  let* rx := padLoop x max 0 in
  let* ry := padLoop y max 0 in
  ret (rx, ry).

(** Go's [copy(dst, src)]: the first [min (len dst) (len src)] elements of
    [dst] are overwritten. *)
Fixpoint copyInto {T} (dst src : list T) : list T :=
  match dst, src with
  | _ :: dst', s :: src' => s :: copyInto dst' src'
  | _, _ => dst
  end.

(** A zero-fill loop of [ShiftLeft]: [n] iterations from index [i]. *)
Fixpoint fillZero (result : list (option WireRef)) (i : Z) (n : nat)
    : Build (list (option WireRef)) :=
  match n with
  | 0%nat => ret result
  | S n' =>
      let* z := ZeroWire in
      if (0 <=? i) && (i <? Z.of_nat (length result))
      then fillZero (<[Z.to_nat i := Some z]> result) (i + 1) n'
      else throw (IndexOutOfRange i (Z.of_nat (length result)))
  end.

(** [Compiler.ShiftLeft]; a [nil] element of the result is [None]. *)
Definition ShiftLeft (w : list WireRef) (size count : Z)
    : Build (list (option WireRef)) :=
  if size <? 0 then throw (MakeNegativeLen size) else
  let result := replicate (Z.to_nat size) (@None WireRef) in
  let* result :=
    if count <? size then
      if count <? 0 then throw (SliceBoundsOutOfRange count size)
      else ret (take (Z.to_nat count) result ++
                copyInto (drop (Z.to_nat count) result) (map Some w))
    else ret result in
  let* result := fillZero result 0 (Z.to_nat count) in
  let from := count + Z.of_nat (length w) in
  fillZero result from (Z.to_nat (size - from)).

Definition Compiler_INV (i o : WireRef) : Build unit :=
  let* one := OneWire in
  let* gate := NewBinary XOR i one o in
  AddGate gate.

Definition Compiler_ID (i o : WireRef) : Build unit :=
  let* zero := ZeroWire in
  let* gate := NewBinary XOR i zero o in
  AddGate gate.

Definition NewHalfLtComparator (a b bout : WireRef) : Build unit :=
  let* w1 := NewWire in
  let* g := NewINV a w1 in
  let* _ := AddGate g in
  let* g := NewBinary AND w1 b bout in
  AddGate g.

Definition NewFullLtComparator (a b bin bout : WireRef) : Build unit :=
  let* w3 := NewWire in
  let* w4 := NewWire in
  let* w5 := NewWire in
  let* w6 := NewWire in
  let* w7 := NewWire in
  let* g := NewBinary XOR a b w3 in
  let* _ := AddGate g in
  let* g := NewINV a w4 in
  let* _ := AddGate g in
  let* g := NewBinary AND b w4 w5 in
  let* _ := AddGate g in
  let* g := NewINV w3 w6 in
  let* _ := AddGate g in
  let* g := NewBinary AND bin w6 w7 in
  let* _ := AddGate g in
  let* g := NewBinary OR w5 w7 bout in
  AddGate g.

(** [x[i]] on a slice of wires. *)
Definition index (x : list WireRef) (i : nat) : Build WireRef :=
  match x !! i with
  | Some w => ret w
  | None => throw (IndexOutOfRange (Z.of_nat i) (Z.of_nat (length x)))
  end.

(** The loop of [NewLtComparator]: [n] iterations from index [i]. *)
Fixpoint ltLoop (x y : list WireRef) (r0 : WireRef) (bin : WireRef)
    (i n : nat) : Build unit :=
  match n with
  | 0%nat => ret tt
  | S n' =>
      let* bout := if (length x <=? i + 1)%nat then ret r0 else NewWire in
      let* xi := index x i in
      let* yi := index y i in
      let* _ := NewFullLtComparator xi yi bin bout in
      ltLoop x y r0 bout (S i) n'
  end.

Definition NewLtComparator (x y r : list WireRef) : Build unit :=
  let* xy := ZeroPad x y in
  let x := fst xy in
  let y := snd xy in
  match r with
  | [r0] =>
      if Nat.eqb (length x) 1 then
        let* x0 := index x 0 in
        let* y0 := index y 0 in
        NewHalfLtComparator x0 y0 r0
      else
        let* bin := NewWire in
        let* x0 := index x 0 in
        let* y0 := index y 0 in
        let* _ := NewHalfLtComparator x0 y0 bin in
        ltLoop x y r0 bin 1 (length x - 1)
  | _ => fail (ErrLtArgs (length r))
  end.

Definition NewLeComparator (x y r : list WireRef) : Build unit :=
  let* xy := ZeroPad x y in
  let x := fst xy in
  let y := snd xy in
  match r with
  | [r0] =>
      let* w := NewWire in
      let* _ := NewLtComparator y x [w] in
      let* g := NewINV w r0 in
      AddGate g
  | _ => fail (ErrLeArgs (length r))
  end.

Definition NewLogicalAnd (x y r : list WireRef) : Build unit :=
  match x, y, r with
  | [x0], [y0], [r0] =>
      let* g := NewBinary AND x0 y0 r0 in
      AddGate g
  | _, _, _ => fail (ErrLogicalAndArgs (length x) (length y) (length r))
  end.

(** Modelled from the spec: the Boolean function of a gate (the truth
    tables are those in the comments of [Gate.Garble]), and the value
    every wire carries after the gates have been computed in order. *)
Definition evalOp (op : Operation) (a b : bool) : bool :=
  match op with
  | XOR => xorb a b
  | XNOR => negb (xorb a b)
  | AND => a && b
  | OR => a || b
  | INV => negb a
  end.

Definition evalGate (env : WireRef -> bool) (g : Gate) : WireRef -> bool :=
  let b := match B g with Some b => env b | None => false end in
  let v := evalOp (Op g) (env (A g)) b in
  fun w => if Nat.eqb w (O g) then v else env w.

Definition evalGates (gates : list Gate) (env : WireRef -> bool)
    : WireRef -> bool :=
  fold_left evalGate gates env.

(** The unsigned integer carried by a little-endian vector of wires. *)
Fixpoint value (env : WireRef -> bool) (x : list WireRef) : Z :=
  match x with
  | [] => 0
  | w :: x' => Z.b2z (env w) + 2 * value env x'
  end.

End circuits.

(** ** Package [ast]: constant folding ([eval.go]) *)

Module ast.

(** Modelled from the spec: the binary operators of MPCL
    ([+ - * / % << >> & &^ | ^ == != < <= > >= && ||]); the enumeration is
    declared outside src/. *)
Inductive BinaryType : Type :=
| BinaryMult | BinaryDiv | BinaryMod | BinaryLshift | BinaryRshift
| BinaryBand | BinaryBclear
| BinaryPlus | BinaryMinus | BinaryBor | BinaryBxor
| BinaryEq | BinaryNeq | BinaryLt | BinaryLe | BinaryGt | BinaryGe
| BinaryAnd | BinaryOr.

(** A Go [interface{}] holding a constant: its dynamic type and value. *)
Inductive ConstValue : Type :=
| CNil
| CBool (b : bool)
| CInt32 (v : Z)
| CUint64 (v : Z)
| CByte (v : Z)
| CString (s : string).

(** The type descriptors [types.Int32], [types.Uint64], [types.Bool] and
    [types.Undefined] that [eval.go] passes to [gen.Constant]. *)
Inductive TypeTag : Type := TagUndefined | TagBool | TagInt32 | TagUint64.

(** Modelled from the spec: [ssa.Value], [ssa.Undefined] and
    [gen.Constant] are declared outside src/.  A value is either a
    compile-time constant, carrying its Go value and type, or a run-time
    value. *)
Record Value : Type := mkValue {
  Const : bool;
  ConstVal : ConstValue;
  Type_ : TypeTag
}.

Definition Undefined : Value :=
  {| Const := false; ConstVal := CNil; Type_ := TagUndefined |}.

Definition gen_Constant (v : ConstValue) (t : TypeTag) : Value :=
  {| Const := true; ConstVal := v; Type_ := t |}.

Inductive error : Type :=
| ErrDivideByZero
| ErrInvalidRValue (l r : ConstValue)
| ErrInvalidLValue (l : ConstValue)
| ErrBinaryNotImplemented (op : BinaryType)
| ErrConditionNotBoolean
| ErrUsedAsValue
| ErrMultipleValue
| ErrNonBoolCondition
| ErrInitNotConstant
| ErrConditionNotConstant
| ErrIncrementNotConstant
| ErrUnrollLimitExceeded (i : Z)
| ErrOther (msg : string).

(** Go's fixed-width integers: the value of a result reduced to the type. *)
Definition wrap_int32 (z : Z) : Z := (z + 2 ^ 31) mod 2 ^ 32 - 2 ^ 31.
Definition wrap_uint64 (z : Z) : Z := z mod 2 ^ 64.

Definition is_int32 (z : Z) : Prop := - 2 ^ 31 <= z < 2 ^ 31.
Definition is_uint64 (z : Z) : Prop := 0 <= z < 2 ^ 64.

Section Eval.

(** The objects an [Eval] method may mutate ([env], [ctx], [gen]). *)
Variable St : Type.

(** The method [Eval(env, ctx, gen) (ssa.Value, bool, error)] of an AST
    node: [Ok (v, ok)] is the return [(v, ok, nil)], [Err e] a return with
    a non-nil error. *)
Definition EvalMethod : Type := M St error (Value * bool).

Definition BasicLit_Eval (value : ConstValue) : EvalMethod :=
  ret (gen_Constant value TagUndefined, true).

(** The [case int32] arm of [Binary.Eval]. *)
Definition binary_int32 (op : BinaryType) (lval rval : Z) : EvalMethod :=
  match op with
  | BinaryMult => ret (gen_Constant (CInt32 (wrap_int32 (lval * rval))) TagInt32, true)
  | BinaryDiv =>
      if rval =? 0 then fail ErrDivideByZero
      else ret (gen_Constant (CInt32 (wrap_int32 (Z.quot lval rval))) TagInt32, true)
  | BinaryMod =>
      if rval =? 0 then fail ErrDivideByZero
      else ret (gen_Constant (CInt32 (wrap_int32 (Z.rem lval rval))) TagInt32, true)
  | BinaryLshift =>
      if rval <? 0 then throw (NegativeShift rval)
      else ret (gen_Constant (CInt32 (wrap_int32 (Z.shiftl lval rval))) TagInt32, true)
  | BinaryRshift =>
      if rval <? 0 then throw (NegativeShift rval)
      else ret (gen_Constant (CInt32 (Z.shiftr lval rval)) TagInt32, true)
  | BinaryPlus => ret (gen_Constant (CInt32 (wrap_int32 (lval + rval))) TagInt32, true)
  | BinaryMinus => ret (gen_Constant (CInt32 (wrap_int32 (lval - rval))) TagInt32, true)
  | BinaryEq => ret (gen_Constant (CBool (lval =? rval)) TagBool, true)
  | BinaryNeq => ret (gen_Constant (CBool (negb (lval =? rval))) TagBool, true)
  | BinaryLt => ret (gen_Constant (CBool (lval <? rval)) TagBool, true)
  | BinaryLe => ret (gen_Constant (CBool (lval <=? rval)) TagBool, true)
  | BinaryGt => ret (gen_Constant (CBool (lval >? rval)) TagBool, true)
  | BinaryGe => ret (gen_Constant (CBool (lval >=? rval)) TagBool, true)
  | _ => fail (ErrBinaryNotImplemented op)
  end.

(** The [case uint64] arm of [Binary.Eval]. *)
Definition binary_uint64 (op : BinaryType) (lval rval : Z) : EvalMethod :=
  match op with
  | BinaryMult => ret (gen_Constant (CUint64 (wrap_uint64 (lval * rval))) TagUint64, true)
  | BinaryDiv =>
      if rval =? 0 then fail ErrDivideByZero
      else ret (gen_Constant (CUint64 (wrap_uint64 (Z.quot lval rval))) TagUint64, true)
  | BinaryMod =>
      if rval =? 0 then fail ErrDivideByZero
      else ret (gen_Constant (CUint64 (wrap_uint64 (Z.rem lval rval))) TagUint64, true)
  | BinaryLshift => ret (gen_Constant (CUint64 (wrap_uint64 (Z.shiftl lval rval))) TagUint64, true)
  | BinaryRshift => ret (gen_Constant (CUint64 (Z.shiftr lval rval)) TagUint64, true)
  | BinaryPlus => ret (gen_Constant (CUint64 (wrap_uint64 (lval + rval))) TagUint64, true)
  | BinaryMinus => ret (gen_Constant (CUint64 (wrap_uint64 (lval - rval))) TagUint64, true)
  | BinaryEq => ret (gen_Constant (CBool (lval =? rval)) TagBool, true)
  | BinaryNeq => ret (gen_Constant (CBool (negb (lval =? rval))) TagBool, true)
  | BinaryLt => ret (gen_Constant (CBool (lval <? rval)) TagBool, true)
  | BinaryLe => ret (gen_Constant (CBool (lval <=? rval)) TagBool, true)
  | BinaryGt => ret (gen_Constant (CBool (lval >? rval)) TagBool, true)
  | BinaryGe => ret (gen_Constant (CBool (lval >=? rval)) TagBool, true)
  | _ => fail (ErrBinaryNotImplemented op)
  end.

(** [Binary.Eval]; [Left] and [Right] are the [Eval] methods of the two
    operand nodes. *)
Definition Binary_Eval (Op : BinaryType) (Left Right : EvalMethod)
    : EvalMethod :=
  let* l := Left in
  if negb (snd l) then ret (Undefined, false) else
  let* r := Right in
  if negb (snd r) then ret (Undefined, false) else
  match ConstVal (fst l) with
  | CInt32 lval =>
      match ConstVal (fst r) with
      | CInt32 rval => binary_int32 Op lval rval
      | rv => fail (ErrInvalidRValue (CInt32 lval) rv)
      end
  | CUint64 lval =>
      match ConstVal (fst r) with
      | CUint64 rval => binary_uint64 Op lval rval
      | rv => fail (ErrInvalidRValue (CUint64 lval) rv)
      end
  | lval => fail (ErrInvalidLValue lval)
  end.

End Eval.

Arguments BasicLit_Eval {St} value.
Arguments Binary_Eval {St} Op Left Right.

(** ** Package [ast]: SSA generation ([ssagen.go]) *)

Section SSAGen.

(** Modelled from the spec: package [ssa] is not under src/.  Its
    bindings, variables and instructions are parameters; [Merge cond t f]
    is [t.Merge(cond, f)], the phi-merge of two bindings on a branching
    condition; [isBool v] tells whether the type of [v] is [types.Bool];
    [Aux] stands for the rest of [ctx] and [gen] that statements may
    mutate. *)
Variables Bindings Variable_ Instr Aux : Type.
Variable emptyBindings : Bindings.
Variable Merge : Variable_ -> Bindings -> Bindings -> Bindings.
Variable isBool : Variable_ -> bool.

(** A [*ssa.Block]: the address of a block object. *)
Definition BlockRef : Type := nat.

(** Modelled from the spec: a block holds an ordered list of instructions
    and at most one branching condition plus two successors, and its
    bindings. *)
Record Block : Type := mkBlock {
  BBindings : Bindings;
  Dead : bool;
  BranchCond : option Variable_;
  Next : option BlockRef;
  Branch : option BlockRef;
  Instrs : list Instr
}.

(** The state of SSA generation: the block objects (the address of a
    block is its position) and everything else. *)
Record SState : Type := mkSState {
  blocks : list Block;
  aux : Aux
}.

Definition Gen : Type -> Type := M SState error.

(** The method [Eval(env, ctx, gen) (interface{}, bool, error)] as
    [ssagen.go] calls it: the environment is passed in and comes back
    with the bindings the evaluation has set. *)
Definition EvalS : Type := Bindings -> Gen ((ConstValue * bool) * Bindings).

(** The method [SSA(block, ctx, gen)] of an AST node; it returns the
    block generation continues in and the variables of the node's values. *)
Definition SSAMethod : Type := BlockRef -> Gen (BlockRef * list Variable_).

Definition getBlock (b : BlockRef) : Gen Block :=
  fun st => match blocks st !! b with
            | Some o => Ok (o, st)
            | None => Panic (PanicMsg "nil block")
            end.

Definition updBlock (b : BlockRef) (f : Block -> Block) : Gen unit :=
  let* o := getBlock b in
  fun st => Ok (tt, {| blocks := <[b := f o]> (blocks st); aux := aux st |}).

Definition setBindings (b : BlockRef) (bnd : Bindings) : Gen unit :=
  updBlock b (fun o => {| BBindings := bnd; Dead := Dead o;
                          BranchCond := BranchCond o; Next := Next o;
                          Branch := Branch o; Instrs := Instrs o |}).

Definition setDead (b : BlockRef) (d : bool) : Gen unit :=
  updBlock b (fun o => {| BBindings := BBindings o; Dead := d;
                          BranchCond := BranchCond o; Next := Next o;
                          Branch := Branch o; Instrs := Instrs o |}).

Definition setBranchCond (b : BlockRef) (v : Variable_) : Gen unit :=
  updBlock b (fun o => {| BBindings := BBindings o; Dead := Dead o;
                          BranchCond := Some v; Next := Next o;
                          Branch := Branch o; Instrs := Instrs o |}).

Definition SetNext (b n : BlockRef) : Gen unit :=
  updBlock b (fun o => {| BBindings := BBindings o; Dead := Dead o;
                          BranchCond := BranchCond o; Next := Some n;
                          Branch := Branch o; Instrs := Instrs o |}).

Definition SetBranch (b n : BlockRef) : Gen unit :=
  updBlock b (fun o => {| BBindings := BBindings o; Dead := Dead o;
                          BranchCond := BranchCond o; Next := Next o;
                          Branch := Some n; Instrs := Instrs o |}).

Definition AddInstr (b : BlockRef) (i : Instr) : Gen unit :=
  updBlock b (fun o => {| BBindings := BBindings o; Dead := Dead o;
                          BranchCond := BranchCond o; Next := Next o;
                          Branch := Branch o; Instrs := Instrs o ++ [i] |}).

(** [gen.Block()]: a new, empty block. *)
Definition gen_Block : Gen BlockRef :=
  fun st =>
    let o := {| BBindings := emptyBindings; Dead := false;
                BranchCond := None; Next := None; Branch := None;
                Instrs := [] |} in
    Ok (length (blocks st), {| blocks := blocks st ++ [o]; aux := aux st |}).

(** [gen.NextBlock(b)] and [gen.BranchBlock(b)]: a new block that starts
    from the bindings of [b] and becomes its next, respectively branch,
    successor. *)
Definition gen_NextBlock (b : BlockRef) : Gen BlockRef :=
  let* o := getBlock b in
  let* n := gen_Block in
  let* _ := setBindings n (BBindings o) in
  let* _ := SetNext b n in
  ret n.

Definition gen_BranchBlock (b : BlockRef) : Gen BlockRef :=
  let* o := getBlock b in
  let* n := gen_Block in
  let* _ := setBindings n (BBindings o) in
  let* _ := SetBranch b n in
  ret n.

(** [NewEnv(block)]. *)
Definition NewEnv (b : BlockRef) : Gen Bindings :=
  let* o := getBlock b in ret (BBindings o).

(** [List.SSA]. *)
Fixpoint List_SSA (l : list SSAMethod) (block : BlockRef)
    : Gen (BlockRef * list Variable_) :=
  match l with
  | [] => ret (block, [])
  | b :: rest =>
      let* o := getBlock block in
      if Dead o then ret (block, []) else
      let* r := b block in
      List_SSA rest (fst r)
  end.

(** [If.SSA]; [Expr_Eval] and [Expr_SSA] are the methods of the condition
    node, [True_] and [False_] the statements of the two branches. *)
Definition If_SSA (Expr_Eval : EvalS) (Expr_SSA : SSAMethod)
    (True_ False_ : list SSAMethod) : SSAMethod :=
  fun block =>
  let* env := NewEnv block in
  let* c := Expr_Eval env in
  let constVal := fst (fst c) in
  let ok := snd (fst c) in
  let env := snd c in
  if ok then
    let* _ := setBindings block env in
    match constVal with
    | CBool val =>
        if val then List_SSA True_ block
        else List_SSA False_ block
    | _ => fail ErrConditionNotBoolean
    end
  else
    let* r := Expr_SSA block in
    let block := fst r in
    match snd r with
    | [] => fail ErrUsedAsValue
    | e0 :: _ :: _ => fail ErrMultipleValue
    | [e0] =>
        if negb (isBool e0) then fail ErrNonBoolCondition else
        let* _ := setBranchCond block e0 in
        let* tBlock := gen_BranchBlock block in
        let* t := List_SSA True_ tBlock in
        let tNext := fst t in
        match False_ with
        | [] =>
            let* tn := getBlock tNext in
            if Dead tn then
              let* tNext := gen_NextBlock block in
              ret (tNext, [])
            else
              let* bo := getBlock block in
              let* _ := setBindings tNext
                          (Merge e0 (BBindings tn) (BBindings bo)) in
              let* _ := SetNext block tNext in
              ret (tNext, [])
        | _ :: _ =>
            let* fBlock := gen_NextBlock block in
            let* f := List_SSA False_ fBlock in
            let fNext := fst f in
            let* fn := getBlock fNext in
            let* tn := getBlock tNext in
            if Dead fn && Dead tn then
              let* next := gen_Block in
              let* _ := setDead next true in
              ret (next, [])
            else if Dead fn then ret (tNext, [])
            else if Dead tn then ret (fNext, [])
            else
              let* next := gen_Block in
              let* _ := SetNext tNext next in
              let* _ := SetNext fNext next in
              let* tn := getBlock tNext in
              let* fn := getBlock fNext in
              let* _ := setBindings next
                          (Merge e0 (BBindings tn) (BBindings fn)) in
              ret (next, [])
        end
    end.

(** The expansion loop of [For.SSA], entered with iteration counter [i]
    and [fuel] iterations left before the counter reaches
    [gen.Params.MaxLoopUnroll]. *)
Fixpoint forLoop (Cond Inc : EvalS) (Body : list SSAMethod) (fuel : nat)
    (i : Z) (env : Bindings) (block : BlockRef)
    : Gen (BlockRef * list Variable_) :=
  match fuel with
  | O => fail (ErrUnrollLimitExceeded i)
  | S fuel' =>
      let* c := Cond env in
      let env := snd c in
      if negb (snd (fst c)) then fail ErrConditionNotConstant else
      match fst (fst c) with
      | CBool val =>
          if negb val then ret (block, []) else
          let* _ := setBindings block env in
          let* b := List_SSA Body block in
          let block := fst b in
          let* env := NewEnv block in
          let* n := Inc env in
          let env := snd n in
          if negb (snd (fst n)) then fail ErrIncrementNotConstant else
          forLoop Cond Inc Body fuel' (i + 1) env block
      | _ => fail ErrConditionNotBoolean
      end
  end.

(** [For.SSA]. *)
Definition For_SSA (MaxLoopUnroll : Z) (Init Cond Inc : EvalS)
    (Body : list SSAMethod) : SSAMethod :=
  fun block =>
  let* env := NewEnv block in
  let* n := Init env in
  let env := snd n in
  if negb (snd (fst n)) then fail ErrInitNotConstant else
  forLoop Cond Inc Body (Z.to_nat MaxLoopUnroll) 0 env block.

(** A statement that lowers to one instruction appended to the current
    block (as an assignment of a run-time value does). *)
Definition Emit (i : Instr) : SSAMethod :=
  fun block => let* _ := AddInstr block i in ret (block, []).

(** The number of statements of a loop body instance that [For.SSA] has
    expanded is observable as the instructions they appended. *)
Definition instrsOf (st : SState) (b : BlockRef) : list Instr :=
  match blocks st !! b with
  | Some o => Instrs o
  | None => []
  end.

End SSAGen.

Arguments BBindings {Bindings Variable_ Instr}.
Arguments Dead {Bindings Variable_ Instr}.
Arguments BranchCond {Bindings Variable_ Instr}.
Arguments Next {Bindings Variable_ Instr}.
Arguments Branch {Bindings Variable_ Instr}.
Arguments Instrs {Bindings Variable_ Instr}.
Arguments blocks {Bindings Variable_ Instr Aux}.
Arguments aux {Bindings Variable_ Instr Aux}.
Arguments getBlock {Bindings Variable_ Instr Aux}.
Arguments updBlock {Bindings Variable_ Instr Aux}.
Arguments setBindings {Bindings Variable_ Instr Aux}.
Arguments setDead {Bindings Variable_ Instr Aux}.
Arguments setBranchCond {Bindings Variable_ Instr Aux}.
Arguments SetNext {Bindings Variable_ Instr Aux}.
Arguments SetBranch {Bindings Variable_ Instr Aux}.
Arguments AddInstr {Bindings Variable_ Instr Aux}.
Arguments gen_Block {Bindings Variable_ Instr Aux}.
Arguments gen_NextBlock {Bindings Variable_ Instr Aux}.
Arguments gen_BranchBlock {Bindings Variable_ Instr Aux}.
Arguments NewEnv {Bindings Variable_ Instr Aux}.
Arguments List_SSA {Bindings Variable_ Instr Aux}.
Arguments If_SSA {Bindings Variable_ Instr Aux}.
Arguments forLoop {Bindings Variable_ Instr Aux}.
Arguments For_SSA {Bindings Variable_ Instr Aux}.
Arguments Emit {Bindings Variable_ Instr Aux}.
Arguments instrsOf {Bindings Variable_ Instr Aux}.

End ast.

(** ** Package [types]: the type parser ([parse.go]) *)

Module types.

(** Modelled from the spec: the kinds of a [TypeInfo] and the fields
    [Parse] sets; [types.Info] is declared outside src/. *)
Inductive Type_ : Type :=
| TUndefined | TBool | TInt | TUint | TFloat | TString | TStruct | TArray.

#[warnings="-register-all"] Inductive Info : Type := mkInfo {
  Type__ : Type_;
  Bits : Z;
  MinBits : Z;
  ElementType : option Info;
  ArraySize : Z
}.

Inductive error : Type :=
| ErrUnknownType (val : string)
| ErrAtoiRange (s : string).

(** [types.Size] is a Go integer type declared outside src/; the model
    is parameterised by its width and signedness.  [toSize] is the
    conversion [Size(v)]: the value reduced to the type. *)
Record IntType : Type := mkIntType { width : Z; signed : bool }.

Definition toSize (t : IntType) (z : Z) : Z :=
  if signed t
  then (z + 2 ^ (width t - 1)) mod 2 ^ width t - 2 ^ (width t - 1)
  else z mod 2 ^ width t.

Definition representable (t : IntType) (z : Z) : Prop :=
  if signed t
  then - 2 ^ (width t - 1) <= z < 2 ^ (width t - 1)
  else 0 <= z < 2 ^ width t.

(** The eight integer types Go has. *)
Definition goIntTypes : list IntType :=
  [ mkIntType 8 true; mkIntType 16 true; mkIntType 32 true; mkIntType 64 true;
    mkIntType 8 false; mkIntType 16 false; mkIntType 32 false;
    mkIntType 64 false ].

Definition is_digit (c : ascii) : bool :=
  let n := nat_of_ascii c in ((48 <=? n) && (n <=? 57))%nat.

(** Longest prefix of characters satisfying [p], and the rest. *)
Fixpoint span (p : ascii -> bool) (s : string) : string * string :=
  match s with
  | EmptyString => (EmptyString, EmptyString)
  | String c s' =>
      if p c then let r := span p s' in (String c (fst r), snd r)
      else (EmptyString, s)
  end.

Fixpoint all_digits (s : string) : bool :=
  match s with
  | EmptyString => true
  | String c s' => is_digit c && all_digits s'
  end.

Definition nonempty (s : string) : bool :=
  match s with EmptyString => false | _ => true end.

(** [reSized.FindStringSubmatch]: the groups of
    [^([[:^digit:]]+)([[:digit:]]+)$] on a subject without line feeds
    (there the anchors of Go's POSIX mode are those of the whole
    subject). *)
Definition match_reSized (val : string) : option (string * string) :=
  let r := span (fun c => negb (is_digit c)) val in
  if nonempty (fst r) && nonempty (snd r) && all_digits (snd r)
  then Some r else None.

(** [reArr.FindStringSubmatch]: the groups of
    [^\[([[:digit:]]+)\](.+)$], on a subject without line feeds. *)
Definition match_reArr (val : string) : option (string * string) :=
  match val with
  | String "["%char s =>
      let r := span is_digit s in
      match snd r with
      | String "]"%char t =>
          if nonempty (fst r) && nonempty t then Some (fst r, t) else None
      | _ => None
      end
  | _ => None
  end.

(** The number a string of decimal digits denotes. *)
Fixpoint decimal_acc (acc : Z) (s : string) : Z :=
  match s with
  | EmptyString => acc
  | String c s' => decimal_acc (10 * acc + (Z.of_nat (nat_of_ascii c) - 48)) s'
  end.

Definition decimal (s : string) : Z := decimal_acc 0 s.

(** [strconv.Atoi] on a string of digits: the result is a Go [int]
    (64 bits); a larger number is a range error. *)
Definition Atoi (s : string) : result error Z :=
  let v := decimal s in
  if v <? 2 ^ 63 then Ok v else Err (ErrAtoiRange s).

Section Parse.

Variable SizeT : IntType.

(** [Parse].  The recursion on the element type of an array is on a
    proper suffix of the argument; [fuel] bounds its depth. *)
Fixpoint Parse_fuel (fuel : nat) (val : string) : result error Info :=
  match fuel with
  | O => Panic (PanicMsg "Parse: recursion bound")
  | S fuel' =>
      if (String.eqb val "b"%string || String.eqb val "bool"%string)%bool then
        Ok {| Type__ := TBool; Bits := 1; MinBits := 1;
              ElementType := None; ArraySize := 0 |}
      else if String.eqb val "byte"%string then
        Ok {| Type__ := TUint; Bits := 8; MinBits := 8;
              ElementType := None; ArraySize := 0 |}
      else
        match match_reSized val with
        | Some (m1, m2) =>
            match
              (if (String.eqb m1 "i"%string || String.eqb m1 "int"%string)%bool
               then Some TInt
               else if (String.eqb m1 "u"%string || String.eqb m1 "uint"%string)%bool
               then Some TUint
               else if (String.eqb m1 "s"%string || String.eqb m1 "string"%string)%bool
               then Some TString
               else None)
            with
            | None => Err (ErrUnknownType val)
            | Some ty =>
                match Atoi m2 with
                | Ok ival =>
                    Ok {| Type__ := ty; Bits := toSize SizeT ival;
                          MinBits := toSize SizeT ival;
                          ElementType := None; ArraySize := 0 |}
                | Err e => Err e
                | Panic p => Panic p
                end
            end
        | None =>
            match match_reArr val with
            | None => Err (ErrUnknownType val)
            | Some (m1, m2) =>
                match Parse_fuel fuel' m2 with
                | Err e => Err e
                | Panic p => Panic p
                | Ok elType =>
                    match Atoi m1 with
                    | Err e => Err e
                    | Panic p => Panic p
                    | Ok ival =>
                        let bits :=
                          toSize SizeT (toSize SizeT ival * Bits elType) in
                        Ok {| Type__ := TArray; Bits := bits;
                              MinBits := bits;
                              ElementType := Some elType;
                              ArraySize := toSize SizeT ival |}
                    end
                end
            end
        end
  end.

Definition Parse (val : string) : result error Info :=
  Parse_fuel (S (String.length val)) val.

End Parse.

(** A type string without line feeds. *)
Fixpoint single_line (s : string) : bool :=
  match s with
  | EmptyString => true
  | String c s' => negb (Ascii.eqb c "010"%char) && single_line s'
  end.

End types.

(** * Vocabulary of the properties *)

Module props.

Import ot circuit.

(** The Free-XOR relation of a wire, L1 = L0 XOR R, and of a wire map. *)
Definition free_xor_wire (r : Label) (w : ot.Wire) : Prop :=
  Label1 w = Xor (Label0 w) r.

Definition free_xor (r : Label) (ws : gmap Z ot.Wire) : Prop :=
  forall i w, ws !! i = Some w -> free_xor_wire r w.

(** The rows of the truth table of a gate: the two input labels that
    encrypt the row and the output label it carries. *)
Definition truth_rows (op : Operation) (a b c : ot.Wire)
    : list (Label * option Label * Label) :=
  match op with
  | AND => [ (Label0 a, Some (Label0 b), Label0 c);
             (Label0 a, Some (Label1 b), Label0 c);
             (Label1 a, Some (Label0 b), Label0 c);
             (Label1 a, Some (Label1 b), Label1 c) ]
  | OR => [ (Label0 a, Some (Label0 b), Label0 c);
            (Label0 a, Some (Label1 b), Label1 c);
            (Label1 a, Some (Label0 b), Label1 c);
            (Label1 a, Some (Label1 b), Label1 c) ]
  | INV => [ (Label0 a, None, Label1 c);
             (Label1 a, None, Label0 c) ]
  | _ => []
  end.

(** The point-and-permute index of a row. *)
Definition row_index (row : Label * option Label * Label) : Z :=
  idx (Some (fst (fst row))) (snd (fst row)).

Definition row_data (enc : Enc) (id : Z)
    (row : Label * option Label * Label) : list byte :=
  enc (fst (fst row)) (snd (fst row)) (snd row) id.

(** The labels [Gate.Garble] has looked up for the inputs of a gate. *)
Definition ins_of (op : Operation) (ins : list ot.Wire) (a b : ot.Wire)
    : Prop :=
  match op with
  | INV => ins = [a] /\ b = a
  | _ => ins = [a; b]
  end.

(** What [Gate.Eval] does on a table gate once it holds the labels [la]
    and [lb] of the inputs: it decrypts the row at their index. *)
Definition eval_at (g : Gate) (dec : Dec) (garbled : list (list byte))
    (la : Label) (lb : option Label) : result error (list byte) :=
  let i := idx (Some la) lb in
  match garbled !! Z.to_nat i with
  | Some row => dec la lb (ID g) row
  | None => Err (ErrCorruptedCircuit i (Z.of_nat (length garbled)))
  end.

(** The label of a wire that stands for the bit [v]. *)
Definition label_of (w : ot.Wire) (v : bool) : Label :=
  if v then Label1 w else Label0 w.

End props.

(** * Sample inputs *)

Module examples.

Import ot circuit.

(** A stand-in for the AES library function in the examples: any function
    from a key and a block to a block will do. *)
Definition toyCipher (key block : list byte) : list byte := rev block.

Definition key0 : list byte := replicate 16 x00.

Definition block_of (z : Z) : list byte := rev (le_bytes 16 z).

Definition rnd0 : Rand :=
  map block_of [12345; 777; 4242; 99; 31337; 2718; 1618; 1414].

(** w2 = w0 AND w1; w3 = w2 XOR w0; w4 = INV w3; wire 5 is unused. *)
Definition circuit0 : Circuit :=
  {| NumGates := 3; NumWires := 6;
     Gates := [ mkGate 0 1 2 AND 0; mkGate 2 0 3 XOR 1; mkGate 3 0 4 INV 2 ] |}.

Definition garbled0 : Garbled :=
  match Circuit_Garble toyCipher circuit0 key0 rnd0 with
  | Ok g => g
  | _ => {| Wires := ∅; GGates := [] |}
  end.

(** The circuit of the builder's one-wire over a single input:
    w1 = w0 XNOR w0. *)
Definition oneWireGate : Gate := mkGate 0 0 1 XNOR 0.

Definition oneWireCircuit : Circuit :=
  {| NumGates := 1; NumWires := 2; Gates := [oneWireGate] |}.

Definition andGate : Gate := mkGate 0 1 2 AND 7.

Definition gstate0 : GState := {| wires := ∅; rand := rnd0 |}.

Definition enc0 : Enc := encrypt (mkBlock 16 (toyCipher key0)).

Definition dec0 : Dec := decrypt (mkBlock 16 (toyCipher key0)).

Definition andGarbled : list (list byte) * GState :=
  match Gate_Garble andGate enc0 1 gstate0 with
  | Ok p => p
  | _ => ([], gstate0)
  end.

End examples.

(** * Vocabulary of the builder properties *)

Module bprops.

Import circuit(Operation, XOR, XNOR, AND, OR, INV).
Import circuits.

(** For every wire object, whether it has a producing gate. *)
Definition drv (st : BState) : list bool :=
  map (fun o => bool_decide (is_Some (Input o))) (heap st).

(** The wire is allocated. *)
Definition valid (st : BState) (w : WireRef) : Prop :=
  (w < length (heap st))%nat.

(** The wire is allocated and has no producing gate. *)
Definition undriven (st : BState) (w : WireRef) : Prop :=
  drv st !! w = Some false.

(** [ZeroWire] can be called: the zero wire exists, or the compiler has a
    first input wire to make it from. *)
Definition zero_ready (st : BState) : Prop :=
  match zeroWire (comp st) with
  | Some z => valid st z
  | None => exists i rest, Inputs (comp st) = i :: rest /\ valid st i
  end.

(** The zero wire, once it exists, carries 0 in [env], the values of the
    wires after the gates emitted so far. *)
Definition zero_ok (st : BState) (env : WireRef -> bool) : Prop :=
  forall z, zeroWire (comp st) = Some z -> env z = false.

(** A builder call has appended the gates [gs]; they write only newly
    allocated wires and [out]. *)
Definition emits (st st' : BState) (gs : list Gate) (out : WireRef) : Prop :=
  Gates (comp st') = Gates (comp st) ++ gs /\
  Inputs (comp st') = Inputs (comp st) /\
  (forall u, valid st u -> valid st' u) /\
  (forall u, undriven st u -> u <> out -> undriven st' u) /\
  (forall env u, valid st u -> u <> out -> evalGates gs env u = env u).

(** The compiler with a new list of gates. *)
Definition withGates (c : Compiler) (gs : list Gate) : Compiler :=
  {| Inputs := Inputs c; COutputs := COutputs c; Gates := gs;
     nextWireID := nextWireID c; zeroWire := zeroWire c;
     oneWire := oneWire c |}.

(** The borrow chain of the comparator on bits, least significant
    first. *)
Fixpoint ltchain (xs ys : list bool) (bin : bool) : bool :=
  match xs, ys with
  | a :: xs', b :: ys' =>
      ltchain xs' ys' ((b && negb a) || (bin && negb (xorb a b)))
  | _, _ => bin
  end.

(** What [ShiftLeft] leaves at position [i] of its result: a wire of [w]
    moved up by [count] positions, the zero wire elsewhere. *)
Definition shifted (w : list WireRef) (count : Z) (zero : option WireRef)
    (i : Z) : option WireRef :=
  if (count <=? i) && (i <? count + Z.of_nat (length w))
  then w !! Z.to_nat (i - count)
  else zero.

(** A compiler that has allocated its [n] input wires and nothing else. *)
Definition inputWire : Wire :=
  {| Output := false; ID := UnassignedID; NumOutputs := 0;
     Input := None; Outputs := [] |}.

Definition withInputs (n : nat) : BState :=
  {| comp := {| Inputs := seq 0 n; COutputs := []; Gates := [];
                nextWireID := 0; zeroWire := None; oneWire := None |};
     heap := replicate n inputWire |}.

(** [OneWire] can be called, and the one wire, once it exists, carries
    1. *)
Definition one_ready (st : BState) : Prop :=
  match oneWire (comp st) with
  | Some o => valid st o
  | None => exists i rest, Inputs (comp st) = i :: rest /\ valid st i
  end.

Definition one_ok (st : BState) (env : WireRef -> bool) : Prop :=
  forall o, oneWire (comp st) = Some o -> env o = true.

End bprops.

(** ** Example programs for SSA generation *)

Module ssa_examples.

Import ast.

(** Bindings that hold the constant value of one loop counter and the
    conditions of the phi-merges that produced them. *)
Record Env : Type := mkEnv {
  counter : Z;
  phis : list nat
}.

Definition emptyEnv : Env := {| counter := 0; phis := [] |}.

Definition MergeEnv (cond : nat * bool) (t f : Env) : Env :=
  {| counter := counter t; phis := fst cond :: phis t ++ phis f |}.

(** A variable is a name and whether its type is bool. *)
Abbreviation Var := (nat * bool)%type.

Abbreviation Gen := (ast.Gen Env Var nat unit).
Abbreviation Method := (SSAMethod Env Var nat unit).
Abbreviation Evaluator := (EvalS Env Var nat unit).

(** One empty block. *)
Definition start : SState Env Var nat unit :=
  {| blocks := [ {| BBindings := emptyEnv; Dead := false;
                    BranchCond := None; Next := None; Branch := None;
                    Instrs := [] |} ];
     aux := tt |}.

(** The condition [true], a compile-time constant. *)
Definition constTrue : Evaluator :=
  fun env => ret ((CBool true, true), env).

(** A condition that reads a run-time variable: not constant; its SSA
    form is the bool variable 7 in the same block. *)
Definition runtimeCond : Evaluator :=
  fun env => ret ((CNil, false), env).

Definition runtimeCondSSA : Method :=
  fun block => ret (block, [(7%nat, true)]).

Definition ifConst : Method :=
  If_SSA emptyEnv MergeEnv snd constTrue runtimeCondSSA
    [Emit 1%nat] [Emit 2%nat].

Definition ifRuntime : Method :=
  If_SSA emptyEnv MergeEnv snd runtimeCond runtimeCondSSA
    [Emit 1%nat] [Emit 2%nat].

(** The loop [for i := 0; i < N; i++ { body }] with a one-instruction
    body. *)
Definition countInit : Evaluator :=
  fun env => ret ((CNil, true), {| counter := 0; phis := phis env |}).

Definition countCond (N : Z) : Evaluator :=
  fun env => ret ((CBool (counter env <? N), true), env).

Definition countInc : Evaluator :=
  fun env =>
    ret ((CNil, true), {| counter := counter env + 1; phis := phis env |}).

Definition countLoop (MaxLoopUnroll N : Z) (body : nat) : Method :=
  For_SSA MaxLoopUnroll countInit (countCond N) countInc [Emit body].

(** A statement that ends its block, as a return statement does
    ([Return.SSA] ends with [block.Dead = true]). *)
Definition terminate : Method :=
  fun block => let* _ := setDead block true in ret (block, []).

Definition ifBothReturn : Method :=
  If_SSA emptyEnv MergeEnv snd runtimeCond runtimeCondSSA
    [terminate] [terminate].

Definition ifNoElse : Method :=
  If_SSA emptyEnv MergeEnv snd runtimeCond runtimeCondSSA [Emit 1%nat] [].

End ssa_examples.

(** * Vocabulary of the garbling properties *)

Module gprops.

Import ot circuit props.

(** The label fits the k bits of a label. *)
Definition wf_label (l : Label) : Prop := Z.land l (Z.ones k) = l.

(** Every wire of the map has a k-bit zero label. *)
Definition wf_wires (ws : gmap Z ot.Wire) : Prop :=
  forall i w, ws !! i = Some w -> wf_label (Label0 w).

(** The wire map of a garbling run with offset [r]: every wire is a
    Free-XOR pair of k-bit labels. *)
Definition wires_ok (r : Label) (ws : gmap Z ot.Wire) : Prop :=
  free_xor r ws /\ wf_wires ws.

(** The bits on the wires of a circuit after a gate, and after a list of
    gates, computed in the clear. *)
Definition plainGate (env : Z -> bool) (g : Gate) : Z -> bool :=
  fun w =>
    if w =? Output g
    then circuits.evalOp (Op g) (env (Input0 g)) (env (Input1 g))
    else env w.

Definition plainEval (gates : list Gate) (env : Z -> bool) : Z -> bool :=
  fold_left plainGate gates env.

(** The number of ciphertexts in the garbled table of a gate. *)
Definition tableSize (op : Operation) : nat :=
  match op with
  | AND | OR => 4
  | INV => 2
  | XOR | XNOR => 0
  end.

(** The evaluator's wire map holds, for every wire of the garbler's map
    [W] outside [skip], the label of the wire's bit in [env]. *)
Definition holds_labels (W : gmap Z ot.Wire) (skip : list Z)
    (env : Z -> bool) (ws : gmap Z Label) : Prop :=
  forall i w, W !! i = Some w -> i ∉ skip ->
    ws !! i = Some (label_of w (env i)).

End gprops.

(** ** Package [ast]: more constant folding ([eval.go]) *)

Module ast_expr.

Import ast.

(** Modelled from the spec: the unary operators of MPCL ([-] and [!]); the
    enumeration is declared outside src/. *)
Inductive UnaryType : Type := UnaryMinus | UnaryNot.

Definition MaxInt32 : Z := 2 ^ 31 - 1.

Section Eval.

Variable St : Type.

Local Abbreviation EvalMethod := (EvalMethod St).

(** [Unary.Eval]. *)
Definition Unary_Eval (Type__ : UnaryType) (Expr : EvalMethod)
    : EvalMethod :=
  let* e := Expr in
  if negb (snd e) then ret (Undefined, false) else
  match ConstVal (fst e) with
  | CInt32 val =>
      match Type__ with
      | UnaryMinus =>
          ret (gen_Constant (CInt32 (wrap_int32 (- val))) TagInt32, true)
      | _ => fail (ErrOther "Unary.Eval: not implemented yet")
      end
  | _ => fail (ErrOther "invalid value")
  end.

(** [intVal] on the [ssa.Value] an index expression has evaluated to. *)
Definition intVal (v : Value) : result error Z :=
  if negb (Const v) then Err (ErrOther "non-const slice index")
  else match ConstVal v with
       | CInt32 z => Ok z
       | _ => Err (ErrOther "invalid slice index")
       end.

(** One bound of a slice expression: the default when the bound is not
    given; [(_, false)] when its expression is not constant. *)
Definition sliceBound (e : option EvalMethod) (dflt : Z)
    : M St error (Z * bool) :=
  match e with
  | None => ret (dflt, true)
  | Some m =>
      let* v := m in
      if negb (snd v) then ret (0, false) else
      match intVal (fst v) with
      | Ok z => ret (z, true)
      | Err e => fail e
      | Panic p => throw p
      end
  end.

(** [Slice.Eval]: bits [from] to [to - 1] of an int32 constant.  The
    shifts are those of Go on a [uint32]: a negative count panics, a
    count of 32 or more gives 0. *)
Definition Slice_Eval (Expr : EvalMethod) (From To : option EvalMethod)
    : EvalMethod :=
  let* e := Expr in
  if negb (snd e) then ret (Undefined, false) else
  let* f := sliceBound From 0 in
  if negb (snd f) then ret (Undefined, false) else
  let* t := sliceBound To MaxInt32 in
  if negb (snd t) then ret (Undefined, false) else
  let from := fst f in
  let to := fst t in
  if to <=? from then fail (ErrOther "invalid slice range") else
  match ConstVal (fst e) with
  | CInt32 val =>
      if 32 <=? from then fail (ErrOther "slice bounds out of range") else
      let tmp := val mod 2 ^ 32 in
      if from <? 0 then throw (NegativeShift from) else
      let tmp := Z.shiftr tmp from in
      let mask := Z.shiftl (Z.ones 32) (to - from) mod 2 ^ 32 in
      let tmp := Z.ldiff tmp mask in
      ret (gen_Constant (CInt32 (wrap_int32 tmp)) TagInt32, true)
  | _ => fail (ErrOther "Slice.Eval: expr not implemented yet")
  end.

End Eval.

Arguments Unary_Eval {St} Type__ Expr.
Arguments Slice_Eval {St} Expr From To.

End ast_expr.

(** * Vocabulary of the properties of type strings *)

Module tprops.

Import types.

(** A string without decimal digits. *)
Fixpoint no_digits (s : string) : bool :=
  match s with
  | EmptyString => true
  | String c s' => negb (is_digit c) && no_digits s'
  end.

End tprops.

(** * The evaluator on wire maps with nil labels *)

Module circuit_ptr.

Import ot circuit.

(** Modelled from the spec: [ot.Label] is declared outside src/.  The
    methods [Copy] and [Xor] of [*ot.Label] read the label they are
    called on and the label they are given; on a nil pointer that read is
    a nil pointer dereference, the run-time panic below. *)
Definition NilDereference : panic :=
  PanicMsg "invalid memory address or nil pointer dereference".

(** [Dec] as the source declares it, on [*ot.Label] arguments: [None] is
    the nil label. *)
Definition DecPtr : Type :=
  option Label -> option Label -> Z -> list byte -> result error (list byte).

(** [decrypt] with a first label that can be nil: [makeK] starts with
    [a.Copy()], and tests [b] for nil before it reads it. *)
Definition decrypt_ptr (alg : Block) : DecPtr :=
  fun a b t encrypted =>
    match a with
    | None => Panic NilDereference
    | Some a => decrypt alg a b t encrypted
    end.

(** [Gate.Eval] of [circuit/eval.go] on the wire map as the source
    declares it, [map[Wire]*ot.Label]: the entry [Some None] is a wire
    that is present with a nil label, which passes the tests of [aOK] and
    [bOK]. *)
Definition Gate_Eval_ptr (g : Gate) (wires : gmap Z (option Label))
    (dec : DecPtr) (garbled : list (list byte))
    : result error (list byte) :=
  match Op g with
  | XNOR => Err (ErrInvalidOperation (Op g))
  | op =>
      let ra := wires !! Input0 g in
      let rb := match op with
                | INV => Some None
                | _ => wires !! Input1 g
                end in
      match ra with
      | None => Err ErrNoInputA
      | Some a =>
          match rb with
          | None => Err ErrNoInputB
          | Some b =>
              match op with
              | XOR =>
                  match a, b with
                  | Some la, Some lb => Ok (Bytes (Xor (Copy la) lb))
                  | _, _ => Panic NilDereference
                  end
              | _ =>
                  let i := idx a b in
                  if Z.of_nat (length garbled) <=? i
                  then Err (ErrCorruptedCircuit i
                              (Z.of_nat (length garbled)))
                  else match garbled !! Z.to_nat i with
                       | Some row => dec a b (ID g) row
                       | None => Panic (IndexOutOfRange i
                                          (Z.of_nat (length garbled)))
                       end
              end
          end
      end
  end.

(** The calls of [Gate.Eval] that read a nil label: an XOR gate with a
    nil label on one of its inputs, and a gate with a table whose first
    input is nil and whose table has a row at the index of the inputs. *)
Definition reads_nil (g : Gate) (wires : gmap Z (option Label))
    (garbled : list (list byte)) : Prop :=
  match Op g with
  | XNOR => False
  | XOR =>
      exists a b,
        wires !! Input0 g = Some a /\ wires !! Input1 g = Some b /\
        (a = None \/ b = None)
  | INV =>
      wires !! Input0 g = Some None /\
      idx None None < Z.of_nat (length garbled)
  | _ =>
      exists b,
        wires !! Input0 g = Some None /\ wires !! Input1 g = Some b /\
        idx None b < Z.of_nat (length garbled)
  end.

(** The example gate with a nil label on its first input and four rows
    of 16 bytes. *)
Definition nilWires : gmap Z (option Label) :=
  <[0 := None]> (<[1 := Some 5]> ∅).

Definition rows4 : list (list byte) := replicate 4 (replicate 16 x00).

End circuit_ptr.

(** * Properties *)

(** ** Byte strings and labels *)

Section LabelFacts.

Import ot.

Lemma Z_of_byte_of_Z z : Z_of_byte (byte_of_Z z) = z mod 256.
Proof.
  unfold Z_of_byte, byte_of_Z.
  assert (H : 0 <= z mod 256 < 256) by (apply Z.mod_pos_bound; lia).
  destruct (Byte.of_N (Z.to_N (z mod 256))) as [b|] eqn:E.
  - apply Byte.to_of_N in E. rewrite E. rewrite Z2N.id; lia.
  - apply Byte.of_N_None_iff in E. lia.
Qed.

Lemma length_le_bytes n z : length (le_bytes n z) = n.
Proof. revert z; induction n; intros; simpl; auto. Qed.

Lemma le_value_le_bytes n z : le_value (le_bytes n z) = z mod 256 ^ Z.of_nat n.
Proof.
  revert z; induction n as [|n IH]; intros z.
  - simpl. now rewrite Z.mod_1_r.
  - cbn [le_bytes le_value]. rewrite Z_of_byte_of_Z, IH.
    rewrite Nat2Z.inj_succ, Z.pow_succ_r by lia.
    rewrite Z.rem_mul_r by lia. reflexivity.
Qed.

Lemma length_Bytes l : length (Bytes l) = 16%nat.
Proof. unfold Bytes. now rewrite length_rev, length_le_bytes. Qed.

(** Decoding the 16 bytes of a label gives back its 128 bits. *)
Lemma LabelFromData_Bytes l : LabelFromData (Bytes l) = Z.land l (Z.ones k).
Proof.
  unfold LabelFromData, Bytes.
  rewrite take_ge by (rewrite length_rev, length_le_bytes; lia).
  rewrite rev_involutive, le_value_le_bytes.
  change (256 ^ Z.of_nat 16) with (2 ^ 128).
  rewrite <- Z.land_ones by (unfold k; lia).
  unfold k. rewrite <- Z.land_assoc, Z.land_diag. reflexivity.
Qed.

Lemma land_ones_xor_cancel p q c n :
  Z.land (Z.lxor (Z.lxor (Z.land (Z.lxor (Z.lxor p q) c) (Z.ones n)) p) q)
         (Z.ones n)
  = Z.land c (Z.ones n).
Proof.
  apply Z.bits_inj'. intros i Hi.
  rewrite !Z.land_spec, !Z.lxor_spec, !Z.land_spec, !Z.lxor_spec.
  destruct (Z.testbit p i), (Z.testbit q i), (Z.testbit c i),
    (Z.testbit (Z.ones n) i); reflexivity.
Qed.

Lemma S_SetS_true l : S (SetS true l) = true.
Proof.
  unfold S, SetS. rewrite Z.lor_spec.
  change (Z.testbit 1 0) with true. apply orb_true_r.
Qed.

Lemma S_Xor a b : S (Xor a b) = xorb (S a) (S b).
Proof. unfold S, Xor. apply Z.lxor_spec. Qed.

Lemma Xor_assoc a b c : Xor (Xor a b) c = Xor a (Xor b c).
Proof. apply Z.lxor_assoc. Qed.

End LabelFacts.

(** ** The dual-key cipher of garbled rows *)

Section Cipher.

Import ot circuit.

Lemma decrypt_encrypt alg a b c t :
  decrypt alg a b t (encrypt alg a b c t) = Ok (Bytes c).
Proof.
  unfold decrypt, encrypt.
  set (K := makeK a b t). set (P := LabelFromData (Encrypt alg (Bytes K))).
  f_equal. rewrite LabelFromData_Bytes. unfold Bytes, Xor. do 2 f_equal.
  apply land_ones_xor_cancel.
Qed.

(** C2: for every block cipher [alg], labels [a], [b], [c] and tweak [t],
    [encrypt] derives K = double(a) XOR quad(b) XOR tweak(t) and returns
    AES(K) XOR K XOR c, and [decrypt] with the same two labels and tweak
    gives back exactly the bytes of [c]; the same holds for the single-key
    rows of an INV gate, where [b] is nil and K = double(a) XOR tweak(t). *)
Theorem encrypt_decrypt_roundtrip (alg : Block) (a b c : Label) (t : Z) :
  makeK a (Some b) t = Xor (Xor (Mul2 a) (Mul4 b)) (NewTweak t) /\
  encrypt alg a (Some b) c t =
    Bytes (Xor (Xor (LabelFromData (Encrypt alg (Bytes (makeK a (Some b) t))))
                    (makeK a (Some b) t)) c) /\
  decrypt alg a (Some b) t (encrypt alg a (Some b) c t) = Ok (Bytes c) /\
  makeK a None t = Xor (Mul2 a) (NewTweak t) /\
  decrypt alg a None t (encrypt alg a None c t) = Ok (Bytes c).
Proof.
  repeat split; try reflexivity; apply decrypt_encrypt.
Qed.

End Cipher.

(** ** Reasoning about Go calls *)

Section MonadFacts.

Context {St E : Type}.

Lemma bind_Ok_inv {A B} (m : M St E A) (k : A -> M St E B) s b s' :
  bind m k s = Ok (b, s') ->
  exists a s1, m s = Ok (a, s1) /\ k a s1 = Ok (b, s').
Proof.
  unfold bind. destruct (m s) as [[a s1]| |]; try discriminate. eauto.
Qed.

Lemma bind_Ok {A B} (m : M St E A) (k : A -> M St E B) s a s1 :
  m s = Ok (a, s1) -> bind m k s = k a s1.
Proof. unfold bind. now intros ->. Qed.

Lemma bind_Err {A B} (m : M St E A) (k : A -> M St E B) s e :
  m s = Err e -> bind m k s = Err e.
Proof. unfold bind. now intros ->. Qed.

Lemma bind_Panic {A B} (m : M St E A) (k : A -> M St E B) s p :
  m s = Panic p -> bind m k s = Panic p.
Proof. unfold bind. now intros ->. Qed.

Lemma ret_Ok_inv {A} (a b : A) (s s' : St) :
  @ret St E A a s = Ok (b, s') -> b = a /\ s' = s.
Proof. unfold ret. intros H. inversion H. auto. Qed.

End MonadFacts.

(** Decompose a hypothesis [H : (let* x := m in k) s = Ok _]. *)
Tactic Notation "bind_inv" hyp(H) "as" ident(a) ident(s) ident(E) :=
  apply bind_Ok_inv in H; destruct H as (a & s & E & H).

Ltac ret_inv H :=
  apply ret_Ok_inv in H; destruct H as [? ?]; subst.

(** ** The Free-XOR invariant of garbling *)

Section FreeXor.

Import ot circuit props.

Lemma free_xor_empty r : free_xor r ∅.
Proof. intros i w H. rewrite lookup_empty in H. discriminate. Qed.

Lemma free_xor_insert r ws i w :
  free_xor r ws -> free_xor_wire r w -> free_xor r (<[i := w]> ws).
Proof.
  intros H Hw j w' Hj. destruct (decide (i = j)) as [->|Hne].
  - rewrite lookup_insert_eq in Hj. inversion Hj; subst. exact Hw.
  - rewrite lookup_insert_ne in Hj by done. eauto.
Qed.

Lemma makeLabels_Ok r st w st' :
  makeLabels r st = Ok (w, st') ->
  free_xor_wire r w /\ wires st' = wires st /\
  exists block, rand st = block :: rand st' /\
                Label0 w = LabelFromData block.
Proof.
  unfold makeLabels. intros H.
  destruct (rand st) as [|block rest] eqn:Er; simpl in H; try discriminate.
  inversion H; subst; clear H. simpl. repeat split. eauto.
Qed.

Lemma garbleInputs_free_xor r inputs st ws st' :
  garbleInputs r inputs st = Ok (ws, st') ->
  free_xor r (wires st) ->
  free_xor r (wires st') /\ Forall (free_xor_wire r) ws /\
  length ws = length inputs.
Proof.
  revert st ws st'. induction inputs as [|i rest IH]; intros st ws st' H HI.
  - ret_inv H. auto.
  - cbn [garbleInputs] in H. bind_inv H as ow s0 E0. unfold getWire in E0.
    inversion E0; subst; clear E0.
    bind_inv H as w s1 E1. bind_inv H as ws' s2 E2. ret_inv H.
    assert (Hw : free_xor r (wires s1) /\ free_xor_wire r w).
    { destruct (wires s0 !! i) as [w0|] eqn:Ew.
      - ret_inv E1. split; [exact HI | exact (HI _ _ Ew)].
      - bind_inv E1 as w0 s3 E3. bind_inv E1 as u s4 E4. ret_inv E1.
        apply makeLabels_Ok in E3 as (Hw & Hws & _).
        unfold setWire in E4. inversion E4; subst; clear E4. simpl.
        split; [|exact Hw]. apply free_xor_insert; [|exact Hw].
        rewrite Hws. exact HI. }
    destruct Hw as [HI1 Hw].
    destruct (IH _ _ _ E2 HI1) as (HI2 & Hws & Hlen).
    split; [exact HI2|]. split; [constructor; assumption|].
    simpl. now rewrite Hlen.
Qed.

Lemma garbleInputs_length r inputs st ws st' :
  garbleInputs r inputs st = Ok (ws, st') -> length ws = length inputs.
Proof.
  revert st ws st'. induction inputs as [|i rest IH]; intros st ws st' H.
  - ret_inv H. reflexivity.
  - cbn [garbleInputs] in H. bind_inv H as ow s0 E0.
    bind_inv H as w s1 E1. bind_inv H as ws' s2 E2. ret_inv H.
    simpl. f_equal. eauto.
Qed.

Lemma Gate_Garble_Ok g enc r st rows st' :
  Gate_Garble g enc r st = Ok (rows, st') ->
  exists ins st1 a b w,
    garbleInputs r (Gate_Inputs g) st = Ok (ins, st1) /\
    ins_of (Op g) ins a b /\
    wires st1 !! Output g = None /\
    wires st' = <[Output g := w]> (wires st1) /\
    match Op g with
    | XOR =>
        w = {| Label0 := Xor (Label0 a) (Label0 b);
               Label1 := Xor (Label0 a) (Label1 b) |} /\
        rows = [] /\ rand st' = rand st1
    | XNOR => False
    | op =>
        free_xor_wire r w /\
        rows = map Data (sort_ByIndex
                 (map (fun row => entry enc (fst (fst row)) (snd (fst row))
                                    (snd row) (ID g))
                      (truth_rows op a b w)))
    end.
Proof.
  unfold Gate_Garble. intros H.
  bind_inv H as ins st1 Ein. pose proof (garbleInputs_length _ _ _ _ _ Ein) as Hlen.
  bind_inv H as ow s0 E0. unfold getWire in E0. inversion E0; subst; clear E0.
  destruct (wires s0 !! Output g) as [?|] eqn:Eout; [discriminate|].
  bind_inv H as w s1 Ew. bind_inv H as u s2 Eset.
  unfold setWire in Eset. inversion Eset; subst; clear Eset.
  bind_inv H as table s3 Et. ret_inv H.
  revert Ein Hlen Ew Et. unfold Gate_Inputs.
  destruct (Op g) eqn:Eop; intros Ein Hlen Ew Et; simpl in Hlen.
  - (* XOR *)
    destruct ins as [|a [|b [|]]]; try discriminate.
    ret_inv Ew. ret_inv Et.
    exists [a; b], s0, a, b. eexists.
    repeat split; try reflexivity; assumption.
  - (* XNOR *)
    discriminate.
  - (* AND *)
    destruct ins as [|a [|b [|]]]; try discriminate.
    apply makeLabels_Ok in Ew as (Hw & Hws & _). ret_inv Et.
    exists [a; b], s0, a, b, w. simpl.
    repeat split; try reflexivity; try assumption. now rewrite Hws.
  - (* OR *)
    destruct ins as [|a [|b [|]]]; try discriminate.
    apply makeLabels_Ok in Ew as (Hw & Hws & _). ret_inv Et.
    exists [a; b], s0, a, b, w. simpl.
    repeat split; try reflexivity; try assumption. now rewrite Hws.
  - (* INV *)
    destruct ins as [|a [|]]; try discriminate.
    apply makeLabels_Ok in Ew as (Hw & Hws & _). ret_inv Et.
    exists [a], s0, a, a, w. simpl.
    repeat split; try reflexivity; try assumption. now rewrite Hws.
Qed.

Lemma Gate_Garble_free_xor g enc r st rows st' :
  Gate_Garble g enc r st = Ok (rows, st') ->
  free_xor r (wires st) -> free_xor r (wires st').
Proof.
  intros H HI.
  apply Gate_Garble_Ok in H
    as (ins & st1 & a & b & w & Ein & Hins & Hout & Hws & Hop).
  destruct (garbleInputs_free_xor _ _ _ _ _ Ein HI) as (HI1 & Hall & _).
  rewrite Hws. apply free_xor_insert; [exact HI1|].
  destruct (Op g); try (destruct Hop as [Hw _]; exact Hw); [|contradiction].
  destruct Hop as (-> & _ & _). simpl in Hins. subst ins.
  inversion Hall as [|? ? Ha Hall']; subst.
  inversion Hall' as [|? ? Hb _]; subst.
  unfold free_xor_wire in *. simpl. rewrite Hb.
  symmetry. apply Xor_assoc.
Qed.

Lemma garbleGates_free_xor gates enc r :
  forall idx garbled st out st',
    garbleGates gates idx enc r garbled st = Ok (out, st') ->
    free_xor r (wires st) -> free_xor r (wires st').
Proof.
  induction gates as [|g rest IH]; intros idx garbled st out st' H HI.
  - ret_inv H. exact HI.
  - cbn [garbleGates] in H. bind_inv H as data s1 Eg.
    apply Gate_Garble_free_xor in Eg; [|exact HI].
    destruct (idx <? length garbled)%nat; [|discriminate].
    eapply IH; eauto.
Qed.

Lemma assignUnset_free_xor r ids :
  forall st u st',
    assignUnset r ids st = Ok (u, st') ->
    free_xor r (wires st) ->
    free_xor r (wires st') /\
    (forall i, is_Some (wires st !! i) \/ i ∈ ids -> is_Some (wires st' !! i)).
Proof.
  induction ids as [|i rest IH]; intros st u st' H HI.
  - ret_inv H. split; [exact HI|]. intros i [Hi|Hi]; [exact Hi|].
    inversion Hi.
  - cbn [assignUnset] in H. bind_inv H as ow s0 E0.
    unfold getWire in E0. inversion E0; subst; clear E0.
    bind_inv H as u1 s1 E1.
    assert (H1 : free_xor r (wires s1) /\ is_Some (wires s1 !! i) /\
                 forall j, is_Some (wires s0 !! j) -> is_Some (wires s1 !! j)).
    { destruct (wires s0 !! i) as [w|] eqn:Ew.
      - ret_inv E1. rewrite Ew. eauto.
      - bind_inv E1 as w s2 E2. apply makeLabels_Ok in E2 as (Hw & Hws & _).
        unfold setWire in E1. inversion E1; subst; clear E1. simpl.
        rewrite Hws. split; [now apply free_xor_insert|].
        split; [rewrite lookup_insert_eq; eauto|].
        intros j Hj. destruct (decide (i = j)) as [->|Hne].
        + rewrite lookup_insert_eq; eauto.
        + now rewrite lookup_insert_ne. }
    destruct H1 as (HI1 & Hi1 & Hmono).
    destruct (IH _ _ _ H HI1) as (HI2 & Hcov).
    split; [exact HI2|]. intros j [Hj|Hj].
    + apply Hcov. left. auto.
    + apply elem_of_cons in Hj as [->|Hj]; apply Hcov; auto.
Qed.

(** C1: after [Circuit.Garble] succeeds, the global offset R it chose has
    its permute-and-point bit set, every wire of the resulting wire map
    satisfies L1 = L0 XOR R, and every wire of the circuit (IDs 0 to
    NumWires-1) has labels. *)
Theorem Garble_free_xor_invariant
    (aes : list byte -> list byte -> list byte) (c : Circuit)
    (key : list byte) (rnd : Rand) (g : Garbled) :
  Circuit_Garble aes c key rnd = Ok g ->
  exists r : Label,
    Circuit_Garble_R aes c key rnd = Ok (g, r) /\
    S r = true /\
    (forall i w, Wires g !! i = Some w -> Label1 w = Xor (Label0 w) r) /\
    (forall i, 0 <= i < NumWires c -> is_Some (Wires g !! i)).
Proof.
  unfold Circuit_Garble. intros H.
  destruct (Circuit_Garble_R aes c key rnd) as [[g' r]| |] eqn:ER;
    try discriminate.
  inversion H; subst g'; clear H. exists r. split; [reflexivity|].
  unfold Circuit_Garble_R in ER.
  destruct (NewLabel rnd) as [[r0| |] rnd'] eqn:Er; try discriminate.
  destruct (NumGates c <? 0); [discriminate|].
  destruct (aes_NewCipher aes key) as [alg| |]; try discriminate.
  match type of ER with
  | match ?run ?st0 with _ => _ end = _ =>
      destruct (run st0) as [[garbled st]| |] eqn:Erun; try discriminate
  end.
  inversion ER; subst; clear ER. simpl.
  split; [apply S_SetS_true|].
  bind_inv Erun as garbled' s1 Eg. bind_inv Erun as u s2 Ea. ret_inv Erun.
  apply garbleGates_free_xor in Eg; [|apply free_xor_empty].
  apply assignUnset_free_xor in Ea as [HI Hcov]; [|exact Eg].
  split; [exact HI|].
  intros i Hi. apply Hcov. right. apply elem_of_seqZ. lia.
Qed.

Lemma Garble_free_xor_invariant_witness :
  Circuit_Garble examples.toyCipher examples.circuit0 examples.key0
    examples.rnd0 = Ok examples.garbled0 /\
  exists r : Label,
    Circuit_Garble_R examples.toyCipher examples.circuit0 examples.key0
      examples.rnd0 = Ok (examples.garbled0, r) /\
    S r = true /\
    (forall i w, Wires examples.garbled0 !! i = Some w ->
                 Label1 w = Xor (Label0 w) r) /\
    (forall i, 0 <= i < NumWires examples.circuit0 ->
               is_Some (Wires examples.garbled0 !! i)).
Proof.
  split; [vm_compute; reflexivity|].
  apply (Garble_free_xor_invariant examples.toyCipher examples.circuit0
           examples.key0 examples.rnd0 examples.garbled0).
  vm_compute; reflexivity.
Defined.

End FreeXor.

(** ** Point-and-permute row order *)

Section RowOrder.

Import ot circuit props.

Lemma insertLeft_perm x p : insertLeft x p ≡ₚ x :: p.
Proof.
  induction p as [|y p IH]; simpl; [reflexivity|].
  destruct (Less x y); [|reflexivity].
  rewrite IH. apply Permutation_swap.
Qed.

Lemma insertLeft_sorted x p :
  StronglySorted (fun a b => Index b <= Index a) p ->
  StronglySorted (fun a b => Index b <= Index a) (insertLeft x p).
Proof.
  induction p as [|y p IH]; intros Hs; simpl.
  - repeat constructor.
  - inversion Hs as [|? ? Hp Hy]; subst.
    unfold Less. destruct (Index x <? Index y) eqn:E.
    + apply Z.ltb_lt in E. constructor; [auto|].
      rewrite (insertLeft_perm x p). constructor; [lia | exact Hy].
    + apply Z.ltb_ge in E. constructor; [exact Hs|].
      constructor; [exact E|].
      eapply Forall_impl; [exact Hy|]. simpl. intros; lia.
Qed.

Lemma fold_insertLeft_sorted t :
  forall p, StronglySorted (fun a b => Index b <= Index a) p ->
  StronglySorted (fun a b => Index b <= Index a)
    (fold_left (fun p x => insertLeft x p) t p).
Proof.
  induction t as [|x t IH]; intros p Hp; simpl; [exact Hp|].
  apply IH. now apply insertLeft_sorted.
Qed.

Lemma StronglySorted_rev {X} (R : X -> X -> Prop) l :
  StronglySorted (fun a b => R b a) l -> StronglySorted R (rev l).
Proof.
  induction l as [|x l IH]; intros Hs; simpl; [constructor|].
  inversion Hs as [|? ? Hl Hx]; subst.
  apply StronglySorted_app_2; [|auto|repeat constructor].
  intros a b Ha Hb. apply list_elem_of_singleton in Hb as ->.
  rewrite Forall_forall in Hx. apply Hx.
  apply list_elem_of_In, in_rev, list_elem_of_In. exact Ha.
Qed.

Lemma sort_ByIndex_sorted t :
  StronglySorted (fun a b => Index a <= Index b) (sort_ByIndex t).
Proof.
  unfold sort_ByIndex. apply StronglySorted_rev.
  apply fold_insertLeft_sorted. constructor.
Qed.

(** Sorting the entries built from a list of rows is building the
    entries of the sorted rows. *)
Lemma insertLeft_map {X} (f : X -> TableEntry) x p :
  exists p', insertLeft (f x) (map f p) = map f p' /\ p' ≡ₚ x :: p.
Proof.
  induction p as [|y p (p' & E & HP)]; simpl.
  - exists [x]. split; reflexivity.
  - destruct (Less (f x) (f y)).
    + exists (y :: p'). simpl. rewrite E. split; [reflexivity|].
      rewrite HP. apply Permutation_swap.
    + exists (x :: y :: p). split; reflexivity.
Qed.

Lemma fold_insertLeft_map {X} (f : X -> TableEntry) l :
  forall p, exists p',
    fold_left (fun p x => insertLeft x p) (map f l) (map f p) = map f p' /\
    p' ≡ₚ l ++ p.
Proof.
  induction l as [|x l IH]; intros p; simpl.
  - exists p. split; reflexivity.
  - destruct (insertLeft_map f x p) as (p1 & E1 & HP1). rewrite E1.
    destruct (IH p1) as (p2 & E2 & HP2). exists p2. split; [exact E2|].
    rewrite HP2, HP1. symmetry. apply Permutation_middle.
Qed.

Lemma sort_ByIndex_map {X} (f : X -> TableEntry) l :
  exists l', sort_ByIndex (map f l) = map f l' /\ l' ≡ₚ l.
Proof.
  unfold sort_ByIndex.
  destruct (fold_insertLeft_map f l []) as (p & E & HP).
  simpl in E. rewrite E. exists (rev p). split.
  - now rewrite map_rev.
  - rewrite app_nil_r in HP. rewrite <- HP. symmetry. apply Permutation_rev.
Qed.

Lemma idx_two la lb :
  idx (Some la) (Some lb) = Z.lor (Z.shiftl (Z.b2z (S la)) 1) (Z.b2z (S lb)).
Proof. unfold idx. destruct (S la), (S lb); reflexivity. Qed.

Lemma idx_one la : idx (Some la) None = Z.b2z (S la).
Proof. unfold idx. destruct (S la); reflexivity. Qed.

Lemma idx_range la lb : 0 <= idx (Some la) lb < 4.
Proof.
  destruct lb as [lb|]; unfold idx; destruct (S la); try destruct (S lb);
    (split; [apply Z.leb_le | apply Z.ltb_lt]; reflexivity).
Qed.

(** [garbleInputs] leaves every input wire with the labels it returns. *)
Lemma garbleInputs_mono r inputs :
  forall st ws st' j w,
    garbleInputs r inputs st = Ok (ws, st') ->
    wires st !! j = Some w -> wires st' !! j = Some w.
Proof.
  induction inputs as [|i rest IH]; intros st ws st' j w H Hj.
  - ret_inv H. exact Hj.
  - cbn [garbleInputs] in H. bind_inv H as ow s0 E0.
    unfold getWire in E0. inversion E0; subst; clear E0.
    bind_inv H as w1 s1 E1. bind_inv H as ws' s2 E2. ret_inv H.
    eapply IH; [exact E2|].
    destruct (wires s0 !! i) as [w0|] eqn:Ew.
    + ret_inv E1. exact Hj.
    + bind_inv E1 as w0 s3 E3. bind_inv E1 as u s4 E4. ret_inv E1.
      apply makeLabels_Ok in E3 as (_ & Hws & _).
      unfold setWire in E4. inversion E4; subst; clear E4. simpl.
      rewrite Hws. rewrite lookup_insert_ne; [exact Hj|].
      intros ->. congruence.
Qed.

Lemma garbleInputs_lookup r inputs :
  forall st ws st',
    garbleInputs r inputs st = Ok (ws, st') ->
    Forall2 (fun i w => wires st' !! i = Some w) inputs ws.
Proof.
  induction inputs as [|i rest IH]; intros st ws st' H.
  - ret_inv H. constructor.
  - cbn [garbleInputs] in H. bind_inv H as ow s0 E0.
    unfold getWire in E0. inversion E0; subst; clear E0.
    bind_inv H as w1 s1 E1. bind_inv H as ws' s2 E2. ret_inv H.
    constructor; [|eapply IH; exact E2].
    eapply garbleInputs_mono; [exact E2|].
    destruct (wires s0 !! i) as [w0|] eqn:Ew.
    + ret_inv E1. exact Ew.
    + bind_inv E1 as w0 s3 E3. bind_inv E1 as u s4 E4. ret_inv E1.
      unfold setWire in E4. inversion E4; subst; clear E4. simpl.
      apply lookup_insert_eq.
Qed.

(** The labels a successful [Gate.Garble] leaves on the wires of a gate. *)
Lemma Gate_Garble_wires g enc r st rows st' :
  Gate_Garble g enc r st = Ok (rows, st') ->
  exists ins st1 a b c,
    garbleInputs r (Gate_Inputs g) st = Ok (ins, st1) /\
    ins_of (Op g) ins a b /\
    wires st' !! Input0 g = Some a /\
    (Op g <> INV -> wires st' !! Input1 g = Some b) /\
    wires st' !! Output g = Some c /\
    wires st' = <[Output g := c]> (wires st1).
Proof.
  intros H.
  apply Gate_Garble_Ok in H
    as (ins & st1 & a & b & c & Ein & Hins & Hout & Hws & Hop).
  exists ins, st1, a, b, c. split; [exact Ein|]. split; [exact Hins|].
  pose proof (garbleInputs_lookup _ _ _ _ _ Ein) as HF.
  assert (Hne : forall i w, wires st1 !! i = Some w ->
                            wires st' !! i = Some w).
  { intros i w Hi. rewrite Hws. rewrite lookup_insert_ne; [exact Hi|].
    intros <-. congruence. }
  unfold Gate_Inputs in HF. unfold ins_of in Hins.
  rewrite Hws at 3. rewrite lookup_insert_eq.
  destruct (Op g); try (subst ins);
    try (inversion HF as [|? ? ? ? Ha HF']; subst;
         inversion HF' as [|? ? ? ? Hb _]; subst;
         repeat split; auto; fail).
  destruct Hins as [-> ->]. inversion HF as [|? ? ? ? Ha _]; subst.
  repeat split; auto. congruence.
Qed.

Lemma Gate_Eval_table g (ws : gmap Z Label) dec garbled la lb :
  Op g = AND \/ Op g = OR \/ Op g = INV ->
  ws !! Input0 g = Some la ->
  (Op g <> INV -> ws !! Input1 g = Some lb) ->
  Gate_Eval g ws dec garbled =
    eval_at g dec garbled la
      (match Op g with INV => None | _ => Some lb end).
Proof.
  intros Hop Ha Hb. unfold Gate_Eval, eval_at.
  assert (Hidx : forall ob,
    (if Z.of_nat (length garbled) <=? idx (Some la) ob
     then Err (ErrCorruptedCircuit (idx (Some la) ob)
                 (Z.of_nat (length garbled)))
     else match garbled !! Z.to_nat (idx (Some la) ob) with
          | Some row => dec la ob (ID g) row
          | None => Panic (IndexOutOfRange (idx (Some la) ob)
                             (Z.of_nat (length garbled)))
          end) =
    match garbled !! Z.to_nat (idx (Some la) ob) with
    | Some row => dec la ob (ID g) row
    | None => Err (ErrCorruptedCircuit (idx (Some la) ob)
                     (Z.of_nat (length garbled)))
    end).
  { intros ob. pose proof (idx_range la ob) as Hr.
    destruct (Z.of_nat (length garbled) <=? idx (Some la) ob) eqn:E.
    - apply Z.leb_le in E. rewrite lookup_ge_None_2 by lia. reflexivity.
    - apply Z.leb_gt in E.
      destruct (lookup_lt_is_Some_2 garbled (Z.to_nat (idx (Some la) ob)))
        as [row ->]; [lia | reflexivity]. }
  destruct Hop as [Hop|[Hop|Hop]]; rewrite Hop in *; rewrite Ha;
    try (rewrite Hb by discriminate; rewrite bool_decide_true by eauto);
    lazy beta iota zeta delta [negb]; apply Hidx.
Qed.

(** C3: for an AND, OR or INV gate, the rows [Gate.Garble] returns are
    the ciphertexts of the rows of the gate's truth table in ascending
    order of the index (S(L_a) << 1) | S(L_b) of the two labels that
    encrypt the row (S(L_a) alone for INV); and [Gate.Eval], holding the
    labels [la] and [lb], decrypts the ciphertext found at exactly that
    index. *)
Theorem Garble_rows_in_index_order g enc r st rows st' :
  Op g = AND \/ Op g = OR \/ Op g = INV ->
  Gate_Garble g enc r st = Ok (rows, st') ->
  (exists a b c sorted,
     wires st' !! Input0 g = Some a /\
     (Op g <> INV -> wires st' !! Input1 g = Some b) /\
     wires st' !! Output g = Some c /\
     sorted ≡ₚ truth_rows (Op g) a b c /\
     StronglySorted (fun x y => row_index x <= row_index y) sorted /\
     rows = map (row_data enc (ID g)) sorted /\
     (forall la lb lc, (la, Some lb, lc) ∈ sorted ->
        row_index (la, Some lb, lc) =
          Z.lor (Z.shiftl (Z.b2z (S la)) 1) (Z.b2z (S lb))) /\
     (forall la lc, (la, None, lc) ∈ sorted ->
        row_index (la, None, lc) = Z.b2z (S la))) /\
  (forall (ws : gmap Z Label) dec garbled la lb,
     ws !! Input0 g = Some la ->
     (Op g <> INV -> ws !! Input1 g = Some lb) ->
     Gate_Eval g ws dec garbled =
       eval_at g dec garbled la
         (match Op g with INV => None | _ => Some lb end)).
Proof.
  intros Hop H. split.
  - pose proof (Gate_Garble_wires _ _ _ _ _ _ H)
      as (ins & st1 & a & b & c & Ein & Hins & Ha & Hb & Hc & Hws).
    apply Gate_Garble_Ok in H
      as (ins' & st1' & a' & b' & c' & Ein' & Hins' & Hout & Hws' & Hrows).
    rewrite Ein in Ein'. inversion Ein'; subst ins' st1'; clear Ein'.
    assert (c' = c) as ->.
    { rewrite Hws' in Hc. rewrite lookup_insert_eq in Hc. congruence. }
    assert (a' = a /\ (Op g <> INV -> b' = b)) as [-> Hbb].
    { revert Hins Hins'. unfold ins_of. destruct (Op g).
      all: try (intros -> E; inversion E; subst; auto; fail).
      intros [-> _] [E _]. inversion E. split; congruence. }
    set (f := fun row : Label * option Label * Label =>
                entry enc (fst (fst row)) (snd (fst row)) (snd row) (ID g)).
    assert (Hr : rows = map Data (sort_ByIndex
                   (map f (truth_rows (Op g) a b c)))).
    { destruct Hop as [Hop|[Hop|Hop]]; rewrite Hop in *;
        destruct Hrows as [_ ->]; try rewrite (Hbb ltac:(discriminate));
        reflexivity. }
    destruct (sort_ByIndex_map f (truth_rows (Op g) a b c))
      as (sorted & Es & HP).
    exists a, b, c, sorted.
    split; [exact Ha|]. split; [exact Hb|]. split; [exact Hc|].
    split; [exact HP|]. split; [|split; [|split]].
    + pose proof (sort_ByIndex_sorted (map f (truth_rows (Op g) a b c)))
        as Hs.
      rewrite Es in Hs. clear -Hs.
      induction sorted as [|x l IH]; [constructor|].
      inversion Hs as [|? ? Hl Hx]; subst.
      constructor; [auto|]. clear -Hx.
      induction l as [|y l IH]; [constructor|].
      inversion Hx; subst. constructor; auto.
    + rewrite Hr, Es, map_map. reflexivity.
    + intros la lb lc _. apply idx_two.
    + intros la lc _. apply idx_one.
  - intros ws dec garbled la lb Ha Hb. now apply Gate_Eval_table.
Qed.

Lemma Garble_rows_in_index_order_witness :
  (Op examples.andGate = AND \/ Op examples.andGate = OR \/
   Op examples.andGate = INV) /\
  Gate_Garble examples.andGate examples.enc0 1 examples.gstate0 =
    Ok (fst examples.andGarbled, snd examples.andGarbled) /\
  length (fst examples.andGarbled) = 4%nat.
Proof.
  split; [left; reflexivity|]. split; [vm_compute; reflexivity|].
  destruct (Garble_rows_in_index_order examples.andGate examples.enc0 1
              examples.gstate0 (fst examples.andGarbled)
              (snd examples.andGarbled))
    as [(a & b & c & sorted & _ & _ & _ & HP & _ & Hrows & _) _].
  - left; reflexivity.
  - vm_compute; reflexivity.
  - rewrite Hrows, length_map. apply Permutation_length in HP.
    rewrite HP. reflexivity.
Defined.

End RowOrder.

(** ** XOR and XNOR gates *)

Section FreeGates.

Import ot circuit props.

(** The part of the Free-XOR rule the code implements: an XOR gate gets
    no table, its output labels are L0 = L0_a XOR L0_b and
    L1 = L0_a XOR L1_b, and the evaluator XORs the labels it holds. *)
Lemma XOR_gate_is_free g enc r st rows st' :
  Op g = XOR ->
  Gate_Garble g enc r st = Ok (rows, st') ->
  rows = [] /\
  exists a b,
    wires st' !! Input0 g = Some a /\ wires st' !! Input1 g = Some b /\
    wires st' !! Output g =
      Some {| Label0 := Xor (Label0 a) (Label0 b);
              Label1 := Xor (Label0 a) (Label1 b) |}.
Proof.
  intros Hop H.
  pose proof (Gate_Garble_wires _ _ _ _ _ _ H)
    as (ins & st1 & a & b & c & Ein & Hins & Ha & Hb & Hc & Hws).
  apply Gate_Garble_Ok in H
    as (ins' & st1' & a' & b' & c' & Ein' & Hins' & Hout & Hws' & Hrows).
  rewrite Ein in Ein'. inversion Ein'; subst ins' st1'; clear Ein'.
  rewrite Hop in *. destruct Hrows as (-> & -> & _).
  unfold ins_of in Hins, Hins'. rewrite Hins in Hins'.
  inversion Hins'; subst a' b'.
  split; [reflexivity|]. exists a, b.
  split; [exact Ha|]. split; [apply Hb; discriminate|].
  rewrite Hws'. apply lookup_insert_eq.
Qed.

Lemma XOR_gate_Eval g (ws : gmap Z Label) dec garbled la lb :
  Op g = XOR -> ws !! Input0 g = Some la -> ws !! Input1 g = Some lb ->
  Gate_Eval g ws dec garbled = Ok (Bytes (Xor la lb)).
Proof.
  intros Hop Ha Hb. unfold Gate_Eval. rewrite Hop, Ha, Hb.
  rewrite bool_decide_true by eauto. reflexivity.
Qed.

(** C4 (as the code behaves): a gate whose operation is XNOR is rejected.
    [Gate.Garble] never returns a table or labels for it and [Gate.Eval]
    returns the error "Invalid operation"; so garbling and evaluation
    fail on every circuit that holds an XNOR gate. *)
Theorem XNOR_gate_is_rejected g :
  Op g = XNOR ->
  (forall enc r st res, Gate_Garble g enc r st <> Ok res) /\
  (forall (ws : gmap Z Label) dec garbled,
     Gate_Eval g ws dec garbled = Err (ErrInvalidOperation XNOR)).
Proof.
  intros Hop. split.
  - intros enc r st [rows st'] H.
    apply Gate_Garble_Ok in H
      as (ins & st1 & a & b & w & _ & _ & _ & _ & Hf).
    rewrite Hop in Hf. exact Hf.
  - intros ws dec garbled. unfold Gate_Eval. now rewrite Hop.
Qed.

Lemma XNOR_gate_is_rejected_witness :
  Op examples.oneWireGate = XNOR /\
  (forall enc r st res, Gate_Garble examples.oneWireGate enc r st <> Ok res) /\
  (forall (ws : gmap Z Label) dec garbled,
     Gate_Eval examples.oneWireGate ws dec garbled =
       Err (ErrInvalidOperation XNOR)).
Proof.
  split; [reflexivity|].
  apply (XNOR_gate_is_rejected examples.oneWireGate). reflexivity.
Defined.

(** The circuit of the builder's one-wire: garbling it ends in the error
    "Invalid operand XNOR", and evaluating it in "Invalid operation". *)
Lemma oneWireCircuit_is_rejected :
  Circuit_Garble examples.toyCipher examples.oneWireCircuit examples.key0
    examples.rnd0 = Err (ErrInvalidOperand XNOR) /\
  forall ws garbled,
    Circuit_Eval examples.toyCipher examples.oneWireCircuit examples.key0
      ws ([] :: garbled) = Err (ErrInvalidOperation XNOR).
Proof.
  split; [vm_compute; reflexivity|]. intros ws garbled. reflexivity.
Qed.

End FreeGates.

(** ** Constant folding of division and modulo *)

Section ConstantDivision.

Import ast.

Lemma wrap_int32_id z : is_int32 z -> wrap_int32 z = z.
Proof.
  unfold is_int32, wrap_int32. intros H.
  rewrite Z.mod_small by lia. lia.
Qed.

Lemma wrap_uint64_id z : is_uint64 z -> wrap_uint64 z = z.
Proof. unfold is_uint64, wrap_uint64. intros H. now apply Z.mod_small. Qed.

(** Go's quotient of two int32 values is the quotient truncated towards
    zero unless it overflows, which only -2^31 / -1 does. *)
Lemma quot_int32 l r :
  is_int32 l -> is_int32 r -> r <> 0 -> ~ (l = - 2 ^ 31 /\ r = -1) ->
  is_int32 (Z.quot l r).
Proof.
  unfold is_int32. intros Hl Hr Hr0 Hov.
  assert (Habs : Z.abs (Z.quot l r) <= Z.abs l).
  { rewrite <- Z.quot_abs by lia.
    apply Z.quot_le_upper_bound; [lia|].
    assert (1 <= Z.abs r) by lia. nia. }
  destruct (Z.eq_dec l (- 2 ^ 31)) as [->|Hl'].
  - destruct (Z.eq_dec r 1) as [->|Hr1].
    + rewrite Z.quot_1_r. lia.
    + assert (Hr2 : 2 <= Z.abs r) by lia.
      assert (Z.abs (Z.quot (- 2 ^ 31) r) <= 2 ^ 30).
      { rewrite <- Z.quot_abs by lia.
        apply Z.quot_le_upper_bound; [lia|].
        change (Z.abs (- 2 ^ 31)) with (2 * 2 ^ 30). nia. }
      lia.
  - lia.
Qed.

Lemma quot_uint64 l r :
  is_uint64 l -> is_uint64 r -> r <> 0 ->
  Z.quot l r = l / r /\ Z.rem l r = l mod r /\
  is_uint64 (l / r) /\ is_uint64 (l mod r).
Proof.
  unfold is_uint64. intros Hl Hr Hr0.
  rewrite Z.quot_div_nonneg, Z.rem_mod_nonneg by lia.
  split; [reflexivity|]. split; [reflexivity|].
  pose proof (Z.mod_pos_bound l r ltac:(lia)).
  assert (0 <= l / r) by (apply Z.div_pos; lia).
  assert (l / r <= l) by (apply Z.div_le_upper_bound; nia).
  lia.
Qed.

Lemma rem_int32 l r : is_int32 l -> is_int32 r -> r <> 0 -> is_int32 (Z.rem l r).
Proof.
  unfold is_int32. intros Hl Hr Hr0.
  pose proof (Z.rem_bound_abs l r Hr0) as Hb. lia.
Qed.

(** C8 (amended): when both operands of a division or modulo fold to
    constants of the same integer type, int32 or uint64, [Binary.Eval]
    returns the error "integer divide by zero" exactly when the divisor
    is zero, and otherwise the constant quotient, respectively remainder,
    of Go's arithmetic on that type (truncated towards zero; the one
    overflowing quotient, -2^31 / -1 on int32, wraps).  When the operands
    are an int32 and a uint64 constant, in either order, the result is
    the error "invalid r-value" whatever the divisor is. *)
Theorem Binary_Eval_div_mod {St : Type} (Left Right : EvalMethod St)
    (s s1 s2 : St) (vl vr : Value) :
  Left s = Ok ((vl, true), s1) ->
  Right s1 = Ok ((vr, true), s2) ->
  (forall l r, ConstVal vl = CInt32 l -> ConstVal vr = CInt32 r ->
     is_int32 l -> is_int32 r ->
     Binary_Eval BinaryDiv Left Right s =
       (if r =? 0 then Err ErrDivideByZero
        else Ok ((gen_Constant (CInt32 (wrap_int32 (Z.quot l r))) TagInt32,
                  true), s2)) /\
     Binary_Eval BinaryMod Left Right s =
       (if r =? 0 then Err ErrDivideByZero
        else Ok ((gen_Constant (CInt32 (Z.rem l r)) TagInt32, true), s2)) /\
     (r <> 0 -> ~ (l = - 2 ^ 31 /\ r = -1) ->
      wrap_int32 (Z.quot l r) = Z.quot l r)) /\
  (forall l r, ConstVal vl = CUint64 l -> ConstVal vr = CUint64 r ->
     is_uint64 l -> is_uint64 r ->
     Binary_Eval BinaryDiv Left Right s =
       (if r =? 0 then Err ErrDivideByZero
        else Ok ((gen_Constant (CUint64 (l / r)) TagUint64, true), s2)) /\
     Binary_Eval BinaryMod Left Right s =
       (if r =? 0 then Err ErrDivideByZero
        else Ok ((gen_Constant (CUint64 (l mod r)) TagUint64, true), s2))) /\
  (forall op l r, ConstVal vl = CInt32 l -> ConstVal vr = CUint64 r ->
     Binary_Eval op Left Right s = Err (ErrInvalidRValue (CInt32 l) (CUint64 r))) /\
  (forall op l r, ConstVal vl = CUint64 l -> ConstVal vr = CInt32 r ->
     Binary_Eval op Left Right s = Err (ErrInvalidRValue (CUint64 l) (CInt32 r))).
Proof.
  intros HL HR.
  assert (Hstep : forall op,
    Binary_Eval op Left Right s =
      match ConstVal vl with
      | CInt32 lval =>
          match ConstVal vr with
          | CInt32 rval => binary_int32 St op lval rval s2
          | rv => Err (ErrInvalidRValue (CInt32 lval) rv)
          end
      | CUint64 lval =>
          match ConstVal vr with
          | CUint64 rval => binary_uint64 St op lval rval s2
          | rv => Err (ErrInvalidRValue (CUint64 lval) rv)
          end
      | lval => Err (ErrInvalidLValue lval)
      end).
  { intros op. unfold Binary_Eval.
    rewrite (bind_Ok _ _ _ _ _ HL). cbn [snd fst negb].
    rewrite (bind_Ok _ _ _ _ _ HR). cbn [snd fst negb].
    destruct (ConstVal vl); try reflexivity; destruct (ConstVal vr);
      reflexivity. }
  split; [|split; [|split]].
  - intros l r El Er Hl Hr. rewrite !Hstep, El, Er.
    unfold binary_int32, fail, ret.
    destruct (r =? 0) eqn:E0.
    + repeat split; try reflexivity. apply Z.eqb_eq in E0. intros; lia.
    + apply Z.eqb_neq in E0. split; [reflexivity|]. split.
      * rewrite (wrap_int32_id (Z.rem l r)) by now apply rem_int32.
        reflexivity.
      * intros _ Hov. apply wrap_int32_id. now apply quot_int32.
  - intros l r El Er Hl Hr. rewrite !Hstep, El, Er.
    unfold binary_uint64, fail, ret.
    destruct (r =? 0) eqn:E0; [split; reflexivity|].
    apply Z.eqb_neq in E0.
    destruct (quot_uint64 l r Hl Hr E0) as (-> & -> & Hq & Hm).
    rewrite !wrap_uint64_id by assumption. split; reflexivity.
  - intros op l r El Er. now rewrite Hstep, El, Er.
  - intros op l r El Er. now rewrite Hstep, El, Er.
Qed.

Lemma Binary_Eval_div_mod_witness :
  BasicLit_Eval (CInt32 7) tt = Ok ((gen_Constant (CInt32 7) TagUndefined, true), tt) /\
  BasicLit_Eval (CInt32 2) tt = Ok ((gen_Constant (CInt32 2) TagUndefined, true), tt) /\
  Binary_Eval BinaryDiv (BasicLit_Eval (CInt32 7)) (BasicLit_Eval (CInt32 2)) tt =
    Ok ((gen_Constant (CInt32 3) TagInt32, true), tt) /\
  Binary_Eval BinaryMod (BasicLit_Eval (CInt32 7)) (BasicLit_Eval (CInt32 2)) tt =
    Ok ((gen_Constant (CInt32 1) TagInt32, true), tt).
Proof.
  split; [reflexivity|]. split; [reflexivity|].
  destruct (Binary_Eval_div_mod (BasicLit_Eval (CInt32 7))
              (BasicLit_Eval (CInt32 2)) tt tt tt
              (gen_Constant (CInt32 7) TagUndefined)
              (gen_Constant (CInt32 2) TagUndefined)
              eq_refl eq_refl) as (H32 & _).
  destruct (H32 7 2 eq_refl eq_refl) as (Hd & Hm & _).
  - unfold is_int32; lia.
  - unfold is_int32; lia.
  - split; [exact Hd | exact Hm].
Defined.

(** C8 as stated fails when the two integer constants have different
    types: dividing the int32 constant 1 by the uint64 constant 0 is not
    reported as a division by zero, and dividing the int32 constant 6 by
    the uint64 constant 3 does not succeed. *)
Lemma Binary_Eval_mixed_counterexample :
  Binary_Eval BinaryDiv (BasicLit_Eval (CInt32 1)) (BasicLit_Eval (CUint64 0)) tt
    = Err (ErrInvalidRValue (CInt32 1) (CUint64 0)) /\
  Binary_Eval BinaryDiv (BasicLit_Eval (CInt32 6)) (BasicLit_Eval (CUint64 3)) tt
    = Err (ErrInvalidRValue (CInt32 6) (CUint64 3)) /\
  Binary_Eval BinaryMod (BasicLit_Eval (CUint64 6)) (BasicLit_Eval (CInt32 0)) tt
    = Err (ErrInvalidRValue (CUint64 6) (CInt32 0)).
Proof. repeat split. Qed.

End ConstantDivision.

(** ** The width of array types *)

Section ArrayWidth.

Import types.

Local Open Scope string_scope.

Lemma span_digits_app ds rest :
  all_digits ds = true ->
  match rest with String c _ => is_digit c = false | EmptyString => True end ->
  span is_digit (ds ++ rest) = (ds, rest).
Proof.
  induction ds as [|c ds IH]; simpl; intros Hd Hr.
  - destruct rest as [|c rest]; [reflexivity|]. simpl. now rewrite Hr.
  - apply andb_true_iff in Hd as [Hc Hd]. rewrite Hc.
    rewrite (IH Hd Hr). reflexivity.
Qed.

Lemma all_digits_app_bracket ds T :
  all_digits (ds ++ String "]" T) = false.
Proof.
  induction ds as [|c ds IH]; simpl; [reflexivity|].
  rewrite IH. apply andb_false_r.
Qed.

(** A string of the form "[N]T" is no sized type. *)
Lemma match_reSized_array ds T :
  all_digits ds = true -> nonempty ds = true ->
  match_reSized (String "[" (ds ++ String "]" T)) = None.
Proof.
  intros Hd Hn. unfold match_reSized.
  destruct ds as [|c ds]; [discriminate|].
  simpl in Hd. apply andb_true_iff in Hd as [Hc Hd].
  assert (E : span (fun c => negb (is_digit c))
                (String "[" (String c ds ++ String "]" T)) =
              ("[", String c ds ++ String "]" T)).
  { simpl. now rewrite Hc. }
  rewrite E. cbn [fst snd nonempty andb].
  rewrite all_digits_app_bracket. reflexivity.
Qed.

Lemma match_reArr_array ds T :
  all_digits ds = true -> nonempty ds = true ->
  match_reArr (String "[" (ds ++ String "]" T)) =
    if nonempty T then Some (ds, T) else None.
Proof.
  intros Hd Hn. unfold match_reArr.
  rewrite span_digits_app by (auto; reflexivity).
  cbn [fst snd]. now rewrite Hn.
Qed.

Lemma length_append s1 s2 :
  String.length (s1 ++ s2) = (String.length s1 + String.length s2)%nat.
Proof. induction s1; simpl; auto. Qed.

Lemma span_length p s :
  (String.length (fst (span p s)) + String.length (snd (span p s)) =
   String.length s)%nat.
Proof.
  induction s as [|c s IH]; simpl; [reflexivity|].
  destruct (p c); simpl; lia.
Qed.

Lemma match_reArr_shorter val m1 m2 :
  match_reArr val = Some (m1, m2) ->
  (String.length m2 < String.length val)%nat.
Proof.
  unfold match_reArr. destruct val as [|c s]; [discriminate|].
  destruct (Ascii.eqb_spec c "["); [subst|].
  2:{ destruct c as [[] [] [] [] [] [] [] []]; try discriminate.
      exfalso. apply n. reflexivity. }
  pose proof (span_length is_digit s) as Hl.
  destruct (snd (span is_digit s)) as [|c' t] eqn:Es; [discriminate|].
  destruct (Ascii.eqb_spec c' "]"); [subst|].
  2:{ destruct c' as [[] [] [] [] [] [] [] []]; try discriminate.
      exfalso. apply n. reflexivity. }
  destruct (nonempty (fst (span is_digit s)) && nonempty t)%bool;
    [|discriminate].
  intros H. inversion H; subst. simpl in *. lia.
Qed.

Section WithSize.

Variable SizeT : IntType.

(** [Parse] does not depend on the recursion bound once the bound exceeds
    the length of the string, and never reaches it. *)
Lemma Parse_fuel_enough :
  forall n val, (String.length val < n)%nat ->
    Parse_fuel SizeT n val = Parse SizeT val /\
    forall p, Parse SizeT val <> Panic p.
Proof.
  intros n val. remember (String.length val) as len eqn:Hlen.
  revert n val Hlen.
  induction len as [len IH] using lt_wf_ind. intros n val Hlen Hn.
  assert (Hgen : forall m, (len < m)%nat ->
            Parse_fuel SizeT m val = Parse_fuel SizeT (S len) val /\
            forall p, Parse_fuel SizeT (S len) val <> Panic p).
  { intros m Hm. destruct m as [|m]; [lia|].
    cbn [Parse_fuel].
    destruct (String.eqb val "b" || String.eqb val "bool")%bool;
      [split; [reflexivity | discriminate]|].
    destruct (String.eqb val "byte");
      [split; [reflexivity | discriminate]|].
    destruct (match_reSized val) as [[m1 m2]|].
    { split; [reflexivity|].
      destruct (if (String.eqb m1 "i" || String.eqb m1 "int")%bool
                then Some TInt
                else if (String.eqb m1 "u" || String.eqb m1 "uint")%bool
                then Some TUint
                else if (String.eqb m1 "s" || String.eqb m1 "string")%bool
                then Some TString else None); [|discriminate].
      unfold Atoi. destruct (decimal m2 <? 2 ^ 63)%Z; discriminate. }
    destruct (match_reArr val) as [[m1 m2]|] eqn:Earr;
      [|split; [reflexivity | discriminate]].
    apply match_reArr_shorter in Earr.
    destruct (IH (String.length m2) ltac:(lia) m m2 eq_refl ltac:(lia))
      as [E1 Hnp].
    destruct (IH (String.length m2) ltac:(lia) len m2 eq_refl ltac:(lia))
      as [E2 _].
    rewrite E1, E2. split; [reflexivity|].
    destruct (Parse SizeT m2) as [el| |p'] eqn:Eel; try discriminate.
    - unfold Atoi. destruct (decimal m1 <? 2 ^ 63)%Z; discriminate.
    - exfalso. now apply (Hnp p'). }
  unfold Parse. rewrite <- Hlen.
  destruct (Hgen n Hn) as [E Hp]. split; [exact E | exact Hp].
Qed.

Lemma Parse_unfold_array ds T :
  all_digits ds = true -> nonempty ds = true ->
  Parse SizeT (String "[" (ds ++ String "]" T)) =
    if nonempty T then
      match Parse SizeT T with
      | Err e => Err e
      | Panic p => Panic p
      | Ok elType =>
          match Atoi ds with
          | Err e => Err e
          | Panic p => Panic p
          | Ok ival =>
              let bits := toSize SizeT (toSize SizeT ival * Bits elType) in
              Ok {| Type__ := TArray; Bits := bits; MinBits := bits;
                    ElementType := Some elType;
                    ArraySize := toSize SizeT ival |}
          end
      end
    else Err (ErrUnknownType (String "[" (ds ++ String "]" T))).
Proof.
  intros Hd Hn. unfold Parse at 1. cbn [Parse_fuel].
  change (String.eqb (String "[" (ds ++ String "]" T)) "b") with false.
  change (String.eqb (String "[" (ds ++ String "]" T)) "bool") with false.
  change (String.eqb (String "[" (ds ++ String "]" T)) "byte") with false.
  cbn [orb].
  rewrite match_reSized_array, match_reArr_array by assumption.
  destruct (nonempty T); [|reflexivity].
  destruct (Parse_fuel_enough
              (String.length (String "[" (ds ++ String "]" T))) T) as [-> _].
  - cbn [String.length]. rewrite length_append. simpl. lia.
  - reflexivity.
Qed.

Lemma toSize_representable z :
  0 < width SizeT -> representable SizeT z -> toSize SizeT z = z.
Proof.
  unfold representable, toSize. intros Hw H.
  destruct (signed SizeT).
  - assert (2 ^ width SizeT = 2 * 2 ^ (width SizeT - 1)) as ->.
    { rewrite <- Z.pow_succ_r by lia. f_equal. lia. }
    rewrite Z.mod_small by lia. lia.
  - now apply Z.mod_small.
Qed.

(** C9 (amended): for a type string "[N]T" that [Parse] accepts, the
    returned info is an array whose [ElementType] is the parsed info of T,
    whose [MinBits] equals its [Bits], and whose [ArraySize] and [Bits]
    are N and N times the element's [Bits] reduced to the integer type
    [types.Size]; they are exactly N and N times the element's [Bits]
    whenever these two numbers are representable in [types.Size]. *)
Theorem Parse_array_width (ds T : string) (info : Info) :
  0 < width SizeT ->
  all_digits ds = true -> nonempty ds = true ->
  single_line (String "[" (ds ++ String "]" T)) = true ->
  Parse SizeT (String "[" (ds ++ String "]" T)) = Ok info ->
  exists el,
    Parse SizeT T = Ok el /\
    Type__ info = TArray /\
    ElementType info = Some el /\
    MinBits info = Bits info /\
    ArraySize info = toSize SizeT (decimal ds) /\
    Bits info = toSize SizeT (toSize SizeT (decimal ds) * Bits el) /\
    (representable SizeT (decimal ds) ->
     representable SizeT (decimal ds * Bits el) ->
     ArraySize info = decimal ds /\ Bits info = decimal ds * Bits el).
Proof.
  intros Hw Hd Hn _ H. rewrite Parse_unfold_array in H by assumption.
  destruct (nonempty T); [|discriminate].
  destruct (Parse SizeT T) as [el| |]; try discriminate.
  unfold Atoi in H. destruct (decimal ds <? 2 ^ 63)%Z; [|discriminate].
  inversion H; subst; clear H. exists el. cbn.
  repeat split; try reflexivity.
  - now apply toSize_representable.
  - rewrite (toSize_representable (decimal ds)) by assumption.
    now apply toSize_representable.
Qed.

End WithSize.

Lemma Parse_array_width_witness :
  0 < width (mkIntType 32 true) /\
  all_digits "4" = true /\ nonempty "4" = true /\
  single_line "[4]uint8" = true /\
  Parse (mkIntType 32 true) "[4]uint8" =
    Ok {| Type__ := TArray; Bits := 32; MinBits := 32;
          ElementType := Some {| Type__ := TUint; Bits := 8; MinBits := 8;
                                 ElementType := None; ArraySize := 0 |};
          ArraySize := 4 |} /\
  exists el,
    Parse (mkIntType 32 true) "uint8" = Ok el /\ Bits el = 8%Z.
Proof.
  split; [reflexivity|]. split; [reflexivity|]. split; [reflexivity|].
  split; [reflexivity|]. split; [reflexivity|].
  destruct (Parse_array_width (mkIntType 32 true) "4" "uint8" _
              eq_refl eq_refl eq_refl eq_refl eq_refl)
    as (el & Hel & _ & HE & _).
  exists el. split; [exact Hel|].
  cbn in HE. inversion HE. reflexivity.
Defined.

(** C9 as stated fails on array types too large for [types.Size],
    whichever of Go's integer types it is: the string
    "[4294967296]uint4294967296" is accepted, yet the returned
    [ArraySize] is not 4294967296 or the returned [Bits] is not
    4294967296 times the element's [Bits]. *)
Lemma Parse_array_overflow_counterexample :
  Forall (fun t =>
    exists info el,
      Parse t "[4294967296]uint4294967296" = Ok info /\
      Parse t "uint4294967296" = Ok el /\
      ~ (ArraySize info = 4294967296%Z /\
         Bits info = (4294967296 * Bits el)%Z))
    goIntTypes.
Proof.
  unfold goIntTypes.
  repeat (apply Forall_cons; split;
          [eexists; eexists; split; [vm_compute; reflexivity|];
           split; [vm_compute; reflexivity|];
           cbn; intros [H1 H2]; discriminate|]).
  apply Forall_nil. trivial.
Qed.

(** With a 32-bit signed [types.Size] an array of 65536 integers of
    65536 bits parses to a width of 0 bits. *)
Lemma Parse_array_overflow_32 :
  exists info,
    Parse (mkIntType 32 true) "[65536]uint65536" = Ok info /\
    ArraySize info = 65536%Z /\ Bits info = 0%Z.
Proof. eexists. split; [vm_compute; reflexivity|]. split; reflexivity. Qed.

End ArrayWidth.

(** ** The circuit builder *)

Section Builder.

Import circuit(Operation, XOR, XNOR, AND, OR, INV).
Import circuits bprops.

Lemma drv_length st : length (drv st) = length (heap st).
Proof. unfold drv. apply length_map. Qed.

Lemma undriven_valid st w : undriven st w -> valid st w.
Proof.
  unfold undriven, valid. intros H. apply lookup_lt_Some in H.
  now rewrite drv_length in H.
Qed.

Lemma NewWire_Ok st :
  exists st', NewWire st = Ok (length (heap st), st') /\
    comp st' = comp st /\ drv st' = drv st ++ [false].
Proof.
  eexists. split; [reflexivity|]. split; [reflexivity|].
  unfold drv. cbn [heap]. rewrite map_app. reflexivity.
Qed.

Lemma Wire_AddOutput_Ok a g st :
  valid st a ->
  exists st', Wire_AddOutput a g st = Ok (tt, st') /\
    comp st' = comp st /\ drv st' = drv st.
Proof.
  intros Ha. unfold Wire_AddOutput, derefWire, storeWire, bind.
  destruct (lookup_lt_is_Some_2 (heap st) a Ha) as [o Ho]. rewrite Ho.
  eexists. split; [reflexivity|]. split; [reflexivity|].
  unfold drv. cbn [heap]. rewrite list_fmap_insert. cbn [Input].
  apply list_insert_id. change (drv st !! a = Some (bool_decide (is_Some (Input o)))).
  unfold drv. now rewrite list_lookup_fmap, Ho.
Qed.

Lemma Wire_SetInput_Ok o g st :
  undriven st o ->
  exists st', Wire_SetInput o g st = Ok (tt, st') /\
    comp st' = comp st /\ drv st' = <[o := true]> (drv st).
Proof.
  intros Ho. unfold undriven, drv in Ho.
  rewrite list_lookup_fmap in Ho.
  destruct (heap st !! o) as [w|] eqn:Ew; [|discriminate].
  simpl in Ho. inversion Ho as [Hi]. clear Ho.
  unfold Wire_SetInput, derefWire, storeWire, bind. rewrite Ew.
  destruct (Input w) as [?|] eqn:Ei.
  { rewrite bool_decide_true in Hi by eauto. discriminate. }
  eexists. split; [reflexivity|]. split; [reflexivity|].
  unfold drv. cbn [heap]. rewrite list_fmap_insert. reflexivity.
Qed.

Lemma undriven_keep st st' w :
  drv st' = drv st -> undriven st w -> undriven st' w.
Proof. unfold undriven. now intros ->. Qed.

Lemma valid_keep st st' w :
  drv st' = drv st -> valid st w -> valid st' w.
Proof.
  unfold valid. intros H. rewrite <- !drv_length. now rewrite H.
Qed.

Lemma NewBinary_Ok op a b o st :
  valid st a -> valid st b -> undriven st o ->
  exists st', NewBinary op a b o st =
                Ok ({| Op := op; A := a; B := Some b; O := o |}, st') /\
    comp st' = comp st /\ drv st' = <[o := true]> (drv st).
Proof.
  intros Ha Hb Ho. unfold NewBinary.
  destruct (Wire_AddOutput_Ok a {| Op := op; A := a; B := Some b; O := o |}
              st Ha) as (s1 & E1 & C1 & D1).
  rewrite (bind_Ok _ _ _ _ _ E1).
  destruct (Wire_AddOutput_Ok b {| Op := op; A := a; B := Some b; O := o |}
              s1 (valid_keep _ _ _ D1 Hb)) as (s2 & E2 & C2 & D2).
  rewrite (bind_Ok _ _ _ _ _ E2).
  assert (Ho2 : undriven s2 o).
  { eapply undriven_keep; [exact D2|]. eapply undriven_keep; eauto. }
  destruct (Wire_SetInput_Ok o {| Op := op; A := a; B := Some b; O := o |}
              s2 Ho2) as (s3 & E3 & C3 & D3).
  rewrite (bind_Ok _ _ _ _ _ E3).
  exists s3. split; [reflexivity|]. split; [congruence|].
  rewrite D3, D2, D1. reflexivity.
Qed.

Lemma NewINV_Ok i o st :
  valid st i -> undriven st o ->
  exists st', NewINV i o st =
                Ok ({| Op := INV; A := i; B := None; O := o |}, st') /\
    comp st' = comp st /\ drv st' = <[o := true]> (drv st).
Proof.
  intros Hi Ho. unfold NewINV.
  destruct (Wire_AddOutput_Ok i {| Op := INV; A := i; B := None; O := o |}
              st Hi) as (s1 & E1 & C1 & D1).
  rewrite (bind_Ok _ _ _ _ _ E1).
  destruct (Wire_SetInput_Ok o {| Op := INV; A := i; B := None; O := o |}
              s1 (undriven_keep _ _ _ D1 Ho)) as (s2 & E2 & C2 & D2).
  rewrite (bind_Ok _ _ _ _ _ E2).
  exists s2. split; [reflexivity|]. split; [congruence|].
  rewrite D2, D1. reflexivity.
Qed.

Lemma AddGate_Ok g st :
  exists st', AddGate g st = Ok (tt, st') /\
    comp st' = withGates (comp st) (Gates (comp st) ++ [g]) /\
    drv st' = drv st.
Proof. eexists. split; [reflexivity|]. split; reflexivity. Qed.

Lemma valid_drv st w : valid st w <-> (w < length (drv st))%nat.
Proof. unfold valid. now rewrite drv_length. Qed.

Lemma withGates_withGates c gs gs' :
  withGates (withGates c gs) gs' = withGates c gs'.
Proof. reflexivity. Qed.

Lemma Gates_withGates c gs : Gates (withGates c gs) = gs.
Proof. reflexivity. Qed.

(** One step of a builder function: run the call described by [L] and
    continue with the rest. *)
Tactic Notation "step" constr(L) "as" ident(s) ident(E) ident(C) ident(D) :=
  destruct L as (s & E & C & D); rewrite (bind_Ok _ _ _ _ _ E).

Ltac solve_valid :=
  match goal with
  | |- valid ?s ?w =>
      apply valid_drv;
      repeat match goal with
             | H : drv _ = _ |- _ => rewrite H
             end;
      repeat (rewrite ?length_insert, ?length_app; cbn [length]);
      rewrite <- ?drv_length;
      repeat match goal with
             | H : valid _ _ |- _ => apply valid_drv in H
             | H : undriven _ _ |- _ =>
                 apply undriven_valid, valid_drv in H
             end;
      lia
  end.

Lemma lookup_fresh_false (d : list bool) (l1 l2 : list bool) (n : nat) :
  n = (length d + length l1)%nat ->
  (d ++ l1 ++ false :: l2) !! n = Some false.
Proof.
  intros ->. rewrite lookup_app_r by lia.
  rewrite lookup_app_r by lia.
  replace (length d + length l1 - length d - length l1)%nat with 0%nat by lia.
  reflexivity.
Qed.

Lemma NewHalfLtComparator_Ok a b bout st :
  valid st a -> valid st b -> undriven st bout ->
  exists st',
    NewHalfLtComparator a b bout st = Ok (tt, st') /\
    comp st' = withGates (comp st)
      (Gates (comp st) ++
       [ {| Op := INV; A := a; B := None; O := length (heap st) |};
         {| Op := AND; A := length (heap st); B := Some b; O := bout |} ]) /\
    drv st' = <[bout := true]> (drv st ++ [true]).
Proof.
  intros Ha Hb Ho. unfold NewHalfLtComparator.
  pose proof (undriven_valid _ _ Ho) as Hov.
  step (NewWire_Ok st) as s1 E1 C1 D1.
  assert (Hlen : length (heap st) = length (drv st)) by now rewrite drv_length.
  assert (V1 : valid s1 a) by solve_valid.
  assert (U1 : undriven s1 (length (heap st))).
  { unfold undriven. rewrite D1, Hlen.
    rewrite lookup_app_r by lia. now rewrite Nat.sub_diag. }
  step (NewINV_Ok a (length (heap st)) s1 V1 U1) as s2 E2 C2 D2.
  step (AddGate_Ok {| Op := INV; A := a; B := None; O := length (heap st) |} s2)
    as s3 E3 C3 D3.
  assert (V3 : valid s3 (length (heap st))) by solve_valid.
  assert (V3b : valid s3 b) by solve_valid.
  assert (U3 : undriven s3 bout).
  { unfold undriven in *. rewrite D3, D2, D1.
    apply valid_drv in Hov.
    rewrite list_lookup_insert_ne by lia.
    now rewrite lookup_app_l by lia. }
  step (NewBinary_Ok AND (length (heap st)) b bout s3 V3 V3b U3)
    as s4 E4 C4 D4.
  destruct (AddGate_Ok {| Op := AND; A := length (heap st); B := Some b;
                          O := bout |} s4) as (s5 & E5 & C5 & D5).
  exists s5. split; [exact E5|]. split.
  - rewrite C5, C4, C3, C2, C1. unfold withGates. cbn.
    now rewrite <- app_assoc.
  - rewrite D5, D4, D3, D2, D1, Hlen.
    f_equal. rewrite insert_app_r_alt by lia. now rewrite Nat.sub_diag.
Qed.

Lemma NewWire_at st n :
  length (drv st) = n ->
  exists st', NewWire st = Ok (n, st') /\
    comp st' = comp st /\ drv st' = drv st ++ [false].
Proof.
  intros <-. destruct (NewWire_Ok st) as (st' & E & C & D).
  exists st'. rewrite drv_length. auto.
Qed.

Lemma emitBinary_bind {T} op a b o st (k : unit -> Build T) :
  valid st a -> valid st b -> undriven st o ->
  exists st',
    (let* g := NewBinary op a b o in let* _ := AddGate g in k tt) st =
      k tt st' /\
    comp st' = withGates (comp st)
                 (Gates (comp st) ++ [{| Op := op; A := a; B := Some b; O := o |}]) /\
    drv st' = <[o := true]> (drv st).
Proof.
  intros Ha Hb Ho.
  destruct (NewBinary_Ok op a b o st Ha Hb Ho) as (s1 & E1 & C1 & D1).
  rewrite (bind_Ok _ _ _ _ _ E1).
  destruct (AddGate_Ok {| Op := op; A := a; B := Some b; O := o |} s1)
    as (s2 & E2 & C2 & D2).
  rewrite (bind_Ok _ _ _ _ _ E2).
  exists s2. split; [reflexivity|]. split; [now rewrite C2, C1|].
  now rewrite D2, D1.
Qed.

Lemma emitINV_bind {T} i o st (k : unit -> Build T) :
  valid st i -> undriven st o ->
  exists st',
    (let* g := NewINV i o in let* _ := AddGate g in k tt) st = k tt st' /\
    comp st' = withGates (comp st)
                 (Gates (comp st) ++ [{| Op := INV; A := i; B := None; O := o |}]) /\
    drv st' = <[o := true]> (drv st).
Proof.
  intros Hi Ho.
  destruct (NewINV_Ok i o st Hi Ho) as (s1 & E1 & C1 & D1).
  rewrite (bind_Ok _ _ _ _ _ E1).
  destruct (AddGate_Ok {| Op := INV; A := i; B := None; O := o |} s1)
    as (s2 & E2 & C2 & D2).
  rewrite (bind_Ok _ _ _ _ _ E2).
  exists s2. split; [reflexivity|]. split; [now rewrite C2, C1|].
  now rewrite D2, D1.
Qed.

Lemma emitBinary_Ok op a b o st :
  valid st a -> valid st b -> undriven st o ->
  exists st',
    (let* g := NewBinary op a b o in AddGate g) st = Ok (tt, st') /\
    comp st' = withGates (comp st)
                 (Gates (comp st) ++ [{| Op := op; A := a; B := Some b; O := o |}]) /\
    drv st' = <[o := true]> (drv st).
Proof.
  intros Ha Hb Ho.
  destruct (NewBinary_Ok op a b o st Ha Hb Ho) as (s1 & E1 & C1 & D1).
  rewrite (bind_Ok _ _ _ _ _ E1).
  destruct (AddGate_Ok {| Op := op; A := a; B := Some b; O := o |} s1)
    as (s2 & E2 & C2 & D2).
  exists s2. split; [exact E2|]. split; [now rewrite C2, C1|].
  now rewrite D2, D1.
Qed.

Lemma emitINV_Ok i o st :
  valid st i -> undriven st o ->
  exists st',
    (let* g := NewINV i o in AddGate g) st = Ok (tt, st') /\
    comp st' = withGates (comp st)
                 (Gates (comp st) ++ [{| Op := INV; A := i; B := None; O := o |}]) /\
    drv st' = <[o := true]> (drv st).
Proof.
  intros Hi Ho.
  destruct (NewINV_Ok i o st Hi Ho) as (s1 & E1 & C1 & D1).
  rewrite (bind_Ok _ _ _ _ _ E1).
  destruct (AddGate_Ok {| Op := INV; A := i; B := None; O := o |} s1)
    as (s2 & E2 & C2 & D2).
  exists s2. split; [exact E2|]. split; [now rewrite C2, C1|].
  now rewrite D2, D1.
Qed.

(** Facts about a list of driven flags [d ++ l] with some entries set. *)
Lemma lookup_old_insert (d l : list bool) (o w : nat) v :
  (w < length d)%nat -> (length d <= o)%nat ->
  <[o := v]> (d ++ l) !! w = (d ++ l) !! w.
Proof. intros. apply list_lookup_insert_ne. lia. Qed.

Lemma drv_fresh (d l : list bool) n k :
  n = (length d + k)%nat -> l !! k = Some false ->
  (d ++ l) !! n = Some false.
Proof.
  intros -> H. rewrite lookup_app_r by lia.
  now replace (length d + k - length d)%nat with k by lia.
Qed.

Lemma drv_old (d l : list bool) w :
  d !! w = Some false -> (d ++ l) !! w = Some false.
Proof. intros H. apply lookup_app_l_Some. exact H. Qed.

Ltac rewrite_drv :=
  repeat match goal with
         | H : drv _ = _ |- _ => rewrite H
         end.

Ltac solve_undriven_fresh k :=
  unfold undriven in *; rewrite_drv;
  repeat (rewrite list_lookup_insert_ne by lia);
  repeat rewrite <- app_assoc;
  apply (drv_fresh _ _ _ k); [lia | reflexivity].

Ltac solve_undriven_old :=
  unfold undriven in *; rewrite_drv;
  repeat (rewrite list_lookup_insert_ne
            by (repeat match goal with
                       | H : _ !! _ = Some _ |- _ => apply lookup_lt_Some in H
                       end; lia));
  repeat rewrite <- app_assoc;
  apply drv_old; assumption.

Lemma NewFullLtComparator_Ok a b bin bout st :
  valid st a -> valid st b -> valid st bin -> undriven st bout ->
  let n := length (heap st) in
  exists st',
    NewFullLtComparator a b bin bout st = Ok (tt, st') /\
    comp st' = withGates (comp st)
      (Gates (comp st) ++
       [ {| Op := XOR; A := a; B := Some b; O := n |};
         {| Op := INV; A := a; B := None; O := n + 1 |};
         {| Op := AND; A := b; B := Some (n + 1)%nat; O := n + 2 |};
         {| Op := INV; A := n; B := None; O := n + 3 |};
         {| Op := AND; A := bin; B := Some (n + 3)%nat; O := n + 4 |};
         {| Op := OR; A := (n + 2)%nat; B := Some (n + 4)%nat; O := bout |} ]) /\
    drv st' = <[bout := true]> (drv st ++ [true; true; true; true; true]).
Proof.
  intros Ha Hb Hbin Ho n. unfold NewFullLtComparator.
  pose proof (undriven_valid _ _ Ho) as Hov.
  assert (Hn : length (drv st) = n) by apply drv_length.
  step (NewWire_at st n Hn) as s1 E1 C1 D1.
  assert (H1 : length (drv s1) = (n + 1)%nat).
  { rewrite D1, length_app. simpl. lia. }
  step (NewWire_at s1 _ H1) as s2 E2 C2 D2.
  assert (H2 : length (drv s2) = (n + 2)%nat).
  { rewrite D2, length_app. simpl. lia. }
  step (NewWire_at s2 _ H2) as s3 E3 C3 D3.
  assert (H3 : length (drv s3) = (n + 3)%nat).
  { rewrite D3, length_app. simpl. lia. }
  step (NewWire_at s3 _ H3) as s4 E4 C4 D4.
  assert (H4 : length (drv s4) = (n + 4)%nat).
  { rewrite D4, length_app. simpl. lia. }
  step (NewWire_at s4 _ H4) as s5 E5 C5 D5.
  assert (V5a : valid s5 a) by solve_valid.
  assert (V5b : valid s5 b) by solve_valid.
  assert (U5 : undriven s5 n) by solve_undriven_fresh 0%nat.
  destruct (emitBinary_bind XOR a b n s5
              (fun _ => let* g := NewINV a (n + 1) in
                        let* _ := AddGate g in
                        let* g := NewBinary AND b (n + 1) (n + 2) in
                        let* _ := AddGate g in
                        let* g := NewINV n (n + 3) in
                        let* _ := AddGate g in
                        let* g := NewBinary AND bin (n + 3) (n + 4) in
                        let* _ := AddGate g in
                        let* g := NewBinary OR (n + 2) (n + 4) bout in
                        AddGate g) V5a V5b U5) as (s6 & E6 & C6 & D6).
  rewrite E6. clear E6.
  assert (V6a : valid s6 a) by solve_valid.
  assert (U6 : undriven s6 (n + 1)) by solve_undriven_fresh 1%nat.
  destruct (emitINV_bind a (n + 1) s6
              (fun _ => let* g := NewBinary AND b (n + 1) (n + 2) in
                        let* _ := AddGate g in
                        let* g := NewINV n (n + 3) in
                        let* _ := AddGate g in
                        let* g := NewBinary AND bin (n + 3) (n + 4) in
                        let* _ := AddGate g in
                        let* g := NewBinary OR (n + 2) (n + 4) bout in
                        AddGate g) V6a U6) as (s7 & E7 & C7 & D7).
  rewrite E7. clear E7.
  assert (V7b : valid s7 b) by solve_valid.
  assert (V7w : valid s7 (n + 1)) by solve_valid.
  assert (U7 : undriven s7 (n + 2)) by solve_undriven_fresh 2%nat.
  destruct (emitBinary_bind AND b (n + 1) (n + 2) s7
              (fun _ => let* g := NewINV n (n + 3) in
                        let* _ := AddGate g in
                        let* g := NewBinary AND bin (n + 3) (n + 4) in
                        let* _ := AddGate g in
                        let* g := NewBinary OR (n + 2) (n + 4) bout in
                        AddGate g) V7b V7w U7) as (s8 & E8 & C8 & D8).
  rewrite E8. clear E8.
  assert (V8 : valid s8 n) by solve_valid.
  assert (U8 : undriven s8 (n + 3)) by solve_undriven_fresh 3%nat.
  destruct (emitINV_bind n (n + 3) s8
              (fun _ => let* g := NewBinary AND bin (n + 3) (n + 4) in
                        let* _ := AddGate g in
                        let* g := NewBinary OR (n + 2) (n + 4) bout in
                        AddGate g) V8 U8) as (s9 & E9 & C9 & D9).
  rewrite E9. clear E9.
  assert (V9a : valid s9 bin) by solve_valid.
  assert (V9b : valid s9 (n + 3)) by solve_valid.
  assert (U9 : undriven s9 (n + 4)) by solve_undriven_fresh 4%nat.
  destruct (emitBinary_bind AND bin (n + 3) (n + 4) s9
              (fun _ => let* g := NewBinary OR (n + 2) (n + 4) bout in
                        AddGate g) V9a V9b U9) as (s10 & E10 & C10 & D10).
  rewrite E10. clear E10.
  assert (V10a : valid s10 (n + 2)) by solve_valid.
  assert (V10b : valid s10 (n + 4)) by solve_valid.
  assert (U10 : undriven s10 bout) by solve_undriven_old.
  destruct (emitBinary_Ok OR (n + 2) (n + 4) bout s10 V10a V10b U10)
    as (s11 & E11 & C11 & D11).
  exists s11. split; [exact E11|]. split.
  - rewrite C11, C10, C9, C8, C7, C6, C5, C4, C3, C2, C1.
    unfold withGates. cbn. repeat rewrite <- app_assoc. reflexivity.
  - rewrite D11, D10, D9, D8, D7, D6, D5, D4, D3, D2, D1.
    repeat rewrite <- app_assoc. cbn [app].
    f_equal. rewrite <- Hn.
    repeat (rewrite insert_app_r_alt by lia).
    f_equal.
    replace (length (drv st) + 4 - length (drv st))%nat with 4%nat by lia.
    replace (length (drv st) + 3 - length (drv st))%nat with 3%nat by lia.
    replace (length (drv st) + 2 - length (drv st))%nat with 2%nat by lia.
    replace (length (drv st) + 1 - length (drv st))%nat with 1%nat by lia.
    rewrite Nat.sub_diag. reflexivity.
Qed.

(** *** What the emitted gates compute *)

Lemma evalGates_app gs1 gs2 env :
  evalGates (gs1 ++ gs2) env = evalGates gs2 (evalGates gs1 env).
Proof. unfold evalGates. apply fold_left_app. Qed.

Ltac eval_gates :=
  unfold evalGates; cbn [fold_left]; unfold evalGate;
  cbn [Op A B O evalOp];
  repeat match goal with
         | |- context [Nat.eqb ?x ?y] =>
             destruct (Nat.eqb_spec x y); try lia
         end;
  try reflexivity.

Lemma emits_of_drv st st' gs out l :
  comp st' = withGates (comp st) (Gates (comp st) ++ gs) ->
  drv st' = <[out := true]> (drv st ++ l) ->
  (forall env u, valid st u -> u <> out -> evalGates gs env u = env u) ->
  emits st st' gs out /\ zeroWire (comp st') = zeroWire (comp st).
Proof.
  intros C D Hf. split; [|now rewrite C].
  split; [now rewrite C|]. split; [now rewrite C|].
  split; [|split; [|exact Hf]].
  - intros u Hu. apply valid_drv. apply valid_drv in Hu.
    rewrite D, length_insert, length_app. lia.
  - intros u Hu Hne. unfold undriven in *. rewrite D.
    rewrite list_lookup_insert_ne by auto. now apply drv_old.
Qed.

Lemma Half_emits a b bout st :
  valid st a -> valid st b -> undriven st bout ->
  exists st' gs,
    NewHalfLtComparator a b bout st = Ok (tt, st') /\
    emits st st' gs bout /\
    zeroWire (comp st') = zeroWire (comp st) /\
    valid st' bout /\
    forall env, evalGates gs env bout = negb (env a) && env b.
Proof.
  intros Ha Hb Ho.
  destruct (NewHalfLtComparator_Ok a b bout st Ha Hb Ho) as (st' & E & C & D).
  pose proof (undriven_valid _ _ Ho) as Hov.
  unfold valid in Ha, Hb, Hov.
  eexists st', _. split; [exact E|].
  destruct (emits_of_drv _ _ _ _ _ C D) as [He Hz].
  { intros env u Hu Hne. unfold valid in Hu. eval_gates. }
  split; [exact He|]. split; [exact Hz|]. split.
  - destruct He as (_ & _ & Hv & _). apply Hv. exact Hov.
  - intros env. eval_gates.
Qed.

Lemma Full_emits a b bin bout st :
  valid st a -> valid st b -> valid st bin -> undriven st bout ->
  exists st' gs,
    NewFullLtComparator a b bin bout st = Ok (tt, st') /\
    emits st st' gs bout /\
    zeroWire (comp st') = zeroWire (comp st) /\
    valid st' bout /\
    forall env, evalGates gs env bout =
      (env b && negb (env a)) || (env bin && negb (xorb (env a) (env b))).
Proof.
  intros Ha Hb Hbin Ho.
  destruct (NewFullLtComparator_Ok a b bin bout st Ha Hb Hbin Ho)
    as (st' & E & C & D).
  pose proof (undriven_valid _ _ Ho) as Hov.
  unfold valid in Ha, Hb, Hbin, Hov.
  eexists st', _. split; [exact E|].
  destruct (emits_of_drv _ _ _ _ _ C D) as [He Hz].
  { intros env u Hu Hne. unfold valid in Hu. eval_gates. }
  split; [exact He|]. split; [exact Hz|]. split.
  - destruct He as (_ & _ & Hv & _). apply Hv. exact Hov.
  - intros env. eval_gates.
Qed.

Lemma emits_trans st s1 s2 gs1 gs2 o1 o2 :
  emits st s1 gs1 o1 -> emits s1 s2 gs2 o2 -> ~ valid st o1 ->
  emits st s2 (gs1 ++ gs2) o2.
Proof.
  intros (G1 & I1 & V1 & U1 & F1) (G2 & I2 & V2 & U2 & F2) Hn.
  split; [now rewrite G2, G1, app_assoc|].
  split; [now rewrite I2, I1|].
  split; [auto|]. split.
  - intros u Hu Hne. apply U2; [|exact Hne]. apply U1; [exact Hu|].
    intros ->. apply Hn. now apply undriven_valid.
  - intros env u Hu Hne. rewrite evalGates_app.
    rewrite F2 by auto. apply F1; [exact Hu|]. now intros ->.
Qed.

Lemma NewWire_fresh st :
  exists st',
    NewWire st = Ok (length (heap st), st') /\
    comp st' = comp st /\
    (forall u, valid st u -> valid st' u) /\
    (forall u, undriven st u -> undriven st' u) /\
    undriven st' (length (heap st)) /\
    ~ valid st (length (heap st)).
Proof.
  destruct (NewWire_Ok st) as (st' & E & C & D).
  exists st'. split; [exact E|]. split; [exact C|].
  split; [|split; [|split]].
  - intros u Hu. apply valid_drv. apply valid_drv in Hu.
    rewrite D, length_app. lia.
  - intros u Hu. unfold undriven in *. rewrite D. now apply drv_old.
  - unfold undriven. rewrite D, <- drv_length.
    rewrite lookup_app_r by lia. now rewrite Nat.sub_diag.
  - unfold valid. lia.
Qed.

Lemma map_env_frame (env env' : WireRef -> bool) (P : WireRef -> Prop) l :
  Forall P l -> (forall u, P u -> env' u = env u) -> map env' l = map env l.
Proof.
  intros Hl H. induction Hl as [|u l Hu _ IH]; simpl; [reflexivity|].
  now rewrite IH, H.
Qed.

Section LtLoop.

Variables (x y : list WireRef) (r0 : WireRef).
Hypothesis Hlen : length y = length x.

Lemma ltLoop_emits :
  forall n i bin st,
    (1 <= n)%nat -> (i + n = length x)%nat ->
    Forall (valid st) x -> Forall (valid st) y ->
    valid st bin -> undriven st r0 ->
    exists st' gs,
      ltLoop x y r0 bin i n st = Ok (tt, st') /\
      emits st st' gs r0 /\
      zeroWire (comp st') = zeroWire (comp st) /\
      forall env,
        evalGates gs env r0 =
          ltchain (map env (drop i x)) (map env (drop i y)) (env bin).
Proof.
  induction n as [|n IH]; intros i bin st Hn Hi Hx Hy Hbin Hr; [lia|].
  cbn [ltLoop].
  destruct (lookup_lt_is_Some_2 x i ltac:(lia)) as [xi Exi].
  destruct (lookup_lt_is_Some_2 y i ltac:(lia)) as [yi Eyi].
  assert (Vxi : valid st xi).
  { rewrite Forall_forall in Hx. apply Hx. eapply list_elem_of_lookup_2; eauto. }
  assert (Vyi : valid st yi).
  { rewrite Forall_forall in Hy. apply Hy. eapply list_elem_of_lookup_2; eauto. }
  rewrite (drop_S _ _ _ Exi), (drop_S _ _ _ Eyi).
  destruct (length x <=? i + 1)%nat eqn:Elast.
  - (* last stage: the borrow goes to r0 *)
    apply Nat.leb_le in Elast. assert (n = 0%nat) as -> by lia.
    unfold bind at 1, ret at 1.
    unfold index. rewrite Exi, Eyi.
    unfold bind at 1, ret at 1. unfold bind at 1, ret at 1.
    destruct (Full_emits xi yi bin r0 st Vxi Vyi Hbin Hr)
      as (st' & gs & E & He & Hz & _ & Hv).
    rewrite (bind_Ok _ _ _ _ _ E). cbn [ltLoop]. unfold ret.
    exists st', gs. split; [reflexivity|]. split; [exact He|].
    split; [exact Hz|]. intros env. rewrite Hv.
    rewrite !drop_ge by lia. reflexivity.
  - (* inner stage: the borrow goes to a new wire *)
    apply Nat.leb_gt in Elast.
    destruct (NewWire_fresh st) as (s0 & E0 & C0 & V0 & U0 & Uf & Nf).
    rewrite (bind_Ok _ _ _ _ _ E0).
    unfold index. rewrite Exi, Eyi.
    unfold bind at 1, ret at 1. unfold bind at 1, ret at 1.
    set (nb := length (heap st)) in *.
    destruct (Full_emits xi yi bin nb s0 (V0 _ Vxi) (V0 _ Vyi) (V0 _ Hbin) Uf)
      as (s1 & gsF & E1 & He1 & Hz1 & Vnb & Hv1).
    rewrite (bind_Ok _ _ _ _ _ E1).
    pose proof He1 as (G1 & I1 & V1 & U1 & F1).
    assert (Hr1 : undriven s1 r0).
    { apply U1; [now apply U0|]. intros ->.
      apply Nf. now apply undriven_valid. }
    destruct (IH (S i) nb s1 ltac:(lia) ltac:(lia)) as
      (st' & gs' & E' & He' & Hz' & Hv'); auto.
    { eapply Forall_impl; [exact Hx|]. simpl. auto. }
    { eapply Forall_impl; [exact Hy|]. simpl. auto. }
    exists st', (gsF ++ gs'). split; [exact E'|]. split; [|split].
    + pose proof He' as (G' & I' & V' & U' & F').
      split; [now rewrite G', G1, C0, app_assoc|].
      split; [now rewrite I', I1, C0|].
      split; [auto|]. split.
      * intros u Hu Hne. apply U'; [|exact Hne]. apply U1; [now apply U0|].
        intros ->. apply Nf. now apply undriven_valid.
      * intros env u Hu Hne. rewrite evalGates_app.
        rewrite F' by auto. apply F1; [now apply V0|].
        intros ->. now apply Nf.
    + now rewrite Hz', Hz1, C0.
    + intros env. rewrite evalGates_app, Hv'. rewrite Hv1.
      cbn [map ltchain].
      assert (Hfr : forall u, valid st u -> evalGates gsF env u = env u).
      { intros u Hu. apply F1; [now apply V0|]. intros ->. now apply Nf. }
      rewrite (map_env_frame env _ (valid st) (drop (S i) x)); auto.
      2:{ apply Forall_drop. exact Hx. }
      rewrite (map_env_frame env _ (valid st) (drop (S i) y)); auto.
      apply Forall_drop. exact Hy.
Qed.

End LtLoop.

(** *** The zero wire and zero padding *)

Lemma emits_refl st o : emits st st [] o.
Proof.
  split; [now rewrite app_nil_r|]. split; [reflexivity|].
  split; [auto|]. split; auto.
Qed.

Lemma emits_any_out st st' gs o :
  emits st st' gs o -> ~ valid st o ->
  (forall o', emits st st' gs o') /\
  (forall u, undriven st u -> undriven st' u).
Proof.
  intros (G & I & V & U & F) Hn. split.
  - intros o'. split; [exact G|]. split; [exact I|]. split; [exact V|].
    split.
    + intros u Hu _. apply U; [exact Hu|]. intros ->.
      apply Hn. now apply undriven_valid.
    + intros env u Hu _. apply F; [exact Hu|]. now intros ->.
  - intros u Hu. apply U; [exact Hu|]. intros ->.
    apply Hn. now apply undriven_valid.
Qed.

Lemma ZeroWire_emits st :
  zero_ready st ->
  exists z st' gs,
    ZeroWire st = Ok (z, st') /\
    (forall o, emits st st' gs o) /\
    (forall u, undriven st u -> undriven st' u) /\
    zeroWire (comp st') = Some z /\
    valid st' z /\
    (forall z', zeroWire (comp st) = Some z' -> st' = st /\ gs = []) /\
    (forall env, zero_ok st env -> evalGates gs env z = false).
Proof.
  unfold zero_ready. intros Hr. unfold ZeroWire.
  unfold bind at 1, get at 1.
  destruct (zeroWire (comp st)) as [z|] eqn:Ez.
  - exists z, st, []. split; [reflexivity|].
    split; [intros o; apply emits_refl|]. split; [auto|].
    split; [exact Ez|]. split; [exact Hr|]. split; [auto|].
    intros env Hok. apply Hok. exact Ez.
  - destruct Hr as (i & rest & Ei & Vi).
    destruct (NewWire_fresh st) as (s1 & E1 & C1 & V1 & U1 & Uf & Nf).
    rewrite (bind_Ok _ _ _ _ _ E1).
    set (w := length (heap st)) in *.
    unfold bind at 1, setZeroWire at 1. rewrite C1.
    unfold bind at 1, firstInput at 1. cbn [comp Inputs].
    rewrite Ei.
    match goal with
    | |- context [bind (NewBinary XOR i i w) _ ?s] => set (s2 := s)
    end.
    assert (D2 : drv s2 = drv s1) by reflexivity.
    assert (Vi2 : valid s2 i) by (eapply valid_keep; [exact D2 | auto]).
    assert (U2 : undriven s2 w) by (eapply undriven_keep; [exact D2 | auto]).
    destruct (emitBinary_bind XOR i i w s2 (fun _ => ret w) Vi2 Vi2 U2)
      as (s3 & E3 & C3 & D3).
    rewrite E3. unfold ret.
    assert (He : emits st s3 [{| Op := XOR; A := i; B := Some i; O := w |}] w).
    { split; [rewrite C3; reflexivity|].
      split; [rewrite C3; cbn; now rewrite Ei|].
      split; [|split].
      - intros u Hu. apply valid_drv. rewrite D3, length_insert, D2.
        apply valid_drv. auto.
      - intros u Hu Hne. unfold undriven. rewrite D3.
        rewrite list_lookup_insert_ne by auto. rewrite D2. now apply U1.
      - intros env u Hu Hne. eval_gates. }
    destruct (emits_any_out _ _ _ _ He Nf) as [Hany Hund].
    exists w, s3, [{| Op := XOR; A := i; B := Some i; O := w |}].
    split; [reflexivity|]. split; [exact Hany|]. split; [exact Hund|].
    split; [rewrite C3; reflexivity|].
    split.
    { apply valid_drv. rewrite D3, length_insert, D2.
      apply valid_drv. now apply undriven_valid. }
    split; [intros z' Hz'; congruence|].
    intros env _. eval_gates. apply xorb_nilpotent.
Qed.

Lemma ZeroWire_stable st z :
  zeroWire (comp st) = Some z -> ZeroWire st = Ok (z, st).
Proof. intros H. unfold ZeroWire, bind, get. now rewrite H. Qed.

(** *** Shifting by a constant *)

Lemma copyInto_length {T} (dst src : list T) :
  length (copyInto dst src) = length dst.
Proof.
  revert src. induction dst as [|d dst IH]; intros [|x src]; simpl; auto.
Qed.

Lemma copyInto_lookup {T} (dst src : list T) j :
  copyInto dst src !! j =
    if decide (j < length dst /\ j < length src)%nat
    then src !! j else dst !! j.
Proof.
  revert src j.
  induction dst as [|d dst IH]; intros [|x src] j; cbn [copyInto length].
  - destruct (decide _); [lia | reflexivity].
  - destruct (decide _); [lia | reflexivity].
  - destruct (decide _); [lia | reflexivity].
  - destruct j as [|j]; cbn [lookup list_lookup].
    + destruct (decide _); [reflexivity | lia].
    + rewrite IH. repeat destruct (decide _); try reflexivity; lia.
Qed.

Lemma fillZero_stable st z :
  zeroWire (comp st) = Some z ->
  forall n i (result : list (option WireRef)),
    0 <= i -> (Z.to_nat i + n <= length result)%nat ->
    exists result',
      fillZero result i n st = Ok (result', st) /\
      length result' = length result /\
      forall j, result' !! j =
        if decide (Z.to_nat i <= j < Z.to_nat i + n)%nat
        then Some (Some z) else result !! j.
Proof.
  intros Hz. induction n as [|n IH]; intros i result Hi Hn.
  - exists result. split; [reflexivity|]. split; [reflexivity|].
    intros j. case_decide; [lia | reflexivity].
  - cbn [fillZero]. rewrite (bind_Ok _ _ _ _ _ (ZeroWire_stable _ _ Hz)).
    assert ((0 <=? i) = true) as -> by (apply Z.leb_le; lia).
    assert ((i <? Z.of_nat (length result)) = true) as ->
      by (apply Z.ltb_lt; lia).
    cbn [andb].
    destruct (IH (i + 1) (<[Z.to_nat i := Some z]> result)) as
      (result' & E & Hl & Hlk).
    { lia. }
    { rewrite length_insert. lia. }
    exists result'. split; [exact E|].
    split; [now rewrite Hl, length_insert|].
    intros j. rewrite Hlk.
    replace (Z.to_nat (i + 1)) with (S (Z.to_nat i)) by lia.
    destruct (decide (j = Z.to_nat i)) as [->|Hne].
    + rewrite list_lookup_insert_eq by lia.
      repeat case_decide; try reflexivity; lia.
    + rewrite list_lookup_insert_ne by auto.
      repeat case_decide; try reflexivity; lia.
Qed.

Lemma fillZero_overrun st z :
  zeroWire (comp st) = Some z ->
  forall n i (result : list (option WireRef)),
    0 <= i -> (Z.to_nat i <= length result < Z.to_nat i + n)%nat ->
    fillZero result i n st =
      Panic (IndexOutOfRange (Z.of_nat (length result))
                             (Z.of_nat (length result))).
Proof.
  intros Hz. induction n as [|n IH]; intros i result Hi Hn; [lia|].
  cbn [fillZero]. rewrite (bind_Ok _ _ _ _ _ (ZeroWire_stable _ _ Hz)).
  assert ((0 <=? i) = true) as -> by (apply Z.leb_le; lia).
  destruct (i <? Z.of_nat (length result)) eqn:E; cbn [andb].
  - apply Z.ltb_lt in E.
    rewrite (IH (i + 1) (<[Z.to_nat i := Some z]> result));
      rewrite ?length_insert; [reflexivity | lia | lia].
  - apply Z.ltb_ge in E. unfold throw. do 2 f_equal; lia.
Qed.

Lemma fillZero_first st z st1 :
  ZeroWire st = Ok (z, st1) -> zeroWire (comp st1) = Some z ->
  forall n i (result : list (option WireRef)),
    (1 <= n)%nat -> fillZero result i n st = fillZero result i n st1.
Proof.
  intros E Hz n i result Hn. destruct n as [|n]; [lia|].
  cbn [fillZero]. rewrite (bind_Ok _ _ _ _ _ E).
  now rewrite (bind_Ok _ _ _ _ _ (ZeroWire_stable _ _ Hz)).
Qed.

(** A zero-fill loop from any state in which [ZeroWire] can be called. *)
Lemma fillZero_ready st n i (result : list (option WireRef)) :
  zero_ready st ->
  0 <= i -> (0 < n -> Z.to_nat i + n <= length result)%nat ->
  exists result' st',
    fillZero result i n st = Ok (result', st') /\
    zero_ready st' /\
    length result' = length result /\
    (forall z, zeroWire (comp st) = Some z -> zeroWire (comp st') = Some z) /\
    (forall j, (Z.to_nat i <= j < Z.to_nat i + n)%nat ->
       is_Some (zeroWire (comp st')) /\
       result' !! j = Some (zeroWire (comp st'))) /\
    (forall j, ~ (Z.to_nat i <= j < Z.to_nat i + n)%nat ->
       result' !! j = result !! j).
Proof.
  intros Hr Hi Hn. destruct n as [|n].
  - exists result, st. split; [reflexivity|]. split; [exact Hr|].
    split; [reflexivity|]. split; [auto|]. split; [intros; lia | auto].
  - destruct (ZeroWire_emits st Hr) as
      (z & st1 & gs & E & _ & _ & Hz & Vz & Hsame & _).
    rewrite (fillZero_first st z st1 E Hz) by lia.
    destruct (fillZero_stable st1 z Hz (S n) i result Hi (Hn ltac:(lia)))
      as (result' & E' & Hl & Hlk).
    exists result', st1. split; [exact E'|].
    split; [unfold zero_ready; now rewrite Hz|].
    split; [exact Hl|]. split.
    { intros z' Hz'. destruct (Hsame z' Hz') as [-> _]. exact Hz'. }
    split.
    + intros j Hj. rewrite Hz. split; [eauto|]. rewrite Hlk.
      case_decide; [reflexivity | lia].
    + intros j Hj. rewrite Hlk. case_decide; [lia | reflexivity].
Qed.

Lemma fillZero_ready_overrun st n i (result : list (option WireRef)) :
  zero_ready st ->
  0 <= i -> (Z.to_nat i <= length result < Z.to_nat i + n)%nat ->
  fillZero result i n st =
    Panic (IndexOutOfRange (Z.of_nat (length result))
                           (Z.of_nat (length result))).
Proof.
  intros Hr Hi Hn.
  destruct (ZeroWire_emits st Hr) as
    (z & st1 & gs & E & _ & _ & Hz & _).
  rewrite (fillZero_first st z st1 E Hz) by lia.
  now apply (fillZero_overrun st1 z).
Qed.

(** The slice handed to the zero-fill loops of [ShiftLeft]. *)
Lemma ShiftLeft_copy (w : list WireRef) (n c : nat) :
  (c <= n)%nat ->
  let r0 := replicate n (@None WireRef) in
  let r1 := take c r0 ++ copyInto (drop c r0) (map Some w) in
  length r1 = n /\
  forall j, (c <= j < c + length w)%nat -> (j < n)%nat ->
    r1 !! j = Some (w !! (j - c)%nat).
Proof.
  intros Hc r0 r1. subst r0 r1. split.
  - rewrite length_app, copyInto_length, length_take, length_drop,
      length_replicate. lia.
  - intros j Hj Hn.
    rewrite lookup_app_r; rewrite length_take, length_replicate; [|lia].
    replace (c `min` n)%nat with c by lia.
    rewrite copyInto_lookup, length_drop, length_replicate, length_map.
    destruct (decide _) as [_|Hd]; [|lia].
    rewrite list_lookup_fmap.
    destruct (lookup_lt_is_Some_2 w (j - c)%nat) as [x ->]; [lia|].
    reflexivity.
Qed.

(** C10 (amended).  [ShiftLeft w size count] from a state in which the zero
    wire exists or can be made, with [0 <= size]: when
    [0 <= count <= size] the call returns a vector of exactly [size]
    wires, none of them nil, holding [w[i-count]] at the positions
    [count <= i < count+len(w)] and the zero wire at every other position;
    when [size < count] the first zero-fill loop panics with an index out
    of range at index [size]; when [count < 0] the call panics at the
    slice expression [result[count:]]. *)
Theorem ShiftLeft_index_safety st (w : list WireRef) size count :
  zero_ready st -> 0 <= size ->
  (0 <= count <= size ->
     exists result st',
       ShiftLeft w size count st = Ok (result, st') /\
       length result = Z.to_nat size /\
       forall i, 0 <= i < size ->
         result !! Z.to_nat i =
           Some (shifted w count (zeroWire (comp st')) i) /\
         is_Some (shifted w count (zeroWire (comp st')) i)) /\
  (size < count ->
     ShiftLeft w size count st = Panic (IndexOutOfRange size size)) /\
  (count < 0 ->
     ShiftLeft w size count st = Panic (SliceBoundsOutOfRange count size)).
Proof.
  intros Hr Hsize. unfold ShiftLeft.
  rewrite (proj2 (Z.ltb_ge size 0)) by lia. cbv zeta.
  set (r0 := replicate (Z.to_nat size) (@None WireRef)).
  split.
  - intros Hc.
    match goal with |- context [bind ?m _] =>
      assert (exists r1, m = ret r1 /\ length r1 = Z.to_nat size /\
                forall j, (Z.to_nat count <= j
                           < Z.to_nat count + length w)%nat ->
                  (j < Z.to_nat size)%nat ->
                  r1 !! j = Some (w !! (j - Z.to_nat count)%nat))
        as (r1 & -> & Hl1 & Hk1)
    end.
    { destruct (count <? size) eqn:E.
      - rewrite (proj2 (Z.ltb_ge count 0)) by lia.
        eexists. split; [reflexivity|]. apply ShiftLeft_copy. lia.
      - apply Z.ltb_ge in E. exists r0. split; [reflexivity|].
        split; [apply length_replicate|]. intros j Hj Hn. lia. }
    rewrite (bind_Ok _ _ _ _ _ (eq_refl : ret r1 st = Ok (r1, st))).
    destruct (fillZero_ready st (Z.to_nat count) 0 r1 Hr)
      as (r2 & st1 & E1 & Hr1 & Hl2 & Hz1 & Hin1 & Hout1); [lia | lia |].
    rewrite (bind_Ok _ _ _ _ _ E1).
    set (from := count + Z.of_nat (length w)).
    destruct (fillZero_ready st1 (Z.to_nat (size - from)) from r2 Hr1)
      as (r3 & st2 & E2 & _ & Hl3 & Hz2 & Hin2 & Hout2);
      [lia | lia |].
    exists r3, st2. split; [exact E2|]. split; [lia|].
    intros i Hi. unfold shifted. fold from.
    destruct ((count <=? i) && (i <? from)) eqn:Eb.
    + apply andb_true_iff in Eb. destruct Eb as [Eb1 Eb2].
      apply Z.leb_le in Eb1. apply Z.ltb_lt in Eb2.
      rewrite Hout2, Hout1, Hk1 by lia.
      replace (Z.to_nat i - Z.to_nat count)%nat
        with (Z.to_nat (i - count)) by lia.
      split; [reflexivity|]. apply lookup_lt_is_Some_2. lia.
    + apply andb_false_iff in Eb.
      destruct (Z.lt_ge_cases i count) as [Hlt|Hge].
      * rewrite Hout2 by lia.
        destruct (Hin1 (Z.to_nat i)) as [[z Hz] Hlk]; [lia|].
        rewrite Hlk, Hz, (Hz2 z Hz). split; [reflexivity | eauto].
      * assert (from <= i).
        { destruct Eb as [Eb|Eb];
            [apply Z.leb_gt in Eb | apply Z.ltb_ge in Eb]; lia. }
        destruct (Hin2 (Z.to_nat i)) as [Hz Hlk]; [lia|].
        now rewrite Hlk.
  - split.
    { intros Hc. rewrite (proj2 (Z.ltb_ge count size)) by lia.
      rewrite (bind_Ok _ _ _ _ _ (eq_refl : ret r0 st = Ok (r0, st))).
      apply bind_Panic.
      rewrite fillZero_ready_overrun; [| exact Hr | lia |].
      + unfold r0. rewrite length_replicate. do 2 f_equal; lia.
      + unfold r0. rewrite length_replicate. lia. }
    intros Hc. rewrite (proj2 (Z.ltb_lt count size)) by lia.
    rewrite (proj2 (Z.ltb_lt count 0)) by lia.
    reflexivity.
Qed.

(** C10, a valid call: one input wire shifted up by one position into a
    vector of three. *)
Lemma ShiftLeft_index_safety_witness :
  zero_ready (withInputs 1) /\ 0 <= 3 /\ 0 <= 1 <= 3 /\
  exists result st',
    ShiftLeft [0%nat] 3 1 (withInputs 1) = Ok (result, st') /\
    length result = 3%nat.
Proof.
  assert (Hr : zero_ready (withInputs 1)).
  { exists 0%nat, []. split; [reflexivity|]. unfold valid. simpl. lia. }
  split; [exact Hr|]. split; [lia|]. split; [lia|].
  destruct (ShiftLeft_index_safety (withInputs 1) [0%nat] 3 1 Hr
              ltac:(lia)) as [H _].
  destruct (H ltac:(lia)) as (result & st' & E & Hl & _).
  exists result, st'. split; [exact E | exact Hl].
Defined.

(** C10 as stated fails: a negative count satisfies
    [count <= size], and the call panics at [result[count:]]. *)
Lemma ShiftLeft_negative_count_counterexample :
  zero_ready (withInputs 1) /\ -1 <= 1 /\
  ShiftLeft [0%nat] 1 (-1) (withInputs 1)
    = Panic (SliceBoundsOutOfRange (-1) 1).
Proof.
  split; [|split; [lia | reflexivity]].
  exists 0%nat, []. split; [reflexivity|]. unfold valid. simpl. lia.
Qed.

(** *** Zero padding *)

Lemma NewWire_emits st :
  exists st',
    NewWire st = Ok (length (heap st), st') /\
    (forall o, emits st st' [] o) /\
    zeroWire (comp st') = zeroWire (comp st) /\
    (forall u, undriven st u -> undriven st' u) /\
    undriven st' (length (heap st)) /\
    ~ valid st (length (heap st)).
Proof.
  destruct (NewWire_fresh st) as (st' & E & C & V & U & Uf & Nf).
  exists st'. split; [exact E|]. split; [|now rewrite C].
  intros o. split; [now rewrite C, app_nil_r|]. split; [now rewrite C|].
  split; [exact V|]. split; [auto|]. reflexivity.
Qed.

Lemma value_frame (env env' : WireRef -> bool) (P : WireRef -> Prop) l :
  Forall P l -> (forall u, P u -> env' u = env u) ->
  value env' l = value env l.
Proof.
  intros Hl H. induction Hl as [|u l Hu _ IH]; simpl; [reflexivity|].
  now rewrite IH, H.
Qed.

Lemma emits_frame st st' gs env u :
  (forall o, emits st st' gs o) -> valid st u -> evalGates gs env u = env u.
Proof.
  intros He Hu. destruct (He (S u)) as (_ & _ & _ & _ & F).
  apply F; [exact Hu | lia].
Qed.

Lemma emits_all_trans st s1 s2 gs1 gs2 :
  (forall o, emits st s1 gs1 o) -> (forall o, emits s1 s2 gs2 o) ->
  forall o, emits st s2 (gs1 ++ gs2) o.
Proof.
  intros H1 H2 o.
  apply (emits_trans st s1 s2 gs1 gs2 (length (heap st)) o);
    [apply H1 | apply H2 | unfold valid; lia].
Qed.

Lemma emits_valid st st' gs o u :
  emits st st' gs o -> valid st u -> valid st' u.
Proof. intros (_ & _ & V & _) Hu. now apply V. Qed.

Lemma emits_all_valid st st' gs u :
  (forall o, emits st st' gs o) -> valid st u -> valid st' u.
Proof. intros H. exact (emits_valid st st' gs 0%nat u (H 0%nat)). Qed.

Lemma padLoop_emits x :
  forall n i st,
    zero_ready st -> Forall (valid st) x ->
    exists rx st' gs,
      padLoop x n i st = Ok (rx, st') /\
      length rx = n /\
      Forall (valid st') rx /\
      (forall o, emits st st' gs o) /\
      (forall u, undriven st u -> undriven st' u) /\
      zero_ready st' /\
      forall env, zero_ok st env ->
        zero_ok st' (evalGates gs env) /\
        value (evalGates gs env) rx = value env (take n (drop i x)).
Proof.
  induction n as [|n IH]; intros i st Hr Hx.
  - exists [], st, []. split; [reflexivity|]. split; [reflexivity|].
    split; [constructor|]. split; [intros o; apply emits_refl|].
    split; [auto|]. split; [exact Hr|]. intros env Hz. split; [exact Hz|].
    now rewrite take_0.
  - cbn [padLoop]. destruct (x !! i) as [w|] eqn:Ew.
    + rewrite (bind_Ok _ _ _ _ _ (eq_refl : ret w st = Ok (w, st))).
      destruct (IH (S i) st Hr Hx)
        as (rest & st' & gs & E & Hl & Hv & He & Hu & Hr' & Hval).
      rewrite (bind_Ok _ _ _ _ _ E).
      assert (Vw : valid st w).
      { rewrite Forall_forall in Hx. apply Hx.
        eapply list_elem_of_lookup_2; eauto. }
      exists (w :: rest), st', gs. split; [reflexivity|].
      split; [simpl; now rewrite Hl|].
      split; [constructor; [eapply emits_all_valid; eauto | exact Hv]|].
      split; [exact He|]. split; [exact Hu|]. split; [exact Hr'|].
      intros env Hz. destruct (Hval env Hz) as [Hz' Hv'].
      split; [exact Hz'|]. rewrite (drop_S _ _ _ Ew). cbn [take value].
      now rewrite Hv', (emits_frame st st' gs env w He Vw).
    + destruct (ZeroWire_emits st Hr)
        as (z & s1 & gs1 & E1 & He1 & Hu1 & Hz1 & Vz & _ & Hv1).
      rewrite (bind_Ok _ _ _ _ _ E1).
      assert (Hr1 : zero_ready s1) by (unfold zero_ready; now rewrite Hz1).
      assert (Hx1 : Forall (valid s1) x).
      { eapply Forall_impl; [exact Hx|]. intros u Vu.
        eapply emits_all_valid; eauto. }
      destruct (IH (S i) s1 Hr1 Hx1)
        as (rest & st' & gs & E & Hl & Hv & He & Hu & Hr' & Hval).
      rewrite (bind_Ok _ _ _ _ _ E).
      exists (z :: rest), st', (gs1 ++ gs). split; [reflexivity|].
      split; [simpl; now rewrite Hl|].
      split; [constructor; [eapply emits_all_valid; eauto | exact Hv]|].
      split; [now apply (emits_all_trans st s1)|]. split; [auto|].
      split; [exact Hr'|].
      intros env Hz. rewrite evalGates_app.
      assert (Hz1' : zero_ok s1 (evalGates gs1 env)).
      { intros z' Hz'. rewrite Hz1 in Hz'. injection Hz' as <-.
        now apply Hv1. }
      destruct (Hval _ Hz1') as [Hz' Hv'].
      split; [exact Hz'|]. cbn [value]. rewrite Hv'.
      rewrite (emits_frame s1 st' gs _ z He Vz), (Hv1 env Hz).
      apply lookup_ge_None in Ew.
      rewrite !drop_ge by lia. now rewrite !take_nil.
Qed.

Lemma ZeroPad_emits x y st :
  zero_ready st -> Forall (valid st) x -> Forall (valid st) y ->
  exists rx ry st' gs,
    ZeroPad x y st = Ok ((rx, ry), st') /\
    length rx = (length x `max` length y)%nat /\
    length ry = length rx /\
    Forall (valid st') rx /\ Forall (valid st') ry /\
    (forall o, emits st st' gs o) /\
    (forall u, undriven st u -> undriven st' u) /\
    zero_ready st' /\
    forall env, zero_ok st env ->
      zero_ok st' (evalGates gs env) /\
      value (evalGates gs env) rx = value env x /\
      value (evalGates gs env) ry = value env y.
Proof.
  intros Hr Hx Hy. unfold ZeroPad.
  destruct (Nat.eqb_spec (length x) (length y)) as [Heq|Hne].
  - exists x, y, st, []. split; [reflexivity|]. split; [lia|].
    split; [lia|]. split; [exact Hx|]. split; [exact Hy|].
    split; [intros o; apply emits_refl|]. split; [auto|].
    split; [exact Hr|]. intros env Hz. auto.
  - set (max := if (length x <? length y)%nat then length y else length x).
    assert (Hmax : max = (length x `max` length y)%nat).
    { unfold max. destruct (Nat.ltb_spec (length x) (length y)); lia. }
    destruct (padLoop_emits x max 0%nat st Hr Hx)
      as (rx & s1 & gs1 & E1 & Hl1 & Hv1 & He1 & Hu1 & Hr1 & Hval1).
    rewrite (bind_Ok _ _ _ _ _ E1).
    assert (Hy1 : Forall (valid s1) y).
    { eapply Forall_impl; [exact Hy|]. intros u Vu.
      eapply emits_all_valid; eauto. }
    destruct (padLoop_emits y max 0%nat s1 Hr1 Hy1)
      as (ry & s2 & gs2 & E2 & Hl2 & Hv2 & He2 & Hu2 & Hr2 & Hval2).
    rewrite (bind_Ok _ _ _ _ _ E2).
    exists rx, ry, s2, (gs1 ++ gs2). split; [reflexivity|].
    split; [lia|]. split; [lia|]. split.
    { eapply Forall_impl; [exact Hv1|]. intros u Vu.
      eapply emits_all_valid; eauto. }
    split; [exact Hv2|]. split; [now apply (emits_all_trans st s1)|].
    split; [auto|]. split; [exact Hr2|].
    intros env Hz. rewrite evalGates_app.
    destruct (Hval1 env Hz) as [Hz1 Hx1].
    destruct (Hval2 _ Hz1) as [Hz2 Hy2].
    split; [exact Hz2|]. split.
    + rewrite (value_frame (evalGates gs1 env) _ (valid s1) rx Hv1).
      * rewrite Hx1, drop_0, take_ge by lia. reflexivity.
      * intros u Vu. now apply (emits_frame s1 s2 gs2).
    + rewrite Hy2, drop_0, take_ge by lia.
      apply (value_frame env _ (valid st) y Hy).
      intros u Vu. now apply (emits_frame st s1 gs1).
Qed.

(** *** The comparators *)

Lemma INV_emits i o st :
  valid st i -> undriven st o ->
  exists st' gs,
    (let* g := NewINV i o in AddGate g) st = Ok (tt, st') /\
    emits st st' gs o /\
    forall env, evalGates gs env o = negb (env i).
Proof.
  intros Hi Ho.
  destruct (emitINV_Ok i o st Hi Ho) as (st' & E & C & D).
  pose proof (undriven_valid _ _ Ho) as Hov.
  unfold valid in Hi, Hov.
  eexists st', _. split; [exact E|].
  destruct (emits_of_drv st st' _ o [] C) as [He _].
  { now rewrite app_nil_r. }
  { intros env u Hu Hne. unfold valid in Hu. eval_gates. }
  split; [exact He|]. intros env. eval_gates.
Qed.

(** The borrow chain computes the unsigned order of the two vectors. *)
Lemma ltchain_value env :
  forall xs ys bin,
    length xs = length ys ->
    ltchain (map env xs) (map env ys) bin =
      (value env xs <? value env ys)
      || (bin && (value env xs =? value env ys)).
Proof.
  induction xs as [|a xs IH]; intros [|b ys] bin Hl; try discriminate.
  - simpl. now destruct bin.
  - cbn [map ltchain value]. rewrite IH by (simpl in Hl; lia).
    set (vx := value env xs). set (vy := value env ys).
    destruct (env a), (env b), bin; cbn [Z.b2z negb xorb andb orb];
      repeat match goal with
             | |- context [?p <? ?q] => destruct (Z.ltb_spec p q)
             | |- context [?p =? ?q] => destruct (Z.eqb_spec p q)
             end; cbn [andb orb]; try reflexivity; lia.
Qed.

Lemma Forall_valid_emits st st' gs o (l : list WireRef) :
  emits st st' gs o -> Forall (valid st) l -> Forall (valid st') l.
Proof.
  intros He Hl. eapply Forall_impl; [exact Hl|].
  intros u Vu. eapply emits_valid; eauto.
Qed.

Lemma Lt_emits x y r0 st :
  zero_ready st -> Forall (valid st) x -> Forall (valid st) y ->
  undriven st r0 -> (1 <= length x `max` length y)%nat ->
  exists st' gs,
    NewLtComparator x y [r0] st = Ok (tt, st') /\
    emits st st' gs r0 /\
    zero_ready st' /\
    forall env, zero_ok st env ->
      evalGates gs env r0 = (value env x <? value env y).
Proof.
  intros Hr Hx Hy Hr0 Hn. unfold NewLtComparator.
  destruct (ZeroPad_emits x y st Hr Hx Hy)
    as (rx & ry & s1 & gs1 & E1 & Hl1 & Hl2 & Vx & Vy & He1 & Hu1 & Hr1
        & Hval).
  rewrite (bind_Ok _ _ _ _ _ E1). cbn [fst snd].
  assert (Nst : ~ valid st (length (heap st))) by (unfold valid; lia).
  pose proof (Hu1 _ Hr0) as Hr0'.
  destruct rx as [|x0 rx']; [simpl in Hl1; lia|].
  destruct ry as [|y0 ry']; [simpl in Hl2; lia|].
  pose proof (Forall_inv Vx) as Vx0. pose proof (Forall_inv Vy) as Vy0.
  destruct (Nat.eqb_spec (length (x0 :: rx')) 1) as [H1|H1].
  - (* one bit *)
    destruct rx'; [|discriminate]. destruct ry'; [|discriminate].
    unfold index. cbn [lookup list_lookup].
    unfold bind at 1, ret at 1. unfold bind at 1, ret at 1.
    destruct (Half_emits x0 y0 r0 s1 Vx0 Vy0 Hr0')
      as (st' & gs2 & E2 & He2 & Hz2 & _ & Hv2).
    exists st', (gs1 ++ gs2). split; [exact E2|].
    split; [eapply emits_trans; eauto|].
    split.
    { unfold zero_ready in *. rewrite Hz2.
      destruct (zeroWire (comp s1)); [eapply emits_valid; eauto|].
      destruct Hr1 as (i & rest & Ei & Vi). exists i, rest.
      destruct He2 as (_ & -> & V2 & _). auto. }
    intros env Hz. destruct (Hval env Hz) as (_ & Hx1 & Hy1).
    rewrite evalGates_app, Hv2, <- Hx1, <- Hy1. cbn [value].
    now destruct (evalGates gs1 env x0), (evalGates gs1 env y0).
  - (* several bits *)
    destruct (NewWire_emits s1) as (s2 & E2 & He2 & Hz2 & Hu2 & Uf & Nf).
    rewrite (bind_Ok _ _ _ _ _ E2).
    set (bin := length (heap s1)) in *.
    unfold index. cbn [lookup list_lookup].
    unfold bind at 1, ret at 1. unfold bind at 1, ret at 1.
    destruct (Half_emits x0 y0 bin s2) as
      (s3 & gsH & E3 & He3 & Hz3 & Vbin & Hv3);
      [eapply emits_all_valid; eauto .. | exact Uf |].
    rewrite (bind_Ok _ _ _ _ _ E3).
    assert (He13 : emits s1 s3 gsH bin).
    { apply (emits_trans s1 s2 s3 [] gsH bin bin (He2 bin) He3 Nf). }
    assert (Hne : r0 <> bin).
    { intros ->. apply Nf. now apply undriven_valid. }
    assert (Hr3 : undriven s3 r0).
    { destruct He13 as (_ & _ & _ & U & _). now apply U. }
    destruct (ltLoop_emits (x0 :: rx') (y0 :: ry') r0 Hl2
                (length (x0 :: rx') - 1) 1 bin s3) as
      (st' & gsL & E4 & He4 & Hz4 & Hv4);
      [simpl in *; lia | simpl in *; lia
      | eapply Forall_valid_emits; eauto
      | eapply Forall_valid_emits; eauto
      | exact Vbin | exact Hr3 |].
    assert (He14 : emits s1 st' (gsH ++ gsL) r0).
    { apply (emits_trans s1 s3 st' gsH gsL bin r0 He13 He4 Nf). }
    exists st', (gs1 ++ gsH ++ gsL). split; [exact E4|].
    split; [eapply emits_trans; eauto|].
    split.
    { unfold zero_ready in *. rewrite Hz4, Hz3, Hz2.
      destruct (zeroWire (comp s1)); [eapply emits_valid; eauto|].
      destruct Hr1 as (i & rest & Ei & Vi). exists i, rest.
      destruct He14 as (_ & -> & V2 & _). auto. }
    intros env Hz. destruct (Hval env Hz) as (_ & Hx1 & Hy1).
    rewrite !evalGates_app, Hv4, Hv3, <- Hx1, <- Hy1.
    set (env1 := evalGates gs1 env).
    assert (Hfr : forall u, valid s1 u -> evalGates gsH env1 u = env1 u).
    { intros u Vu. destruct He13 as (_ & _ & _ & _ & F).
      apply F; [exact Vu|]. intros ->. now apply Nf. }
    change (drop 1 (x0 :: rx')) with rx'.
    change (drop 1 (y0 :: ry')) with ry'.
    rewrite (map_env_frame env1 _ (valid s1) rx' (Forall_inv_tail Vx) Hfr).
    rewrite (map_env_frame env1 _ (valid s1) ry' (Forall_inv_tail Vy) Hfr).
    rewrite <- (orb_false_r (value env1 (x0 :: rx') <? _)).
    rewrite <- (andb_false_l (value env1 (x0 :: rx') =? value env1 (y0 :: ry'))).
    rewrite <- ltchain_value by (simpl in *; lia).
    cbn [map ltchain]. f_equal.
    now destruct (env1 x0), (env1 y0).
Qed.

Lemma zero_ready_emits st st' gs o :
  emits st st' gs o -> zeroWire (comp st') = zeroWire (comp st) ->
  zero_ready st -> zero_ready st'.
Proof.
  intros (_ & I & V & _) Hz Hr. unfold zero_ready in *. rewrite Hz, I.
  destruct (zeroWire (comp st)); [auto|].
  destruct Hr as (i & rest & Ei & Vi). exists i, rest. auto.
Qed.

Lemma Le_emits x y r0 st :
  zero_ready st -> Forall (valid st) x -> Forall (valid st) y ->
  undriven st r0 -> (1 <= length x `max` length y)%nat ->
  exists st' gs,
    NewLeComparator x y [r0] st = Ok (tt, st') /\
    emits st st' gs r0 /\
    forall env, zero_ok st env ->
      evalGates gs env r0 = (value env x <=? value env y).
Proof.
  intros Hr Hx Hy Hr0 Hn. unfold NewLeComparator.
  destruct (ZeroPad_emits x y st Hr Hx Hy)
    as (rx & ry & s1 & gs1 & E1 & Hl1 & Hl2 & Vx & Vy & He1 & Hu1 & Hr1
        & Hval).
  rewrite (bind_Ok _ _ _ _ _ E1). cbn [fst snd].
  assert (Nst : ~ valid st (length (heap st))) by (unfold valid; lia).
  destruct (NewWire_emits s1) as (s2 & E2 & He2 & Hz2 & Hu2 & Uf & Nf).
  rewrite (bind_Ok _ _ _ _ _ E2).
  set (w := length (heap s1)) in *.
  destruct (Lt_emits ry rx w s2) as (s3 & gsL & E3 & He3 & Hr3 & Hv3);
    [ exact (zero_ready_emits s1 s2 [] w (He2 w) Hz2 Hr1)
    | exact (Forall_valid_emits s1 s2 [] w ry (He2 w) Vy)
    | exact (Forall_valid_emits s1 s2 [] w rx (He2 w) Vx)
    | exact Uf | lia |].
  rewrite (bind_Ok _ _ _ _ _ E3).
  assert (He13 : emits s1 s3 gsL w).
  { apply (emits_trans s1 s2 s3 [] gsL w w (He2 w) He3 Nf). }
  assert (Hne : r0 <> w).
  { intros ->. apply Nf. apply undriven_valid. auto. }
  assert (Ur3 : undriven s3 r0).
  { destruct He13 as (_ & _ & _ & U & _). apply U; auto. }
  assert (Vw3 : valid s3 w).
  { eapply emits_valid; [exact He3|]. now apply undriven_valid. }
  destruct (INV_emits w r0 s3 Vw3 Ur3) as (st' & gsI & E4 & He4 & Hv4).
  exists st', (gs1 ++ gsL ++ gsI). split; [exact E4|]. split.
  - apply (emits_trans st s1 st' gs1 (gsL ++ gsI) (length (heap st)) r0
             (He1 _)); [|exact Nst].
    apply (emits_trans s1 s3 st' gsL gsI w r0 He13 He4 Nf).
  - intros env Hz. destruct (Hval env Hz) as (Hz1 & Hx1 & Hy1).
    rewrite !evalGates_app, Hv4, Hv3, Hx1, Hy1.
    + symmetry. apply Z.leb_antisym.
    + intros z Ez. apply Hz1. now rewrite <- Hz2.
Qed.

(** C5.  On wire vectors [x] and [y] of a builder state in which zero
    padding is possible, at least one of them non-empty: with a result
    vector of one undriven wire [r0], [NewLtComparator] succeeds and the
    gates it appends drive [r0] to 1 exactly when the unsigned
    little-endian value of [x] is less than that of [y], and
    [NewLeComparator] succeeds and drives [r0] to 1 exactly when the value
    of [x] is at most that of [y]; with a result vector of any other
    length both return their error. *)
Theorem comparators_correct st (x y r : list WireRef) :
  zero_ready st -> Forall (valid st) x -> Forall (valid st) y ->
  (1 <= length x `max` length y)%nat ->
  (forall r0, r = [r0] -> undriven st r0 ->
     (exists st' gs,
        NewLtComparator x y r st = Ok (tt, st') /\
        Gates (comp st') = Gates (comp st) ++ gs /\
        forall env, zero_ok st env ->
          evalGates gs env r0 = (value env x <? value env y)) /\
     (exists st' gs,
        NewLeComparator x y r st = Ok (tt, st') /\
        Gates (comp st') = Gates (comp st) ++ gs /\
        forall env, zero_ok st env ->
          evalGates gs env r0 = (value env x <=? value env y))) /\
  (length r <> 1%nat ->
     NewLtComparator x y r st = Err (ErrLtArgs (length r)) /\
     NewLeComparator x y r st = Err (ErrLeArgs (length r))).
Proof.
  intros Hr Hx Hy Hn. split.
  - intros r0 -> Hr0. split.
    + destruct (Lt_emits x y r0 st Hr Hx Hy Hr0 Hn)
        as (st' & gs & E & (G & _) & _ & Hv).
      exists st', gs. auto.
    + destruct (Le_emits x y r0 st Hr Hx Hy Hr0 Hn)
        as (st' & gs & E & (G & _) & Hv).
      exists st', gs. auto.
  - intros Hlen.
    destruct (ZeroPad_emits x y st Hr Hx Hy)
      as (rx & ry & s1 & gs1 & E1 & _).
    unfold NewLtComparator, NewLeComparator.
    rewrite !(bind_Ok _ _ _ _ _ E1).
    destruct r as [|r0 [|r1 r']]; [split; reflexivity | | split; reflexivity].
    now contradiction Hlen.
Qed.

(** C5 on a compiler with four wires: a two-bit [x], a one-bit [y] that
    gets zero-padded, and the result wire. *)
Lemma comparators_correct_witness :
  exists st' gs,
    NewLtComparator [0; 1]%nat [2%nat] [3%nat] (withInputs 4)
      = Ok (tt, st') /\
    Gates (comp st') = Gates (comp (withInputs 4)) ++ gs /\
    forall env, zero_ok (withInputs 4) env ->
      evalGates gs env 3%nat
        = (value env [0; 1]%nat <? value env [2%nat]).
Proof.
  assert (Hr : zero_ready (withInputs 4)).
  { exists 0%nat, [1; 2; 3]%nat. split; [reflexivity|].
    unfold valid. simpl. lia. }
  assert (Hx : Forall (valid (withInputs 4)) [0; 1]%nat).
  { repeat constructor; unfold valid; simpl; lia. }
  assert (Hy : Forall (valid (withInputs 4)) [2%nat]).
  { repeat constructor; unfold valid; simpl; lia. }
  assert (Hn : (1 <= length [0; 1]%nat `max` length [2%nat])%nat).
  { simpl. lia. }
  destruct (comparators_correct (withInputs 4) [0; 1]%nat [2%nat] [3%nat]
              Hr Hx Hy Hn) as [H _].
  destruct (H 3%nat eq_refl eq_refl) as [Hlt _].
  exact Hlt.
Defined.

(** The first call of [OneWire] appends an XNOR gate on the first input
    wire, the gate that [Gate.Garble] and [Gate.Eval] do not handle. *)
Lemma OneWire_emits_XNOR :
  exists st',
    OneWire (withInputs 1) = Ok (1%nat, st') /\
    Gates (comp st') =
      [ {| Op := XNOR; A := 0%nat; B := Some 0%nat; O := 1%nat |} ].
Proof. eexists. split; reflexivity. Qed.

(** *** The constant wires *)

Lemma ZeroWire_gate st i rest :
  zeroWire (comp st) = None -> Inputs (comp st) = i :: rest -> valid st i ->
  exists st',
    ZeroWire st = Ok (length (heap st), st') /\
    Gates (comp st') =
      Gates (comp st) ++
      [{| Op := XOR; A := i; B := Some i; O := length (heap st) |}].
Proof.
  intros Ez Ei Vi. unfold ZeroWire.
  unfold bind at 1, get at 1. rewrite Ez.
  destruct (NewWire_fresh st) as (s1 & E1 & C1 & V1 & U1 & Uf & Nf).
  rewrite (bind_Ok _ _ _ _ _ E1).
  set (w := length (heap st)) in *.
  unfold bind at 1, setZeroWire at 1. rewrite C1.
  unfold bind at 1, firstInput at 1. cbn [comp Inputs].
  rewrite Ei.
  match goal with
  | |- context [bind (NewBinary XOR i i w) _ ?s] => set (s2 := s)
  end.
  assert (D2 : drv s2 = drv s1) by reflexivity.
  assert (Vi2 : valid s2 i) by (eapply valid_keep; [exact D2 | auto]).
  assert (U2 : undriven s2 w) by (eapply undriven_keep; [exact D2 | auto]).
  destruct (emitBinary_bind XOR i i w s2 (fun _ => ret w) Vi2 Vi2 U2)
    as (s3 & E3 & C3 & D3).
  rewrite E3. unfold ret. exists s3. split; [reflexivity|].
  rewrite C3. reflexivity.
Qed.

(** X7.  [ZeroWire] on a compiler that has the zero wire or an input
    wire: the first call allocates a wire and appends the single gate
    XOR(in0, in0) that drives it, every later call returns the same wire
    and appends nothing, and the wire carries 0 whatever the inputs
    are. *)
Theorem ZeroWire_carries_zero st :
  zero_ready st ->
  exists z st' gs,
    ZeroWire st = Ok (z, st') /\
    Gates (comp st') = Gates (comp st) ++ gs /\
    (forall i rest,
       zeroWire (comp st) = None -> Inputs (comp st) = i :: rest ->
       gs = [{| Op := XOR; A := i; B := Some i; O := z |}]) /\
    (is_Some (zeroWire (comp st)) -> st' = st /\ gs = []) /\
    ZeroWire st' = Ok (z, st') /\
    forall env, zero_ok st env -> evalGates gs env z = false.
Proof.
  intros Hr.
  destruct (ZeroWire_emits st Hr)
    as (z & st' & gs & E & He & _ & Hz & _ & Hsame & Hv).
  exists z, st', gs. split; [exact E|].
  split; [destruct (He z) as [G _]; exact G|]. split.
  { intros i rest Ez Ei.
    assert (Vi : valid st i).
    { unfold zero_ready in Hr. rewrite Ez in Hr.
      destruct Hr as (i' & rest' & Ei' & Vi). congruence. }
    destruct (ZeroWire_gate st i rest Ez Ei Vi) as (s' & E' & G').
    rewrite E in E'. inversion E'; subst z s'.
    destruct (He (length (heap st))) as [G _]. rewrite G in G'.
    now apply app_inv_head in G'. }
  split; [intros [z' Hz']; exact (Hsame z' Hz')|].
  split; [now apply ZeroWire_stable | exact Hv].
Qed.

Lemma ZeroWire_carries_zero_witness :
  exists z st',
    ZeroWire (withInputs 2) = Ok (z, st') /\
    Gates (comp st') = [{| Op := XOR; A := 0%nat; B := Some 0%nat; O := z |}] /\
    forall env, evalGates (Gates (comp st')) env z = false.
Proof.
  assert (Hr : zero_ready (withInputs 2)).
  { exists 0%nat, [1%nat]. split; [reflexivity|]. unfold valid. simpl. lia. }
  destruct (ZeroWire_carries_zero (withInputs 2) Hr)
    as (z & st' & gs & E & G & Hg & _ & _ & Hv).
  exists z, st'. split; [exact E|].
  rewrite G, (Hg 0%nat [1%nat] eq_refl eq_refl). cbn [Gates comp withInputs app].
  split; [reflexivity|]. intros env.
  rewrite <- (Hg 0%nat [1%nat] eq_refl eq_refl). apply Hv.
  intros z' Hz'. discriminate.
Defined.

Lemma OneWire_stable st o :
  oneWire (comp st) = Some o -> OneWire st = Ok (o, st).
Proof. intros H. unfold OneWire, bind, get. now rewrite H. Qed.

Lemma OneWire_emits st :
  one_ready st ->
  exists o st' gs,
    OneWire st = Ok (o, st') /\
    (forall u, emits st st' gs u) /\
    (forall u, undriven st u -> undriven st' u) /\
    oneWire (comp st') = Some o /\
    valid st' o /\
    (forall o', oneWire (comp st) = Some o' -> st' = st /\ gs = []) /\
    (forall i rest,
       oneWire (comp st) = None -> Inputs (comp st) = i :: rest ->
       gs = [{| Op := XNOR; A := i; B := Some i; O := o |}]) /\
    (forall env, one_ok st env -> evalGates gs env o = true).
Proof.
  unfold one_ready. intros Hr. unfold OneWire.
  unfold bind at 1, get at 1.
  destruct (oneWire (comp st)) as [o|] eqn:Eo.
  - exists o, st, []. split; [reflexivity|].
    split; [intros u; apply emits_refl|]. split; [auto|].
    split; [exact Eo|]. split; [exact Hr|]. split; [auto|].
    split; [intros; discriminate|].
    intros env Hok. apply Hok. exact Eo.
  - destruct Hr as (i & rest & Ei & Vi).
    destruct (NewWire_fresh st) as (s1 & E1 & C1 & V1 & U1 & Uf & Nf).
    rewrite (bind_Ok _ _ _ _ _ E1).
    set (w := length (heap st)) in *.
    unfold bind at 1, setOneWire at 1. rewrite C1.
    unfold bind at 1, firstInput at 1. cbn [comp Inputs].
    rewrite Ei.
    match goal with
    | |- context [bind (NewBinary XNOR i i w) _ ?s] => set (s2 := s)
    end.
    assert (D2 : drv s2 = drv s1) by reflexivity.
    assert (Vi2 : valid s2 i) by (eapply valid_keep; [exact D2 | auto]).
    assert (U2 : undriven s2 w) by (eapply undriven_keep; [exact D2 | auto]).
    destruct (emitBinary_bind XNOR i i w s2 (fun _ => ret w) Vi2 Vi2 U2)
      as (s3 & E3 & C3 & D3).
    rewrite E3. unfold ret.
    assert (He : emits st s3
                   [{| Op := XNOR; A := i; B := Some i; O := w |}] w).
    { split; [rewrite C3; reflexivity|].
      split; [rewrite C3; cbn; now rewrite Ei|].
      split; [|split].
      - intros u Hu. apply valid_drv. rewrite D3, length_insert, D2.
        apply valid_drv. auto.
      - intros u Hu Hne. unfold undriven. rewrite D3.
        rewrite list_lookup_insert_ne by auto. rewrite D2. now apply U1.
      - intros env u Hu Hne. eval_gates. }
    destruct (emits_any_out _ _ _ _ He Nf) as [Hany Hund].
    exists w, s3, [{| Op := XNOR; A := i; B := Some i; O := w |}].
    split; [reflexivity|]. split; [exact Hany|]. split; [exact Hund|].
    split; [rewrite C3; reflexivity|].
    split.
    { apply valid_drv. rewrite D3, length_insert, D2.
      apply valid_drv. now apply undriven_valid. }
    split; [intros o' Ho'; congruence|].
    split; [intros i' rest' _ Ei'; congruence|].
    intros env _. eval_gates. now rewrite xorb_nilpotent.
Qed.

(** X8.  [OneWire], the counterpart of [ZeroWire]: the first call
    allocates a wire and appends the single gate XNOR(in0, in0) that
    drives it, every later call returns the same wire and appends
    nothing, and the wire carries 1 whatever the inputs are. *)
Theorem OneWire_carries_one st :
  one_ready st ->
  exists o st' gs,
    OneWire st = Ok (o, st') /\
    Gates (comp st') = Gates (comp st) ++ gs /\
    (forall i rest,
       oneWire (comp st) = None -> Inputs (comp st) = i :: rest ->
       gs = [{| Op := XNOR; A := i; B := Some i; O := o |}]) /\
    (is_Some (oneWire (comp st)) -> st' = st /\ gs = []) /\
    OneWire st' = Ok (o, st') /\
    forall env, one_ok st env -> evalGates gs env o = true.
Proof.
  intros Hr.
  destruct (OneWire_emits st Hr)
    as (o & st' & gs & E & He & _ & Ho & _ & Hsame & Hg & Hv).
  exists o, st', gs. split; [exact E|].
  split; [destruct (He o) as [G _]; exact G|]. split; [exact Hg|].
  split; [intros [o' Ho']; exact (Hsame o' Ho')|].
  split; [now apply OneWire_stable | exact Hv].
Qed.

Lemma OneWire_carries_one_witness :
  exists o st' gs,
    OneWire (withInputs 2) = Ok (o, st') /\
    Gates (comp st') = gs /\
    forall env, evalGates gs env o = true.
Proof.
  assert (Hr : one_ready (withInputs 2)).
  { exists 0%nat, [1%nat]. split; [reflexivity|]. unfold valid. simpl. lia. }
  destruct (OneWire_carries_one (withInputs 2) Hr)
    as (o & st' & gs & E & G & _ & _ & _ & Hv).
  exists o, st', gs. split; [exact E|]. split; [exact G|].
  intros env. apply Hv. intros o' Ho'. discriminate.
Defined.

(** *** Inverter, identity and logical and *)

Lemma Binary_emits op a b o st :
  valid st a -> valid st b -> undriven st o ->
  exists st' gs,
    (let* g := NewBinary op a b o in AddGate g) st = Ok (tt, st') /\
    emits st st' gs o /\
    zeroWire (comp st') = zeroWire (comp st) /\
    gs = [{| Op := op; A := a; B := Some b; O := o |}] /\
    forall env, evalGates gs env o = evalOp op (env a) (env b).
Proof.
  intros Ha Hb Ho.
  destruct (emitBinary_Ok op a b o st Ha Hb Ho) as (st' & E & C & D).
  pose proof (undriven_valid _ _ Ho) as Hov.
  unfold valid in Ha, Hb, Hov.
  eexists st', _. split; [exact E|].
  destruct (emits_of_drv st st' _ o [] C) as [He Hz].
  { now rewrite app_nil_r. }
  { intros env u Hu Hne. unfold valid in Hu. eval_gates. }
  split; [exact He|]. split; [exact Hz|]. split; [reflexivity|].
  intros env. eval_gates.
Qed.

(** X9.  [Compiler.INV] and [Compiler.ID] on an allocated input wire [i]
    and an output wire [o] without a producing gate: after the gates they
    append, [o] carries the negation of the bit on [i], respectively the
    bit on [i]. *)
Theorem INV_ID_semantics st (i o : WireRef) :
  valid st i -> undriven st o ->
  (one_ready st ->
   exists st' gs,
     Compiler_INV i o st = Ok (tt, st') /\
     Gates (comp st') = Gates (comp st) ++ gs /\
     forall env, one_ok st env -> evalGates gs env o = negb (env i)) /\
  (zero_ready st ->
   exists st' gs,
     Compiler_ID i o st = Ok (tt, st') /\
     Gates (comp st') = Gates (comp st) ++ gs /\
     forall env, zero_ok st env -> evalGates gs env o = env i).
Proof.
  intros Vi Uo. split.
  - intros Hr. unfold Compiler_INV.
    destruct (OneWire_emits st Hr)
      as (one & s1 & gs1 & E1 & He1 & Hu1 & _ & V1 & _ & _ & Hv1).
    rewrite (bind_Ok _ _ _ _ _ E1).
    destruct (Binary_emits XOR i one o s1) as (st' & gs2 & E2 & He2 & _ & _ & Hv2);
      [eapply emits_all_valid; eauto | exact V1 | auto |].
    exists st', (gs1 ++ gs2). split; [exact E2|]. split.
    { destruct He2 as [G2 _]. destruct (He1 o) as [G1 _].
      now rewrite G2, G1, app_assoc. }
    intros env Hok. rewrite evalGates_app, Hv2. cbn [evalOp].
    rewrite (Hv1 env Hok), (emits_frame st s1 gs1 env i He1 Vi).
    now destruct (env i).
  - intros Hr. unfold Compiler_ID.
    destruct (ZeroWire_emits st Hr)
      as (z & s1 & gs1 & E1 & He1 & Hu1 & _ & V1 & _ & Hv1).
    rewrite (bind_Ok _ _ _ _ _ E1).
    destruct (Binary_emits XOR i z o s1) as (st' & gs2 & E2 & He2 & _ & _ & Hv2);
      [eapply emits_all_valid; eauto | exact V1 | auto |].
    exists st', (gs1 ++ gs2). split; [exact E2|]. split.
    { destruct He2 as [G2 _]. destruct (He1 o) as [G1 _].
      now rewrite G2, G1, app_assoc. }
    intros env Hok. rewrite evalGates_app, Hv2. cbn [evalOp].
    rewrite (Hv1 env Hok), (emits_frame st s1 gs1 env i He1 Vi).
    now destruct (env i).
Qed.

Lemma INV_ID_semantics_witness :
  exists st' gs,
    Compiler_INV 0%nat 1%nat (withInputs 2) = Ok (tt, st') /\
    Gates (comp st') = gs /\
    forall env, evalGates gs env 1%nat = negb (env 0%nat).
Proof.
  destruct (INV_ID_semantics (withInputs 2) 0%nat 1%nat) as [H _].
  - unfold valid. simpl. lia.
  - reflexivity.
  - destruct H as (st' & gs & E & G & Hv).
    + exists 0%nat, [1%nat]. split; [reflexivity|]. unfold valid. simpl. lia.
    + exists st', gs. split; [exact E|]. split; [exact G|].
      intros env. apply Hv. intros o' Ho'. discriminate.
Defined.

(** X11.  [NewLogicalAnd] on one-wire vectors drives the result wire to
    the conjunction of the two inputs with a single AND gate; with any
    other vector lengths it returns its error and appends nothing. *)
Theorem NewLogicalAnd_semantics st (x y r : list WireRef) :
  (forall x0 y0 r0, x = [x0] -> y = [y0] -> r = [r0] ->
     valid st x0 -> valid st y0 -> undriven st r0 ->
     exists st',
       NewLogicalAnd x y r st = Ok (tt, st') /\
       Gates (comp st') =
         Gates (comp st) ++ [{| Op := AND; A := x0; B := Some y0; O := r0 |}] /\
       forall env,
         evalGates [{| Op := AND; A := x0; B := Some y0; O := r0 |}] env r0
           = env x0 && env y0) /\
  (length x <> 1%nat \/ length y <> 1%nat \/ length r <> 1%nat ->
   NewLogicalAnd x y r st =
     Err (ErrLogicalAndArgs (length x) (length y) (length r))).
Proof.
  split.
  - intros x0 y0 r0 -> -> -> Vx Vy Ur. unfold NewLogicalAnd.
    destruct (Binary_emits AND x0 y0 r0 st Vx Vy Ur)
      as (st' & gs & E & He & _ & -> & Hv).
    exists st'. split; [exact E|]. split; [destruct He as [G _]; exact G|].
    exact Hv.
  - intros H. unfold NewLogicalAnd.
    destruct x as [|x0 [|x1 x']], y as [|y0 [|y1 y']], r as [|r0 [|r1 r']];
      try reflexivity.
    simpl in H. destruct H as [H|[H|H]]; now contradiction H.
Qed.

Lemma NewLogicalAnd_semantics_witness :
  exists st',
    NewLogicalAnd [0%nat] [1%nat] [2%nat] (withInputs 3) = Ok (tt, st') /\
    NewLogicalAnd [0%nat] [1%nat] [] (withInputs 3) =
      Err (ErrLogicalAndArgs 1 1 0).
Proof.
  destruct (NewLogicalAnd_semantics (withInputs 3) [0%nat] [1%nat] [2%nat])
    as [H _].
  destruct (H 0%nat 1%nat 2%nat eq_refl eq_refl eq_refl)
    as (st' & E & _).
  - unfold valid. simpl. lia.
  - unfold valid. simpl. lia.
  - reflexivity.
  - exists st'. split; [exact E|].
    apply (NewLogicalAnd_semantics (withInputs 3) [0%nat] [1%nat] []).
    right. right. simpl. lia.
Defined.

(** X10.  [ZeroPad] on allocated vectors, in a compiler that has the
    zero wire or an input wire: the two vectors it returns have the
    length of the longer argument and carry the same unsigned values as
    the arguments; arguments of equal length are returned as they are and
    no gate is appended. *)
Theorem ZeroPad_preserves_values st (x y : list WireRef) :
  zero_ready st -> Forall (valid st) x -> Forall (valid st) y ->
  exists rx ry st' gs,
    ZeroPad x y st = Ok ((rx, ry), st') /\
    Gates (comp st') = Gates (comp st) ++ gs /\
    length rx = (length x `max` length y)%nat /\
    length ry = (length x `max` length y)%nat /\
    (length x = length y -> rx = x /\ ry = y /\ st' = st) /\
    forall env, zero_ok st env ->
      value (evalGates gs env) rx = value env x /\
      value (evalGates gs env) ry = value env y.
Proof.
  intros Hr Hx Hy.
  destruct (ZeroPad_emits x y st Hr Hx Hy)
    as (rx & ry & st' & gs & E & Hl1 & Hl2 & _ & _ & He & _ & _ & Hv).
  exists rx, ry, st', gs. split; [exact E|].
  split; [destruct (He 0%nat) as [G _]; exact G|].
  split; [exact Hl1|]. split; [now rewrite Hl2|]. split.
  - intros Hlen. unfold ZeroPad in E.
    rewrite (proj2 (Nat.eqb_eq _ _) Hlen) in E.
    inversion E; subst. auto.
  - intros env Hok. destruct (Hv env Hok) as (_ & H1 & H2). auto.
Qed.

Lemma ZeroPad_preserves_values_witness :
  exists rx ry st' gs,
    ZeroPad [0; 1]%nat [2%nat] (withInputs 3) = Ok ((rx, ry), st') /\
    length ry = 2%nat /\
    forall env,
      value (evalGates gs env) ry = value env [2%nat].
Proof.
  destruct (ZeroPad_preserves_values (withInputs 3) [0; 1]%nat [2%nat])
    as (rx & ry & st' & gs & E & _ & _ & Hl & _ & Hv).
  - exists 0%nat, [1; 2]%nat. split; [reflexivity|]. unfold valid. simpl. lia.
  - repeat constructor; unfold valid; simpl; lia.
  - repeat constructor; unfold valid; simpl; lia.
  - exists rx, ry, st', gs. split; [exact E|]. split; [exact Hl|].
    intros env. apply Hv. intros z Hz. discriminate.
Defined.

(** Without the zero wire and without an input wire, padding panics at
    [c.Inputs[0]]. *)
Lemma ZeroWire_no_inputs st :
  zeroWire (comp st) = None -> Inputs (comp st) = [] ->
  ZeroWire st = Panic (IndexOutOfRange 0 0).
Proof.
  intros Ez Ei. unfold ZeroWire. unfold bind at 1, get at 1. rewrite Ez.
  unfold bind at 1, NewWire at 1. unfold bind at 1, setZeroWire at 1.
  unfold bind at 1, firstInput at 1. cbn [comp Inputs]. now rewrite Ei.
Qed.

(** *** One producing gate per wire *)

(** X13.  A wire has at most one producing gate: [Wire.SetInput]
    succeeds exactly on an allocated wire without one, records the gate,
    and every later [SetInput] on that wire panics. *)
Theorem SetInput_once st (w : WireRef) (g : Gate) :
  (undriven st w ->
   exists st' o,
     Wire_SetInput w g st = Ok (tt, st') /\
     heap st' !! w = Some o /\ Input o = Some g /\
     forall g', Wire_SetInput w g' st' =
                  Panic (PanicMsg "Input gate already set")) /\
  (forall st', Wire_SetInput w g st = Ok (tt, st') -> undriven st w).
Proof.
  split.
  - intros Ho. unfold undriven, drv in Ho.
    rewrite list_lookup_fmap in Ho.
    destruct (heap st !! w) as [o|] eqn:Ew; [|discriminate].
    simpl in Ho. inversion Ho as [Hi]. clear Ho.
    destruct (Input o) as [?|] eqn:Ei.
    { rewrite bool_decide_true in Hi by eauto. discriminate. }
    unfold Wire_SetInput, derefWire, storeWire, bind. rewrite Ew, Ei.
    eexists _, _. split; [reflexivity|]. cbn [heap].
    assert (Hlt : (w < length (heap st))%nat)
      by (apply lookup_lt_Some in Ew; exact Ew).
    split; [now apply list_lookup_insert_eq|]. split; [reflexivity|].
    intros g'. rewrite list_lookup_insert_eq by exact Hlt. reflexivity.
  - intros st' H. unfold Wire_SetInput, derefWire, storeWire, bind in H.
    unfold undriven, drv. rewrite list_lookup_fmap.
    destruct (heap st !! w) as [o|] eqn:Ew; [|discriminate].
    destruct (Input o) as [?|] eqn:Ei; [discriminate|].
    simpl. rewrite bool_decide_false; [reflexivity|].
    rewrite Ei. intros [? ?]. discriminate.
Qed.

Lemma SetInput_once_witness :
  exists st',
    Wire_SetInput 0%nat {| Op := INV; A := 1%nat; B := None; O := 0%nat |}
      (withInputs 2) = Ok (tt, st') /\
    Wire_SetInput 0%nat {| Op := INV; A := 1%nat; B := None; O := 0%nat |} st'
      = Panic (PanicMsg "Input gate already set").
Proof.
  destruct (SetInput_once (withInputs 2) 0%nat
              {| Op := INV; A := 1%nat; B := None; O := 0%nat |}) as [H _].
  destruct (H eq_refl) as (st' & o & E & _ & _ & Hp).
  exists st'. split; [exact E | apply Hp].
Defined.

(** *** The value of a shifted vector *)

Lemma value_testbit env (l : list WireRef) :
  forall i : nat,
    Z.testbit (value env l) (Z.of_nat i) =
      match l !! i with Some u => env u | None => false end.
Proof.
  induction l as [|u l IH]; intros i; cbn [value].
  - rewrite lookup_nil. apply Z.testbit_0_l.
  - rewrite Z.add_comm. destruct i as [|i].
    + cbn [lookup list_lookup]. apply Z.testbit_0_r.
    + rewrite Nat2Z.inj_succ, Z.testbit_succ_r by lia. apply IH.
Qed.

Lemma value_nonneg env (l : list WireRef) : 0 <= value env l.
Proof.
  induction l as [|u l IH]; cbn [value]; [lia|].
  destruct (env u); cbn [Z.b2z]; lia.
Qed.

Lemma ShiftLeft_wires st (w : list WireRef) size count :
  zero_ready st -> 0 <= count <= size ->
  exists result st',
    ShiftLeft w size count st = Ok (result, st') /\
    length result = Z.to_nat size /\
    forall j, (j < Z.to_nat size)%nat ->
      ((Z.to_nat count <= j < Z.to_nat count + length w)%nat ->
       result !! j = Some (w !! (j - Z.to_nat count)%nat)) /\
      (~ (Z.to_nat count <= j < Z.to_nat count + length w)%nat ->
       is_Some (zeroWire (comp st')) /\
       result !! j = Some (zeroWire (comp st'))).
Proof.
  intros Hr Hc. unfold ShiftLeft.
  rewrite (proj2 (Z.ltb_ge size 0)) by lia. cbv zeta.
  set (r0 := replicate (Z.to_nat size) (@None WireRef)).
  match goal with |- context [bind ?m _] =>
    assert (exists r1, m = ret r1 /\ length r1 = Z.to_nat size /\
              forall j, (Z.to_nat count <= j
                         < Z.to_nat count + length w)%nat ->
                (j < Z.to_nat size)%nat ->
                r1 !! j = Some (w !! (j - Z.to_nat count)%nat))
      as (r1 & -> & Hl1 & Hk1)
  end.
  { destruct (count <? size) eqn:E.
    - rewrite (proj2 (Z.ltb_ge count 0)) by lia.
      eexists. split; [reflexivity|]. apply ShiftLeft_copy. lia.
    - apply Z.ltb_ge in E. exists r0. split; [reflexivity|].
      split; [apply length_replicate|]. intros j Hj Hn. lia. }
  rewrite (bind_Ok _ _ _ _ _ (eq_refl : ret r1 st = Ok (r1, st))).
  destruct (fillZero_ready st (Z.to_nat count) 0 r1 Hr)
    as (r2 & st1 & E1 & Hr1 & Hl2 & Hz1 & Hin1 & Hout1); [lia | lia |].
  rewrite (bind_Ok _ _ _ _ _ E1).
  set (from := count + Z.of_nat (length w)).
  destruct (fillZero_ready st1 (Z.to_nat (size - from)) from r2 Hr1)
    as (r3 & st2 & E2 & _ & Hl3 & Hz2 & Hin2 & Hout2); [lia | lia |].
  exists r3, st2. split; [exact E2|]. split; [lia|].
  intros j Hj. split.
  - intros Hmid. rewrite Hout2, Hout1, Hk1 by lia. reflexivity.
  - intros Hnot. destruct (Nat.lt_ge_cases j (Z.to_nat count)) as [Hlt|Hge].
    + rewrite Hout2 by lia.
      destruct (Hin1 j) as [[z Hz] Hlk]; [lia|].
      rewrite Hlk, Hz, (Hz2 z Hz). split; [eauto | reflexivity].
    + destruct (Hin2 j) as [Hz Hlk]; [lia|]. auto.
Qed.

(** X12.  [ShiftLeft] multiplies by a power of two: for
    [0 <= count <= size] the vector it returns has no nil wire and, with
    the zero wire carrying 0, its unsigned value is that of [w] times
    [2^count] reduced modulo [2^size]. *)
Theorem ShiftLeft_value st (w : list WireRef) size count :
  zero_ready st -> 0 <= count <= size ->
  exists result st' rs,
    ShiftLeft w size count st = Ok (result, st') /\
    result = map Some rs /\
    length rs = Z.to_nat size /\
    forall env,
      (forall z, zeroWire (comp st') = Some z -> env z = false) ->
      value env rs = (value env w * 2 ^ count) mod 2 ^ size.
Proof.
  intros Hr Hc.
  destruct (ShiftLeft_wires st w size count Hr Hc)
    as (result & st' & E & Hlen & Hpos).
  exists result, st', (map (default 0%nat) result).
  split; [exact E|].
  assert (Hsome : forall j, (j < Z.to_nat size)%nat ->
                    exists u, result !! j = Some (Some u)).
  { intros j Hj. destruct (Hpos j Hj) as [Hmid Hz].
    destruct (decide (Z.to_nat count <= j
                      < Z.to_nat count + length w)%nat) as [Hd|Hd].
    - rewrite (Hmid Hd).
      destruct (lookup_lt_is_Some_2 w (j - Z.to_nat count)%nat)
        as [u ->]; [lia | eauto].
    - destruct (Hz Hd) as [[z Ez] ->]. rewrite Ez. eauto. }
  split.
  { apply list_eq. intros j. rewrite !list_lookup_fmap.
    destruct (result !! j) as [o|] eqn:Ej; [|reflexivity].
    destruct (Hsome j) as [u Hu].
    - apply lookup_lt_Some in Ej. lia.
    - rewrite Ej in Hu. inversion Hu; subst. reflexivity. }
  split; [now rewrite length_map|].
  intros env Hz. apply Z.bits_inj'. intros n Hn.
  rewrite <- (Z2Nat.id n Hn), value_testbit, list_lookup_fmap.
  destruct (Z.lt_ge_cases n size) as [Hlt|Hge].
  - rewrite Z2Nat.id by lia.
    rewrite Z.mod_pow2_bits_low by lia.
    rewrite Z.mul_pow2_bits by lia.
    destruct (Hpos (Z.to_nat n) ltac:(lia)) as [Hmid Hzero].
    destruct (decide (Z.to_nat count <= Z.to_nat n
                      < Z.to_nat count + length w)%nat) as [Hd|Hd].
    + rewrite (Hmid Hd).
      replace (n - count) with (Z.of_nat (Z.to_nat n - Z.to_nat count)) by lia.
      rewrite value_testbit.
      destruct (lookup_lt_is_Some_2 w (Z.to_nat n - Z.to_nat count)%nat)
        as [u ->]; [lia | reflexivity].
    + destruct (Hzero Hd) as [[z Ez] ->]. rewrite Ez. cbn.
      rewrite (Hz z Ez). symmetry.
      destruct (Z.lt_ge_cases n count) as [Hlo|Hhi].
      * apply Z.testbit_neg_r. lia.
      * replace (n - count)
          with (Z.of_nat (Z.to_nat n - Z.to_nat count)) by lia.
        rewrite value_testbit, lookup_ge_None_2; [reflexivity | lia].
  - rewrite Z2Nat.id by lia.
    rewrite Z.mod_pow2_bits_high by lia.
    rewrite lookup_ge_None_2; [reflexivity | lia].
Qed.

Lemma ShiftLeft_value_witness :
  exists result st' rs,
    ShiftLeft [0; 1]%nat 3 1 (withInputs 2) = Ok (result, st') /\
    result = map Some rs /\
    forall env,
      (forall z, zeroWire (comp st') = Some z -> env z = false) ->
      value env rs = (value env [0; 1]%nat * 2 ^ 1) mod 2 ^ 3.
Proof.
  destruct (ShiftLeft_value (withInputs 2) [0; 1]%nat 3 1)
    as (result & st' & rs & E & Hr & _ & Hv).
  - exists 0%nat, [1%nat]. split; [reflexivity|]. unfold valid. simpl. lia.
  - lia.
  - exists result, st', rs. split; [exact E|]. split; [exact Hr | exact Hv].
Defined.

End Builder.

(** ** SSA generation: if statements and loops *)

Section SSAFacts.

Import ast.

Context {Bindings Variable_ Instr Aux : Type}.
Variable emptyBindings : Bindings.
Variable Merge : Variable_ -> Bindings -> Bindings -> Bindings.
Variable isBool : Variable_ -> bool.

Local Abbreviation SState := (SState Bindings Variable_ Instr Aux).
Local Abbreviation Block := (Block Bindings Variable_ Instr).
Local Abbreviation SSAMethod := (SSAMethod Bindings Variable_ Instr Aux).
Local Abbreviation EvalS := (EvalS Bindings Variable_ Instr Aux).

Implicit Types (st : SState) (o : Block) (b : BlockRef).

Lemma getBlock_Ok st b o :
  blocks st !! b = Some o -> getBlock b st = Ok (o, st).
Proof. unfold getBlock. now intros ->. Qed.

Lemma NewEnv_Ok st b o :
  blocks st !! b = Some o -> NewEnv b st = Ok (BBindings o, st).
Proof.
  intros H. unfold NewEnv. now rewrite (bind_Ok _ _ _ _ _ (getBlock_Ok _ _ _ H)).
Qed.

Lemma updBlock_Ok st b o (f : Block -> Block) :
  blocks st !! b = Some o ->
  updBlock b f st =
    Ok (tt, {| blocks := <[b := f o]> (blocks st); aux := aux st |}).
Proof.
  intros H. unfold updBlock.
  now rewrite (bind_Ok _ _ _ _ _ (getBlock_Ok _ _ _ H)).
Qed.

(** What a block update leaves at every address. *)
Lemma lookup_upd (l : list Block) b o (f : Block -> Block) b' :
  l !! b = Some o ->
  <[b := f o]> l !! b' = if decide (b' = b) then Some (f o) else l !! b'.
Proof.
  intros H. destruct (decide (b' = b)) as [->|Hne].
  - apply list_lookup_insert_eq. now apply lookup_lt_Some in H.
  - now apply list_lookup_insert_ne.
Qed.

Lemma gen_Block_Ok st :
  gen_Block emptyBindings st =
    Ok (length (blocks st),
        {| blocks := blocks st ++
                     [ {| BBindings := emptyBindings; Dead := false;
                          BranchCond := None; Next := None; Branch := None;
                          Instrs := [] |} ];
           aux := aux st |}).
Proof. reflexivity. Qed.

Lemma lookup_old st b o (l : list Block) :
  blocks st !! b = Some o -> (blocks st ++ l) !! b = Some o.
Proof. intros H. now apply lookup_app_l_Some. Qed.

Lemma gen_NextBlock_Ok st b o :
  blocks st !! b = Some o ->
  exists st',
    gen_NextBlock emptyBindings b st = Ok (length (blocks st), st') /\
    blocks st' !! length (blocks st) =
      Some {| BBindings := BBindings o; Dead := false; BranchCond := None;
              Next := None; Branch := None; Instrs := [] |} /\
    blocks st' !! b =
      Some {| BBindings := BBindings o; Dead := Dead o;
              BranchCond := BranchCond o; Next := Some (length (blocks st));
              Branch := Branch o; Instrs := Instrs o |}.
Proof.
  intros Hb. pose proof (lookup_lt_Some _ _ _ Hb) as Lb.
  unfold gen_NextBlock.
  rewrite (bind_Ok _ _ _ _ _ (getBlock_Ok _ _ _ Hb)).
  rewrite (bind_Ok _ _ _ _ _ (gen_Block_Ok st)).
  match goal with
  | |- context [ {| blocks := ?l; aux := ?a |} ] =>
      set (s5 := {| blocks := l; aux := a |})
  end.
  set (n := length (blocks st)).
  assert (A : blocks s5 !! n =
              Some {| BBindings := emptyBindings; Dead := false;
                      BranchCond := None; Next := None; Branch := None;
                      Instrs := [] |}).
  { unfold s5, n. cbn [blocks]. rewrite lookup_app_r by lia.
    now rewrite Nat.sub_diag. }
  unfold setBindings.
  rewrite (bind_Ok _ _ _ _ _ (updBlock_Ok s5 _ _ _ A)).
  match goal with
  | |- context [bind (SetNext _ _) _ ?s] => set (s6 := s)
  end.
  assert (B : blocks s6 !! b = Some o).
  { unfold s6, s5. cbn [blocks].
    rewrite list_lookup_insert_ne by (unfold n; lia).
    now apply lookup_app_l_Some. }
  unfold SetNext.
  rewrite (bind_Ok _ _ _ _ _ (updBlock_Ok s6 _ _ _ B)).
  eexists. split; [reflexivity|]. cbn [blocks]. split.
  - rewrite list_lookup_insert_ne by (unfold n; lia).
    unfold s6. cbn [blocks]. apply list_lookup_insert_eq.
    unfold s5. cbn [blocks]. rewrite length_app. simpl. unfold n. lia.
  - apply list_lookup_insert_eq. unfold s6, s5. cbn [blocks].
    rewrite length_insert, length_app. lia.
Qed.

(** The two cases of [If.SSA] on an if statement without else branch
    whose condition is not constant. *)
Lemma If_SSA_no_else_cases
    (Expr_Eval : EvalS) (Expr_SSA : SSAMethod) (True_ : list SSAMethod)
    block st o c env' st1 b1 e0 st2 st2' tBlock st3 t st4 tn bo :
  blocks st !! block = Some o ->
  Expr_Eval (BBindings o) st = Ok (((c, false), env'), st1) ->
  Expr_SSA block st1 = Ok ((b1, [e0]), st2) ->
  isBool e0 = true ->
  setBranchCond b1 e0 st2 = Ok (tt, st2') ->
  gen_BranchBlock emptyBindings b1 st2' = Ok (tBlock, st3) ->
  List_SSA True_ tBlock st3 = Ok (t, st4) ->
  blocks st4 !! fst t = Some tn ->
  blocks st4 !! b1 = Some bo ->
  (Dead tn = false ->
   exists st' tn' bo',
     If_SSA emptyBindings Merge isBool Expr_Eval Expr_SSA True_ []
       block st = Ok ((fst t, []), st') /\
     blocks st' !! fst t = Some tn' /\
     blocks st' !! b1 = Some bo' /\
     Next bo' = Some (fst t) /\
     (fst t <> b1 ->
      BBindings tn' = Merge e0 (BBindings tn) (BBindings bo) /\
      Instrs tn' = Instrs tn /\ Instrs bo' = Instrs bo) /\
     length (blocks st') = length (blocks st4)) /\
  (Dead tn = true ->
   exists st' nb bo',
     If_SSA emptyBindings Merge isBool Expr_Eval Expr_SSA True_ []
       block st = Ok ((length (blocks st4), []), st') /\
     blocks st' !! length (blocks st4) = Some nb /\
     BBindings nb = BBindings bo /\ Dead nb = false /\ Instrs nb = [] /\
     blocks st' !! b1 = Some bo' /\
     Next bo' = Some (length (blocks st4))).
Proof.
  intros Hb HE HS HB H1 H2 H3 Ht Hbo.
  assert (Hpre : forall k,
    If_SSA emptyBindings Merge isBool Expr_Eval Expr_SSA True_ [] block st
    = (let* tn := getBlock (fst t) in k tn) st4 ->
    If_SSA emptyBindings Merge isBool Expr_Eval Expr_SSA True_ [] block st
    = k tn st4).
  { intros k ->. now rewrite (bind_Ok _ _ _ _ _ (getBlock_Ok _ _ _ Ht)). }
  assert (HI : If_SSA emptyBindings Merge isBool Expr_Eval Expr_SSA
                 True_ [] block st =
               (if Dead tn
                then let* tNext := gen_NextBlock emptyBindings b1 in
                     ret (tNext, [])
                else let* bo := getBlock b1 in
                     let* _ := setBindings (fst t)
                                 (Merge e0 (BBindings tn) (BBindings bo)) in
                     let* _ := SetNext b1 (fst t) in
                     ret (fst t, [])) st4).
  { apply (Hpre (fun tn =>
      if Dead tn
      then let* tNext := gen_NextBlock emptyBindings b1 in ret (tNext, [])
      else let* bo := getBlock b1 in
           let* _ := setBindings (fst t)
                       (Merge e0 (BBindings tn) (BBindings bo)) in
           let* _ := SetNext b1 (fst t) in
           ret (fst t, []))).
    unfold If_SSA.
    rewrite (bind_Ok _ _ _ _ _ (NewEnv_Ok _ _ _ Hb)).
    rewrite (bind_Ok _ _ _ _ _ HE). cbn [fst snd].
    rewrite (bind_Ok _ _ _ _ _ HS). cbn [fst snd].
    rewrite HB. cbn [negb].
    rewrite (bind_Ok _ _ _ _ _ H1), (bind_Ok _ _ _ _ _ H2),
      (bind_Ok _ _ _ _ _ H3).
    reflexivity. }
  pose proof (lookup_lt_Some _ _ _ Ht) as Lt.
  pose proof (lookup_lt_Some _ _ _ Hbo) as Lb.
  split; intros Hd; rewrite HI, Hd.
  - rewrite (bind_Ok _ _ _ _ _ (getBlock_Ok _ _ _ Hbo)).
    unfold setBindings.
    rewrite (bind_Ok _ _ _ _ _ (updBlock_Ok st4 _ tn _ Ht)).
    match goal with
    | |- context [bind (SetNext _ _) _ ?s] => set (s5 := s)
    end.
    set (tn1 := {| BBindings := Merge e0 (BBindings tn) (BBindings bo);
                   Dead := Dead tn; BranchCond := BranchCond tn;
                   Next := Next tn; Branch := Branch tn;
                   Instrs := Instrs tn |}) in *.
    assert (L5 : length (blocks s5) = length (blocks st4))
      by (unfold s5; cbn [blocks]; apply length_insert).
    unfold SetNext.
    destruct (decide (b1 = fst t)) as [Heq|Hne].
    + assert (A : blocks s5 !! b1 = Some tn1).
      { unfold s5. cbn [blocks]. rewrite Heq.
        now apply list_lookup_insert_eq. }
      rewrite (bind_Ok _ _ _ _ _ (updBlock_Ok s5 _ _ _ A)).
      eexists _, _, _. split; [reflexivity|]. cbn [blocks].
      split; [rewrite <- Heq; apply list_lookup_insert_eq; lia|].
      split; [apply list_lookup_insert_eq; lia|].
      split; [reflexivity|]. split; [congruence|].
      now rewrite length_insert.
    + assert (A : blocks s5 !! b1 = Some bo).
      { unfold s5. cbn [blocks].
        now rewrite list_lookup_insert_ne by congruence. }
      rewrite (bind_Ok _ _ _ _ _ (updBlock_Ok s5 _ _ _ A)).
      eexists _, _, _. split; [reflexivity|]. cbn [blocks].
      split.
      { rewrite list_lookup_insert_ne by congruence.
        unfold s5. cbn [blocks]. now apply list_lookup_insert_eq. }
      split; [apply list_lookup_insert_eq; lia|].
      split; [reflexivity|]. split; [intros _; auto|].
      now rewrite length_insert.
  - destruct (gen_NextBlock_Ok st4 b1 bo Hbo) as (st' & E & L1 & L2).
    rewrite (bind_Ok _ _ _ _ _ E).
    eexists st', _, _. split; [reflexivity|].
    split; [exact L1|]. cbn [BBindings Dead Instrs].
    split; [reflexivity|]. split; [reflexivity|]. split; [reflexivity|].
    split; [exact L2 | reflexivity].
Qed.

(** C6 (amended).  [If.SSA] on a block [block]: (1) when the condition
    folds to the constant [val], the statement is reduced to a single
    branch: after the bindings of the evaluation are stored, generation is
    exactly that of the selected branch in the same block; the
    condition's SSA form and the other branch are not generated;
    (2) when the condition is not constant and there is an else branch,
    the true branch is generated in a new branch block and the false
    branch in a new next block; when both continue they are joined in a
    new block whose bindings are the phi-merge of theirs on the
    condition; when one of them ends in a dead block generation continues
    in the block the other ends in and nothing is joined; when both end
    in a dead block generation continues in a new dead block;
    (3) when the condition is not constant and there is no else branch,
    the true branch is generated in a new branch block; when it continues,
    generation goes on in the block it ends in, which becomes the next
    block of the branching block and gets the phi-merge of its bindings
    with those of the branching block; when it ends in a dead block,
    generation goes on in a new next block of the branching block. *)
Theorem If_SSA_folds_or_merges
    (Expr_Eval : EvalS) (Expr_SSA : SSAMethod) (True_ False_ : list SSAMethod)
    block st o :
  blocks st !! block = Some o ->
  (forall val env' st1,
     Expr_Eval (BBindings o) st = Ok (((CBool val, true), env'), st1) ->
     If_SSA emptyBindings Merge isBool Expr_Eval Expr_SSA True_ False_
       block st =
     (let* _ := setBindings block env' in
      List_SSA (if val then True_ else False_) block) st1) /\
  (forall c env' st1 b1 e0 st2 st2' tBlock st3 t st4 fBlock st5 f st6 tn fn,
     Expr_Eval (BBindings o) st = Ok (((c, false), env'), st1) ->
     Expr_SSA block st1 = Ok ((b1, [e0]), st2) ->
     isBool e0 = true ->
     False_ <> [] ->
     setBranchCond b1 e0 st2 = Ok (tt, st2') ->
     gen_BranchBlock emptyBindings b1 st2' = Ok (tBlock, st3) ->
     List_SSA True_ tBlock st3 = Ok (t, st4) ->
     gen_NextBlock emptyBindings b1 st4 = Ok (fBlock, st5) ->
     List_SSA False_ fBlock st5 = Ok (f, st6) ->
     blocks st6 !! fst t = Some tn ->
     blocks st6 !! fst f = Some fn ->
     (Dead tn = false -> Dead fn = false ->
      exists st' next tn' fn',
        If_SSA emptyBindings Merge isBool Expr_Eval Expr_SSA True_ False_
          block st = Ok ((length (blocks st6), []), st') /\
        blocks st' !! length (blocks st6) = Some next /\
        BBindings next = Merge e0 (BBindings tn) (BBindings fn) /\
        Instrs next = [] /\
        blocks st' !! fst t = Some tn' /\
        Next tn' = Some (length (blocks st6)) /\
        Instrs tn' = Instrs tn /\
        blocks st' !! fst f = Some fn' /\
        Next fn' = Some (length (blocks st6)) /\
        Instrs fn' = Instrs fn) /\
     (Dead tn = false -> Dead fn = true ->
      If_SSA emptyBindings Merge isBool Expr_Eval Expr_SSA True_ False_
        block st = Ok ((fst t, []), st6)) /\
     (Dead tn = true -> Dead fn = false ->
      If_SSA emptyBindings Merge isBool Expr_Eval Expr_SSA True_ False_
        block st = Ok ((fst f, []), st6)) /\
     (Dead tn = true -> Dead fn = true ->
      If_SSA emptyBindings Merge isBool Expr_Eval Expr_SSA True_ False_
        block st =
        Ok ((length (blocks st6), []),
            {| blocks := blocks st6 ++
                         [ {| BBindings := emptyBindings; Dead := true;
                              BranchCond := None; Next := None;
                              Branch := None; Instrs := [] |} ];
               aux := aux st6 |}))) /\
  (forall c env' st1 b1 e0 st2 st2' tBlock st3 t st4 tn bo,
     False_ = [] ->
     Expr_Eval (BBindings o) st = Ok (((c, false), env'), st1) ->
     Expr_SSA block st1 = Ok ((b1, [e0]), st2) ->
     isBool e0 = true ->
     setBranchCond b1 e0 st2 = Ok (tt, st2') ->
     gen_BranchBlock emptyBindings b1 st2' = Ok (tBlock, st3) ->
     List_SSA True_ tBlock st3 = Ok (t, st4) ->
     blocks st4 !! fst t = Some tn ->
     blocks st4 !! b1 = Some bo ->
     (Dead tn = false ->
      exists st' tn' bo',
        If_SSA emptyBindings Merge isBool Expr_Eval Expr_SSA True_ False_
          block st = Ok ((fst t, []), st') /\
        blocks st' !! fst t = Some tn' /\
        blocks st' !! b1 = Some bo' /\
        Next bo' = Some (fst t) /\
        (fst t <> b1 ->
         BBindings tn' = Merge e0 (BBindings tn) (BBindings bo) /\
         Instrs tn' = Instrs tn /\ Instrs bo' = Instrs bo) /\
        length (blocks st') = length (blocks st4)) /\
     (Dead tn = true ->
      exists st' nb bo',
        If_SSA emptyBindings Merge isBool Expr_Eval Expr_SSA True_ False_
          block st = Ok ((length (blocks st4), []), st') /\
        blocks st' !! length (blocks st4) = Some nb /\
        BBindings nb = BBindings bo /\ Dead nb = false /\ Instrs nb = [] /\
        blocks st' !! b1 = Some bo' /\
        Next bo' = Some (length (blocks st4)))).
Proof.
  intros Hb. split; [|split].
  - intros val env' st1 HE. unfold If_SSA.
    rewrite (bind_Ok _ _ _ _ _ (NewEnv_Ok _ _ _ Hb)).
    rewrite (bind_Ok _ _ _ _ _ HE). cbn [fst snd].
    now destruct val.
  - intros c env' st1 b1 e0 st2 st2' tBlock st3 t st4 fBlock st5 f st6 tn fn
      HE HS HB HF H1 H2 H3 H4 H5 Ht Hf.
    unfold If_SSA.
    rewrite (bind_Ok _ _ _ _ _ (NewEnv_Ok _ _ _ Hb)).
    rewrite (bind_Ok _ _ _ _ _ HE). cbn [fst snd].
    rewrite (bind_Ok _ _ _ _ _ HS). cbn [fst snd].
    rewrite HB. cbn [negb].
    rewrite (bind_Ok _ _ _ _ _ H1), (bind_Ok _ _ _ _ _ H2),
      (bind_Ok _ _ _ _ _ H3).
    destruct False_ as [|f0 fl]; [contradiction|].
    rewrite (bind_Ok _ _ _ _ _ H4), (bind_Ok _ _ _ _ _ H5).
    rewrite (bind_Ok _ _ _ _ _ (getBlock_Ok _ _ _ Hf)).
    rewrite (bind_Ok _ _ _ _ _ (getBlock_Ok _ _ _ Ht)).
    split; [|split; [|split]]; intros Dt Df; rewrite Df, Dt; cbn [andb];
      [| reflexivity | reflexivity |].
    + idtac.
      rewrite (bind_Ok _ _ _ _ _ (gen_Block_Ok st6)).
      set (n := length (blocks st6)).
      set (nb := {| BBindings := emptyBindings; Dead := false;
                    BranchCond := None; Next := None; Branch := None;
                    Instrs := [] |}).
      pose proof (lookup_lt_Some _ _ _ Ht) as Lt.
      pose proof (lookup_lt_Some _ _ _ Hf) as Lf.
      set (s7 := {| blocks := blocks st6 ++ [nb]; aux := aux st6 |}).
      assert (A1 : blocks s7 !! fst t = Some tn) by (now apply lookup_old).
      unfold SetNext.
      match goal with |- context [updBlock _ ?g] => set (nx := g) end.
      rewrite (bind_Ok _ _ _ _ _ (updBlock_Ok s7 _ tn nx A1)).
      set (s8 := {| blocks := <[fst t := nx tn]> (blocks s7);
                    aux := aux s7 |}).
      set (fn8 := if decide (fst f = fst t) then nx tn else fn).
      assert (A2 : blocks s8 !! fst f = Some fn8).
      { unfold s8, fn8. cbn [blocks]. rewrite (lookup_upd _ _ _ _ _ A1).
        destruct (decide _); [reflexivity|]. now apply lookup_old. }
      rewrite (bind_Ok _ _ _ _ _ (updBlock_Ok s8 _ fn8 nx A2)).
      set (s9 := {| blocks := <[fst f := nx fn8]> (blocks s8);
                    aux := aux s8 |}).
      assert (A4 : blocks s9 !! fst f = Some (nx fn8)).
      { unfold s9. cbn [blocks]. rewrite (lookup_upd _ _ _ _ _ A2).
        now rewrite decide_True. }
      assert (A3 : exists tn9, blocks s9 !! fst t = Some tn9 /\
                    BBindings tn9 = BBindings tn /\ Next tn9 = Some n /\
                    Instrs tn9 = Instrs tn).
      { unfold s9. cbn [blocks]. rewrite (lookup_upd _ _ _ _ _ A2).
        destruct (decide (fst t = fst f)) as [Heq|Hne].
        - exists (nx fn8). unfold fn8. rewrite decide_True by auto. auto.
        - exists (nx tn). unfold s8. cbn [blocks].
          rewrite (lookup_upd _ _ _ _ _ A1), decide_True by auto. auto. }
      destruct A3 as (tn9 & A3 & Bt & Nt & It).
      rewrite (bind_Ok _ _ _ _ _ (getBlock_Ok _ _ _ A3)).
      rewrite (bind_Ok _ _ _ _ _ (getBlock_Ok _ _ _ A4)).
      assert (A5 : blocks s9 !! n = Some nb).
      { unfold s9, s8, s7. cbn [blocks].
        rewrite !list_lookup_insert_ne by (unfold n; lia).
        unfold n. rewrite lookup_app_r by lia. now rewrite Nat.sub_diag. }
      unfold setBindings.
      rewrite (bind_Ok _ _ _ _ _ (updBlock_Ok s9 _ nb _ A5)).
      assert (Bf : BBindings (nx fn8) = BBindings fn).
      { unfold fn8. destruct (decide _) as [Heq|]; [|reflexivity].
        rewrite Heq in Hf. cbn. congruence. }
      assert (If' : Instrs (nx fn8) = Instrs fn).
      { unfold fn8. destruct (decide _) as [Heq|]; [|reflexivity].
        rewrite Heq in Hf. cbn. congruence. }
      eexists _, _, tn9, (nx fn8). split; [reflexivity|]. cbn [blocks].
      split.
      { apply list_lookup_insert_eq. apply lookup_lt_Some in A5. exact A5. }
      cbn [BBindings Instrs]. rewrite Bt, Bf.
      split; [reflexivity|]. split; [reflexivity|].
      rewrite !list_lookup_insert_ne by (unfold n; lia).
      auto 10.
    + rewrite (bind_Ok _ _ _ _ _ (gen_Block_Ok st6)).
      unfold setDead.
      match goal with
      | |- context [ {| blocks := ?l; aux := ?a |} ] =>
          set (s7 := {| blocks := l; aux := a |})
      end.
      assert (A : blocks s7 !! length (blocks st6) =
                  Some {| BBindings := emptyBindings; Dead := false;
                          BranchCond := None; Next := None; Branch := None;
                          Instrs := [] |}).
      { unfold s7. cbn [blocks]. rewrite lookup_app_r by lia.
        now rewrite Nat.sub_diag. }
      rewrite (bind_Ok _ _ _ _ _ (updBlock_Ok s7 _ _ _ A)).
      unfold ret. do 2 f_equal. unfold s7. cbn [blocks aux].
      f_equal. rewrite insert_app_r_alt by lia.
      now rewrite Nat.sub_diag.
  - intros c env' st1 b1 e0 st2 st2' tBlock st3 t st4 tn bo
      HF HE HS HB H1 H2 H3 Ht Hbo. subst False_.
    exact (If_SSA_no_else_cases Expr_Eval Expr_SSA True_ block st o c env'
             st1 b1 e0 st2 st2' tBlock st3 t st4 tn bo
             Hb HE HS HB H1 H2 H3 Ht Hbo).
Qed.


Lemma List_SSA_Emit st b o (i : Instr) :
  blocks st !! b = Some o -> Dead o = false ->
  List_SSA [Emit i] b st =
    Ok ((b, []),
        {| blocks :=
             <[b := {| BBindings := BBindings o; Dead := Dead o;
                       BranchCond := BranchCond o; Next := Next o;
                       Branch := Branch o; Instrs := Instrs o ++ [i] |}]>
               (blocks st);
           aux := aux st |}).
Proof.
  intros Hb Hd. cbn [List_SSA].
  rewrite (bind_Ok _ _ _ _ _ (getBlock_Ok _ _ _ Hb)). rewrite Hd.
  unfold Emit, AddInstr. cbn beta.
  assert (E : (let* _ := updBlock b
                 (fun o0 : Block =>
                    {| BBindings := BBindings o0; Dead := Dead o0;
                       BranchCond := BranchCond o0; Next := Next o0;
                       Branch := Branch o0; Instrs := Instrs o0 ++ [i] |})
               in ret (b, @nil Variable_)) st
              = Ok ((b, []),
                    {| blocks :=
                         <[b := {| BBindings := BBindings o; Dead := Dead o;
                                   BranchCond := BranchCond o;
                                   Next := Next o; Branch := Branch o;
                                   Instrs := Instrs o ++ [i] |}]>
                           (blocks st);
                       aux := aux st |})).
  { now rewrite (bind_Ok _ _ _ _ _ (updBlock_Ok st b o _ Hb)). }
  rewrite (bind_Ok _ _ _ _ _ E). cbn [List_SSA fst]. unfold ret.
  now rewrite Hd.
Qed.

(** X18.  [List.SSA] composes: generating a list of statements is
    generating a first part and then the rest from the block the first
    part ends in; this includes the case where the first part ends in a
    dead block, after which nothing more is generated. *)
Theorem List_SSA_app (l1 l2 : list SSAMethod) block st :
  List_SSA (l1 ++ l2) block st =
    (let* r := List_SSA l1 block in List_SSA l2 (fst r)) st.
Proof.
  revert block st. induction l1 as [|b rest IH]; intros block st.
  - reflexivity.
  - cbn [app List_SSA]. unfold bind at 1 3 4.
    destruct (getBlock block st) as [[o s0]| |] eqn:Eg; try reflexivity.
    assert (s0 = st) as ->.
    { unfold getBlock in Eg. destruct (blocks st !! block); now inversion Eg. }
    destruct (Dead o) eqn:Ed.
    + unfold ret at 1 2. cbn [fst].
      destruct l2 as [|c l2]; [reflexivity|].
      cbn [List_SSA]. unfold bind at 1. rewrite Eg, Ed. reflexivity.
    + unfold bind at 1 2.
      destruct (b block st) as [[r s1]| |]; try reflexivity.
      apply IH.
Qed.

(** A dead block takes no statement. *)
Lemma List_SSA_dead (l : list SSAMethod) block st o :
  blocks st !! block = Some o -> Dead o = true ->
  List_SSA l block st = Ok ((block, []), st).
Proof.
  intros Hb Hd. destruct l as [|b rest]; [reflexivity|].
  cbn [List_SSA]. rewrite (bind_Ok _ _ _ _ _ (getBlock_Ok _ _ _ Hb)).
  now rewrite Hd.
Qed.

(** X19.  An if statement with an else branch whose condition is not
    constant and whose two branches both end in a dead block (both
    return): [If.SSA] continues in a new block that is dead, so the
    statements that follow the if statement in a list are not
    generated. *)
Theorem If_SSA_both_terminate
    (Expr_Eval : EvalS) (Expr_SSA : SSAMethod) (True_ False_ : list SSAMethod)
    (following : list SSAMethod) block st o
    c env' st1 b1 e0 st2 st2' tBlock st3 t st4 fBlock st5 f st6 tn fn :
  blocks st !! block = Some o -> Dead o = false ->
  Expr_Eval (BBindings o) st = Ok (((c, false), env'), st1) ->
  Expr_SSA block st1 = Ok ((b1, [e0]), st2) ->
  isBool e0 = true ->
  False_ <> [] ->
  setBranchCond b1 e0 st2 = Ok (tt, st2') ->
  gen_BranchBlock emptyBindings b1 st2' = Ok (tBlock, st3) ->
  List_SSA True_ tBlock st3 = Ok (t, st4) ->
  gen_NextBlock emptyBindings b1 st4 = Ok (fBlock, st5) ->
  List_SSA False_ fBlock st5 = Ok (f, st6) ->
  blocks st6 !! fst t = Some tn -> Dead tn = true ->
  blocks st6 !! fst f = Some fn -> Dead fn = true ->
  let next := length (blocks st6) in
  let st' :=
    {| blocks := blocks st6 ++
                 [ {| BBindings := emptyBindings; Dead := true;
                      BranchCond := None; Next := None; Branch := None;
                      Instrs := [] |} ];
       aux := aux st6 |} in
  If_SSA emptyBindings Merge isBool Expr_Eval Expr_SSA True_ False_
    block st = Ok ((next, []), st') /\
  List_SSA
    (If_SSA emptyBindings Merge isBool Expr_Eval Expr_SSA True_ False_
     :: following) block st = Ok ((next, []), st').
Proof.
  intros Hb Hd HE HS HB HF H1 H2 H3 H4 H5 Ht Dt Hf Df next st'.
  assert (HI : If_SSA emptyBindings Merge isBool Expr_Eval Expr_SSA
                 True_ False_ block st = Ok ((next, []), st')).
  { unfold If_SSA.
    rewrite (bind_Ok _ _ _ _ _ (NewEnv_Ok _ _ _ Hb)).
    rewrite (bind_Ok _ _ _ _ _ HE). cbn [fst snd].
    rewrite (bind_Ok _ _ _ _ _ HS). cbn [fst snd].
    rewrite HB. cbn [negb].
    rewrite (bind_Ok _ _ _ _ _ H1), (bind_Ok _ _ _ _ _ H2),
      (bind_Ok _ _ _ _ _ H3).
    destruct False_ as [|f0 fl]; [contradiction|].
    rewrite (bind_Ok _ _ _ _ _ H4), (bind_Ok _ _ _ _ _ H5).
    rewrite (bind_Ok _ _ _ _ _ (getBlock_Ok _ _ _ Hf)).
    rewrite (bind_Ok _ _ _ _ _ (getBlock_Ok _ _ _ Ht)).
    rewrite Df, Dt. cbn [andb].
    rewrite (bind_Ok _ _ _ _ _ (gen_Block_Ok st6)).
    unfold setDead.
    match goal with
    | |- context [ {| blocks := ?l; aux := ?a |} ] =>
        set (s7 := {| blocks := l; aux := a |})
    end.
    assert (A : blocks s7 !! length (blocks st6) =
                Some {| BBindings := emptyBindings; Dead := false;
                        BranchCond := None; Next := None; Branch := None;
                        Instrs := [] |}).
    { unfold s7. cbn [blocks]. rewrite lookup_app_r by lia.
      now rewrite Nat.sub_diag. }
    rewrite (bind_Ok _ _ _ _ _ (updBlock_Ok s7 _ _ _ A)).
    unfold ret, st', next. do 2 f_equal. unfold s7. cbn [blocks aux].
    f_equal. rewrite insert_app_r_alt by lia.
    now rewrite Nat.sub_diag. }
  split; [exact HI|].
  cbn [List_SSA]. rewrite (bind_Ok _ _ _ _ _ (getBlock_Ok _ _ _ Hb)).
  rewrite Hd. rewrite (bind_Ok _ _ _ _ _ HI). cbn [fst].
  apply (List_SSA_dead following next st'
           {| BBindings := emptyBindings; Dead := true;
              BranchCond := None; Next := None; Branch := None;
              Instrs := [] |}); [|reflexivity].
  unfold st', next. cbn [blocks]. rewrite lookup_app_r by lia.
  now rewrite Nat.sub_diag.
Qed.

(** X20.  An if statement without else branch whose condition is not
    constant: when the true branch continues, generation goes on in the
    block the branch ends in, which becomes the next block of the
    branching block and gets the phi-merge of its bindings with those of
    the branching block; when the true branch ends in a dead block,
    generation goes on in a new next block of the branching block. *)
Theorem If_SSA_without_else
    (Expr_Eval : EvalS) (Expr_SSA : SSAMethod) (True_ : list SSAMethod)
    block st o c env' st1 b1 e0 st2 st2' tBlock st3 t st4 tn bo :
  blocks st !! block = Some o ->
  Expr_Eval (BBindings o) st = Ok (((c, false), env'), st1) ->
  Expr_SSA block st1 = Ok ((b1, [e0]), st2) ->
  isBool e0 = true ->
  setBranchCond b1 e0 st2 = Ok (tt, st2') ->
  gen_BranchBlock emptyBindings b1 st2' = Ok (tBlock, st3) ->
  List_SSA True_ tBlock st3 = Ok (t, st4) ->
  blocks st4 !! fst t = Some tn ->
  blocks st4 !! b1 = Some bo ->
  (Dead tn = false ->
   exists st' tn' bo',
     If_SSA emptyBindings Merge isBool Expr_Eval Expr_SSA True_ []
       block st = Ok ((fst t, []), st') /\
     blocks st' !! fst t = Some tn' /\
     blocks st' !! b1 = Some bo' /\
     Next bo' = Some (fst t) /\
     (fst t <> b1 ->
      BBindings tn' = Merge e0 (BBindings tn) (BBindings bo) /\
      Instrs tn' = Instrs tn /\ Instrs bo' = Instrs bo) /\
     length (blocks st') = length (blocks st4)) /\
  (Dead tn = true ->
   exists st' nb bo',
     If_SSA emptyBindings Merge isBool Expr_Eval Expr_SSA True_ []
       block st = Ok ((length (blocks st4), []), st') /\
     blocks st' !! length (blocks st4) = Some nb /\
     BBindings nb = BBindings bo /\ Dead nb = false /\ Instrs nb = [] /\
     blocks st' !! b1 = Some bo' /\
     Next bo' = Some (length (blocks st4))).
Proof.
  intros Hb HE HS HB H1 H2 H3 Ht Hbo.
  exact (If_SSA_no_else_cases Expr_Eval Expr_SSA True_ block st o c env'
           st1 b1 e0 st2 st2' tBlock st3 t st4 tn bo
           Hb HE HS HB H1 H2 H3 Ht Hbo).
Qed.

End SSAFacts.

(** ** The loop-unroll cap *)

Section CountingLoop.

Import ast ssa_examples.

Variables (N : Z) (body : nat) (block : BlockRef).

Local Abbreviation loop :=
  (forLoop (countCond N) countInc [Emit (Aux := unit) body]).

(** One expansion of the body. *)
Lemma forLoop_iter fuel i env st o :
  blocks st !! block = Some o -> Dead o = false -> counter env < N ->
  exists st1 o',
    loop (S fuel) i env block st =
      loop fuel (i + 1)
        {| counter := counter env + 1; phis := phis env |} block st1 /\
    blocks st1 !! block = Some o' /\ Dead o' = false /\
    Instrs o' = Instrs o ++ [body].
Proof.
  intros Hb Hd Hc. cbn [forLoop]. unfold countCond at 1.
  unfold bind at 1, ret at 1. cbn [fst snd negb].
  rewrite (proj2 (Z.ltb_lt _ _) Hc). cbn [negb].
  unfold setBindings at 1.
  rewrite (bind_Ok _ _ _ _ _ (updBlock_Ok st block o _ Hb)).
  match goal with |- context [bind _ _ ?s] => set (s1 := s) end.
  assert (H1 : blocks s1 !! block =
               Some {| BBindings := env; Dead := Dead o;
                       BranchCond := BranchCond o; Next := Next o;
                       Branch := Branch o; Instrs := Instrs o |}).
  { unfold s1. cbn [blocks]. apply list_lookup_insert_eq.
    now apply lookup_lt_Some in Hb. }
  rewrite (bind_Ok _ _ _ _ _ (List_SSA_Emit s1 block _ body H1 Hd)).
  cbn [fst BBindings Dead BranchCond Next Branch Instrs].
  match goal with |- context [bind (NewEnv _) _ ?s] => set (s2 := s) end.
  assert (H2 : blocks s2 !! block =
               Some {| BBindings := env; Dead := Dead o;
                       BranchCond := BranchCond o; Next := Next o;
                       Branch := Branch o; Instrs := Instrs o ++ [body] |}).
  { unfold s2. cbn [blocks]. apply list_lookup_insert_eq.
    now apply lookup_lt_Some in H1. }
  rewrite (bind_Ok _ _ _ _ _ (NewEnv_Ok _ _ _ H2)). cbn [BBindings].
  unfold countInc at 1. unfold bind at 1, ret at 1. cbn [fst snd negb].
  eexists s2, _. split; [reflexivity|]. split; [exact H2|].
  split; [exact Hd | reflexivity].
Qed.

(** The cap is reached while the condition still has to be checked. *)
Lemma forLoop_exceeds :
  forall fuel i env st o,
    blocks st !! block = Some o -> Dead o = false ->
    Z.of_nat fuel <= N - counter env ->
    loop fuel i env block st =
      Err (ErrUnrollLimitExceeded (i + Z.of_nat fuel)).
Proof.
  induction fuel as [|fuel IH]; intros i env st o Hb Hd Hc.
  - cbn. unfold fail. do 2 f_equal. lia.
  - destruct (forLoop_iter fuel i env st o Hb Hd ltac:(lia))
      as (st1 & o' & -> & Hb' & Hd' & _).
    rewrite (IH _ _ _ o' Hb' Hd') by (cbn [counter]; lia).
    do 2 f_equal. lia.
Qed.

(** The condition becomes false before the cap is reached. *)
Lemma forLoop_completes :
  forall fuel i env st o,
    blocks st !! block = Some o -> Dead o = false ->
    (Z.to_nat (N - counter env) < fuel)%nat ->
    exists st' o',
      loop fuel i env block st = Ok ((block, []), st') /\
      blocks st' !! block = Some o' /\
      Instrs o' = Instrs o ++ replicate (Z.to_nat (N - counter env)) body.
Proof.
  induction fuel as [|fuel IH]; intros i env st o Hb Hd Hc; [lia|].
  destruct (Z.lt_ge_cases (counter env) N) as [Hlt|Hge].
  - destruct (forLoop_iter fuel i env st o Hb Hd Hlt)
      as (st1 & o1 & -> & Hb1 & Hd1 & Hi1).
    destruct (IH (i + 1) {| counter := counter env + 1; phis := phis env |}
                st1 o1 Hb1 Hd1) as (st' & o' & E & Hb' & Hi').
    { cbn [counter]. lia. }
    exists st', o'. split; [exact E|]. split; [exact Hb'|].
    rewrite Hi', Hi1. cbn [counter].
    replace (Z.to_nat (N - counter env))
      with (S (Z.to_nat (N - (counter env + 1)))) by lia.
    cbn [replicate]. now rewrite <- app_assoc.
  - exists st, o. cbn [forLoop]. unfold countCond at 1.
    unfold bind at 1, ret at 1. cbn [fst snd negb].
    rewrite (proj2 (Z.ltb_ge _ _) Hge). cbn [negb].
    split; [reflexivity|]. split; [exact Hb|].
    replace (Z.to_nat (N - counter env)) with 0%nat by lia.
    now rewrite app_nil_r.
Qed.

(** C7.  [For.SSA] on the loop [for i := 0; i < N; i++ { body }] with
    the cap [MaxLoopUnroll]: a loop of fewer than [MaxLoopUnroll]
    iterations is expanded once per iteration and generation succeeds; a
    loop of [MaxLoopUnroll] iterations or more is rejected with the
    unroll-limit error.  The loop of exactly [MaxLoopUnroll] iterations,
    whose condition is false after [MaxLoopUnroll] expansions, is among
    the rejected ones. *)
Theorem For_SSA_unroll_cap MaxLoopUnroll st o :
  blocks st !! block = Some o -> Dead o = false -> 0 <= N ->
  (N < MaxLoopUnroll ->
     exists st' o',
       countLoop MaxLoopUnroll N body block st = Ok ((block, []), st') /\
       blocks st' !! block = Some o' /\
       Instrs o' = Instrs o ++ replicate (Z.to_nat N) body) /\
  (0 <= MaxLoopUnroll <= N ->
     countLoop MaxLoopUnroll N body block st =
       Err (ErrUnrollLimitExceeded MaxLoopUnroll)).
Proof.
  intros Hb Hd HN. unfold countLoop, For_SSA.
  rewrite (bind_Ok _ _ _ _ _ (NewEnv_Ok _ _ _ Hb)).
  unfold countInit at 1. unfold countInit at 1.
  unfold bind at 1, ret at 1. unfold bind at 1, ret at 1.
  cbn [fst snd negb]. split.
  - intros Hlt.
    destruct (forLoop_completes (Z.to_nat MaxLoopUnroll) 0
                {| counter := 0; phis := phis (BBindings o) |} st o Hb Hd)
      as (st' & o' & E & Hb' & Hi').
    { cbn [counter]. lia. }
    exists st', o'. split; [exact E|]. split; [exact Hb'|].
    rewrite Hi'. cbn [counter]. now rewrite Z.sub_0_r.
  - intros Hge.
    rewrite (forLoop_exceeds _ _ _ _ o Hb Hd) by (cbn [counter]; lia).
    do 2 f_equal. lia.
Qed.

End CountingLoop.

(** C7 at the boundary: with [MaxLoopUnroll = 2] the loop
    [for i := 0; i < 2; i++] of two iterations is rejected. *)
Lemma For_SSA_unroll_cap_witness :
  ssa_examples.countLoop 2 2 5%nat 0%nat ssa_examples.start
    = Err (ast.ErrUnrollLimitExceeded 2).
Proof.
  destruct (For_SSA_unroll_cap 2 5%nat 0%nat 2 ssa_examples.start _
              eq_refl eq_refl ltac:(lia)) as [_ H].
  apply H. lia.
Defined.


(** C6 on a condition that is not constant: both branches are generated
    in blocks of their own, and block 3 joins them with a phi-merge on
    the condition variable 7. *)
Lemma If_SSA_folds_or_merges_witness :
  exists st' next,
    ssa_examples.ifRuntime 0%nat ssa_examples.start
      = Ok ((3%nat, []), st') /\
    ast.blocks st' !! 3%nat = Some next /\
    ast.BBindings next
      = ssa_examples.MergeEnv (7%nat, true)
          ssa_examples.emptyEnv ssa_examples.emptyEnv.
Proof.
  destruct (If_SSA_folds_or_merges
              ssa_examples.emptyEnv ssa_examples.MergeEnv snd
              ssa_examples.runtimeCond ssa_examples.runtimeCondSSA
              [ast.Emit 1%nat] [ast.Emit 2%nat]
              0%nat ssa_examples.start _ eq_refl) as (_ & H & _).
  edestruct H as [HA _];
    [ reflexivity | reflexivity | reflexivity | discriminate
    | reflexivity | reflexivity | reflexivity | reflexivity | reflexivity
    | reflexivity | reflexivity | ].
  destruct (HA eq_refl eq_refl) as (st' & next & tn' & fn' & E & Hn & Hb & _).
  exists st', next. split; [exact E|]. split; [exact Hn | exact Hb].
Defined.

(** C6 as stated fails: with the constant condition [true]
    only the true branch is generated, in the current block; no block is
    created and nothing is merged. *)
Lemma If_SSA_constant_counterexample :
  ssa_examples.ifConst 0%nat ssa_examples.start =
    Ok ((0%nat, []),
        {| ast.blocks :=
             [ {| ast.BBindings := ssa_examples.emptyEnv; ast.Dead := false;
                  ast.BranchCond := None; ast.Next := None;
                  ast.Branch := None; ast.Instrs := [1%nat] |} ];
           ast.aux := tt |}).
Proof. vm_compute. reflexivity. Qed.


(** X19 on [if c { return } else { return }] followed by a statement:
    generation ends in the dead block 3 and the statement leaves no
    instruction. *)
Lemma If_SSA_both_terminate_witness :
  exists st',
    ast.List_SSA [ssa_examples.ifBothReturn; ast.Emit 9%nat] 0%nat
      ssa_examples.start = Ok ((3%nat, []), st') /\
    length (ast.blocks st') = 4%nat.
Proof.
  edestruct (If_SSA_both_terminate
               ssa_examples.emptyEnv ssa_examples.MergeEnv snd
               ssa_examples.runtimeCond ssa_examples.runtimeCondSSA
               [ssa_examples.terminate] [ssa_examples.terminate]
               [ast.Emit 9%nat] 0%nat ssa_examples.start) as [_ HL];
    [ reflexivity | reflexivity | reflexivity | reflexivity | reflexivity
    | discriminate
    | reflexivity | reflexivity | reflexivity | reflexivity | reflexivity
    | reflexivity | reflexivity | reflexivity | reflexivity | ].
  eexists. split; [exact HL | reflexivity].
Defined.

(** X20 on [if c { A }]: generation continues in block 1, the block of
    the true branch. *)
Lemma If_SSA_without_else_witness :
  exists st',
    ssa_examples.ifNoElse 0%nat ssa_examples.start = Ok ((1%nat, []), st') /\
    length (ast.blocks st') = 2%nat.
Proof.
  edestruct (If_SSA_without_else
               ssa_examples.emptyEnv ssa_examples.MergeEnv snd
               ssa_examples.runtimeCond ssa_examples.runtimeCondSSA
               [ast.Emit 1%nat] 0%nat ssa_examples.start) as [H _];
    [ reflexivity | reflexivity | reflexivity | reflexivity | reflexivity
    | reflexivity | reflexivity | reflexivity | reflexivity | ].
  destruct (H eq_refl) as (st' & tn' & bo' & E & _ & _ & _ & _ & L).
  exists st'. split; [exact E | exact L].
Defined.

(** * Further properties *)

(** ** Evaluating a garbled circuit *)

Section GarbledEval.

Import ot circuit props gprops.

Lemma le_value_bound bs : 0 <= le_value bs < 256 ^ Z.of_nat (length bs).
Proof.
  induction bs as [|b bs IH]; [simpl; lia|].
  cbn [le_value length]. rewrite Nat2Z.inj_succ, Z.pow_succ_r by lia.
  assert (0 <= Z_of_byte b < 256).
  { unfold Z_of_byte. pose proof (Byte.to_N_bounded b). lia. }
  lia.
Qed.

Lemma wf_label_iff l : wf_label l <-> 0 <= l < 2 ^ k.
Proof.
  unfold wf_label. rewrite Z.land_ones by (unfold k; lia). split.
  - intros <-. apply Z.mod_pos_bound. unfold k. lia.
  - intros H. now apply Z.mod_small.
Qed.

Lemma wf_LabelFromData data : wf_label (LabelFromData data).
Proof.
  apply wf_label_iff. unfold LabelFromData.
  pose proof (le_value_bound (rev (take 16 data))) as H.
  rewrite length_rev, length_take in H.
  assert (256 ^ Z.of_nat (16 `min` length data) <= 2 ^ k).
  { change (2 ^ k) with (256 ^ 16). apply Z.pow_le_mono_r; lia. }
  lia.
Qed.

Lemma wf_Xor a b : wf_label a -> wf_label b -> wf_label (Xor a b).
Proof.
  unfold wf_label, Xor. intros Ha Hb.
  apply Z.bits_inj'. intros n Hn. rewrite Z.land_spec, Z.lxor_spec.
  destruct (Z.testbit (Z.ones k) n) eqn:E; [apply andb_true_r|].
  rewrite andb_false_r.
  assert (Z.testbit a n = false) as ->
    by (rewrite <- Ha, Z.land_spec, E; apply andb_false_r).
  assert (Z.testbit b n = false) as ->
    by (rewrite <- Hb, Z.land_spec, E; apply andb_false_r).
  reflexivity.
Qed.

Lemma wf_SetS_true l : wf_label l -> wf_label (SetS true l).
Proof.
  unfold wf_label, SetS. intros Hl.
  now rewrite Z.land_lor_distr_l, Hl.
Qed.

Lemma LabelFromData_Bytes_wf l : wf_label l -> LabelFromData (Bytes l) = l.
Proof. intros H. now rewrite LabelFromData_Bytes. Qed.

Lemma wf_wires_insert ws i w :
  wf_wires ws -> wf_label (Label0 w) -> wf_wires (<[i := w]> ws).
Proof.
  intros H Hw j w' Hj. destruct (decide (i = j)) as [->|Hne].
  - rewrite lookup_insert_eq in Hj. now inversion Hj; subst.
  - rewrite lookup_insert_ne in Hj by exact Hne. eauto.
Qed.

Lemma garbleInputs_wf r inputs st ws st' :
  garbleInputs r inputs st = Ok (ws, st') ->
  wf_wires (wires st) ->
  wf_wires (wires st') /\ Forall (fun w => wf_label (Label0 w)) ws.
Proof.
  revert st ws st'. induction inputs as [|i rest IH]; intros st ws st' H HI.
  - ret_inv H. auto.
  - cbn [garbleInputs] in H. bind_inv H as ow s0 E0. unfold getWire in E0.
    inversion E0; subst; clear E0.
    bind_inv H as w s1 E1. bind_inv H as ws' s2 E2. ret_inv H.
    assert (Hw : wf_wires (wires s1) /\ wf_label (Label0 w)).
    { destruct (wires s0 !! i) as [w0|] eqn:Ew.
      - ret_inv E1. split; [exact HI | exact (HI _ _ Ew)].
      - bind_inv E1 as w0 s3 E3. bind_inv E1 as u s4 E4.
        apply makeLabels_Ok in E3 as (_ & Hws & block & _ & Hl).
        assert (Hwf : wf_label (Label0 w0))
          by (rewrite Hl; apply wf_LabelFromData).
        ret_inv E1.
        unfold setWire in E4. inversion E4; subst; clear E4. simpl.
        split; [|assumption]. apply wf_wires_insert; [|assumption].
        now rewrite Hws. }
    destruct Hw as [HI1 Hw].
    destruct (IH _ _ _ E2 HI1) as (HI2 & Hws).
    split; [exact HI2|]. now constructor.
Qed.

Lemma Gate_Garble_wf g enc r st rows st' :
  Gate_Garble g enc r st = Ok (rows, st') ->
  wf_wires (wires st) -> wf_wires (wires st').
Proof.
  unfold Gate_Garble. intros H HI.
  bind_inv H as ins st1 Ein.
  destruct (garbleInputs_wf _ _ _ _ _ Ein HI) as [HI1 Hins].
  bind_inv H as ow s0 E0. unfold getWire in E0. inversion E0; subst; clear E0.
  destruct (wires s0 !! Output g) as [?|] eqn:Eout; [discriminate|].
  bind_inv H as w s1 Ew. bind_inv H as u s2 Eset.
  unfold setWire in Eset. inversion Eset; subst; clear Eset.
  bind_inv H as table s3 Et.
  assert (Hs3 : wires s3 = wires {| wires := <[Output g := w]> (wires s1);
                                    rand := rand s1 |}).
  { destruct (Op g); destruct ins as [|a [|b ?]];
      try discriminate; try (ret_inv Et; reflexivity). }
  ret_inv H. rewrite Hs3. cbn [wires].
  destruct (Op g) eqn:Eop.
  - destruct ins as [|a [|b ?]]; try discriminate. ret_inv Ew.
    apply wf_wires_insert; [exact HI1|]. cbn [Label0].
    inversion Hins as [|? ? Ha Hins']; subst.
    inversion Hins' as [|? ? Hb _]; subst.
    now apply wf_Xor.
  - apply makeLabels_Ok in Ew as (_ & Hws & block & _ & Hl).
    apply wf_wires_insert; [now rewrite Hws|].
    rewrite Hl. apply wf_LabelFromData.
  - apply makeLabels_Ok in Ew as (_ & Hws & block & _ & Hl).
    apply wf_wires_insert; [now rewrite Hws|].
    rewrite Hl. apply wf_LabelFromData.
  - apply makeLabels_Ok in Ew as (_ & Hws & block & _ & Hl).
    apply wf_wires_insert; [now rewrite Hws|].
    rewrite Hl. apply wf_LabelFromData.
  - apply makeLabels_Ok in Ew as (_ & Hws & block & _ & Hl).
    apply wf_wires_insert; [now rewrite Hws|].
    rewrite Hl. apply wf_LabelFromData.
Qed.

Lemma Gate_Garble_mono g enc r st rows st' j w :
  Gate_Garble g enc r st = Ok (rows, st') ->
  wires st !! j = Some w -> wires st' !! j = Some w.
Proof.
  intros H Hj.
  apply Gate_Garble_Ok in H
    as (ins & st1 & a & b & c & Ein & _ & Hout & Hws & _).
  pose proof (garbleInputs_mono _ _ _ _ _ _ _ Ein Hj) as Hj1.
  rewrite Hws. rewrite lookup_insert_ne; [exact Hj1|].
  intros <-. congruence.
Qed.

Lemma S_label_of r w v :
  S r = true -> free_xor_wire r w ->
  S (label_of w v) = xorb (S (Label0 w)) v.
Proof.
  intros Sr Hw. destruct v; cbn [label_of].
  - rewrite Hw, S_Xor, Sr. reflexivity.
  - now rewrite xorb_false_r.
Qed.

Lemma wf_label_of r w v :
  wf_label r -> free_xor_wire r w -> wf_label (Label0 w) ->
  wf_label (label_of w v).
Proof.
  intros Hr Hw H0. destruct v; cbn [label_of]; [|exact H0].
  rewrite Hw. now apply wf_Xor.
Qed.

(** The sorted table of a two-input gate, read at the index of the labels
    of the bits [va] and [vb]: [sa] and [sb] are the permutation bits of
    the zero labels of the inputs. *)
Lemma sorted_table4 (d00 d01 d10 d11 : list byte) (sa sb va vb : bool) :
  let ix := fun va vb =>
    Z.lor (Z.shiftl (Z.b2z (xorb sa va)) 1) (Z.b2z (xorb sb vb)) in
  map Data (sort_ByIndex
    [ {| Index := ix false false; Data := d00 |};
      {| Index := ix false true; Data := d01 |};
      {| Index := ix true false; Data := d10 |};
      {| Index := ix true true; Data := d11 |} ]) !! Z.to_nat (ix va vb)
  = Some (if va then (if vb then d11 else d10)
          else (if vb then d01 else d00)).
Proof. destruct sa, sb, va, vb; reflexivity. Qed.

Lemma sorted_table2 (d0 d1 : list byte) (sa va : bool) :
  let ix := fun va => Z.b2z (xorb sa va) in
  map Data (sort_ByIndex
    [ {| Index := ix false; Data := d0 |};
      {| Index := ix true; Data := d1 |} ]) !! Z.to_nat (ix va)
  = Some (if va then d1 else d0).
Proof. destruct sa, va; reflexivity. Qed.

Lemma idx_label_of2 r a b va vb :
  S r = true -> free_xor_wire r a -> free_xor_wire r b ->
  idx (Some (label_of a va)) (Some (label_of b vb)) =
    Z.lor (Z.shiftl (Z.b2z (xorb (S (Label0 a)) va)) 1)
          (Z.b2z (xorb (S (Label0 b)) vb)).
Proof.
  intros Sr Ha Hb.
  now rewrite idx_two, (S_label_of r a), (S_label_of r b).
Qed.

Lemma idx_label_of1 r a va :
  S r = true -> free_xor_wire r a ->
  idx (Some (label_of a va)) None = Z.b2z (xorb (S (Label0 a)) va).
Proof. intros Sr Ha. now rewrite idx_one, (S_label_of r a). Qed.

(** The garbled table of a gate, read with the labels of the input bits,
    decrypts to the label of the output bit. *)
Lemma table_eval alg g r (a b c : ot.Wire) va vb :
  S r = true -> free_xor_wire r a -> free_xor_wire r b ->
  Op g = AND \/ Op g = OR \/ Op g = INV ->
  eval_at g (decrypt alg)
    (map Data (sort_ByIndex
       (map (fun row => entry (encrypt alg) (fst (fst row)) (snd (fst row))
                          (snd row) (ID g))
            (truth_rows (Op g) a b c))))
    (label_of a va)
    (match Op g with INV => None | _ => Some (label_of b vb) end)
  = Ok (Bytes (label_of c (circuits.evalOp (Op g) va vb))).
Proof.
  intros Sr Ha Hb Hop. unfold eval_at.
  destruct Hop as [Hop|[Hop|Hop]]; rewrite Hop;
    cbn [truth_rows map fst snd]; unfold entry.
  - rewrite (idx_label_of2 r a b va vb Sr Ha Hb).
    rewrite (idx_label_of2 r a b false false Sr Ha Hb : idx (Some (Label0 a)) (Some (Label0 b)) = _),
      (idx_label_of2 r a b false true Sr Ha Hb : idx (Some (Label0 a)) (Some (Label1 b)) = _),
      (idx_label_of2 r a b true false Sr Ha Hb : idx (Some (Label1 a)) (Some (Label0 b)) = _),
      (idx_label_of2 r a b true true Sr Ha Hb : idx (Some (Label1 a)) (Some (Label1 b)) = _).
    rewrite sorted_table4.
    destruct va, vb; cbn [label_of circuits.evalOp andb];
      apply decrypt_encrypt.
  - rewrite (idx_label_of2 r a b va vb Sr Ha Hb).
    rewrite (idx_label_of2 r a b false false Sr Ha Hb : idx (Some (Label0 a)) (Some (Label0 b)) = _),
      (idx_label_of2 r a b false true Sr Ha Hb : idx (Some (Label0 a)) (Some (Label1 b)) = _),
      (idx_label_of2 r a b true false Sr Ha Hb : idx (Some (Label1 a)) (Some (Label0 b)) = _),
      (idx_label_of2 r a b true true Sr Ha Hb : idx (Some (Label1 a)) (Some (Label1 b)) = _).
    rewrite sorted_table4.
    destruct va, vb; cbn [label_of circuits.evalOp orb];
      apply decrypt_encrypt.
  - rewrite (idx_label_of1 r a va Sr Ha).
    rewrite (idx_label_of1 r a false Sr Ha : idx (Some (Label0 a)) None = _),
      (idx_label_of1 r a true Sr Ha : idx (Some (Label1 a)) None = _).
    rewrite sorted_table2.
    destruct va; cbn [label_of circuits.evalOp negb];
      apply decrypt_encrypt.
Qed.

Lemma Xor_label_of r a b va vb :
  free_xor_wire r a -> free_xor_wire r b ->
  Xor (label_of a va) (label_of b vb) =
    label_of {| Label0 := Xor (Label0 a) (Label0 b);
                Label1 := Xor (Label0 a) (Label1 b) |} (xorb va vb).
Proof.
  unfold free_xor_wire. intros Ha Hb.
  destruct va, vb; cbn [label_of xorb Label0 Label1];
    rewrite ?Ha, ?Hb; unfold Xor; apply Z.bits_inj'; intros n _;
    rewrite !Z.lxor_spec;
    destruct (Z.testbit (Label0 a) n), (Z.testbit (Label0 b) n),
      (Z.testbit r n); reflexivity.
Qed.

(** A gate that has been garbled, evaluated on the labels of the bits
    [va] and [vb] of its inputs, yields the label of the bit the gate
    computes. *)
Lemma gate_garble_eval alg g r st rows st' :
  Gate_Garble g (encrypt alg) r st = Ok (rows, st') ->
  S r = true -> wf_label r -> wires_ok r (wires st) ->
  wires_ok r (wires st') /\
  exists a b c,
    wires st' !! Input0 g = Some a /\
    (Op g <> INV -> wires st' !! Input1 g = Some b) /\
    wires st' !! Output g = Some c /\
    forall va vb (ws : gmap Z Label),
      ws !! Input0 g = Some (label_of a va) ->
      (Op g <> INV -> ws !! Input1 g = Some (label_of b vb)) ->
      exists out,
        Gate_Eval g ws (decrypt alg) rows = Ok out /\
        LabelFromData out = label_of c (circuits.evalOp (Op g) va vb).
Proof.
  intros H Sr Wr [Hfx Hwf].
  pose proof (Gate_Garble_free_xor _ _ _ _ _ _ H Hfx) as Hfx'.
  pose proof (Gate_Garble_wf _ _ _ _ _ _ H Hwf) as Hwf'.
  split; [split; assumption|].
  pose proof (Gate_Garble_wires _ _ _ _ _ _ H)
    as (ins & st1 & a & b & c & Ein & Hins & Ha & Hb & Hc & Hws).
  apply Gate_Garble_Ok in H
    as (ins' & st1' & a' & b' & c' & Ein' & Hins' & Hout & Hws' & Hrows).
  rewrite Ein in Ein'. inversion Ein'; subst ins' st1'; clear Ein'.
  assert (c' = c) as ->.
  { rewrite Hws' in Hc. rewrite lookup_insert_eq in Hc. congruence. }
  assert (a' = a /\ (Op g <> INV -> b' = b)) as [-> Hbb].
  { revert Hins Hins'. unfold ins_of. destruct (Op g).
    all: try (intros -> E; inversion E; subst; auto; fail).
    intros [-> _] [E _]. inversion E. split; congruence. }
  assert (Fa : free_xor_wire r a) by exact (Hfx' _ _ Ha).
  assert (Fc : free_xor_wire r c /\ wf_label (Label0 c))
    by (split; [exact (Hfx' _ _ Hc) | exact (Hwf' _ _ Hc)]).
  exists a, b, c. split; [exact Ha|]. split; [exact Hb|]. split; [exact Hc|].
  intros va vb ws Wa Wb.
  destruct (Op g) eqn:Eop.
  - (* XOR *)
    specialize (Hb ltac:(discriminate)). specialize (Wb ltac:(discriminate)).
    specialize (Hbb ltac:(discriminate)). subst b'.
    assert (Fb : free_xor_wire r b) by exact (Hfx' _ _ Hb).
    destruct Hrows as (-> & -> & _).
    rewrite (XOR_gate_Eval g ws _ _ _ _ Eop Wa Wb).
    eexists. split; [reflexivity|].
    rewrite LabelFromData_Bytes_wf.
    + now apply (Xor_label_of r).
    + apply wf_Xor; apply (wf_label_of r); eauto.
  - contradiction.
  - (* AND *)
    specialize (Hb ltac:(discriminate)). specialize (Wb ltac:(discriminate)).
    specialize (Hbb ltac:(discriminate)). subst b'.
    assert (Fb : free_xor_wire r b) by exact (Hfx' _ _ Hb).
    destruct Hrows as [_ ->].
    rewrite (Gate_Eval_table g ws _ _ _ (label_of b vb)
               ltac:(rewrite Eop; auto) Wa ltac:(intros _; exact Wb)).
    rewrite Eop.
    pose proof (table_eval alg g r a b c va vb Sr Fa Fb
                  ltac:(rewrite Eop; auto)) as HT.
    rewrite Eop in HT. rewrite HT.
    eexists. split; [reflexivity|].
    apply LabelFromData_Bytes_wf. apply (wf_label_of r); tauto.
  - (* OR *)
    specialize (Hb ltac:(discriminate)). specialize (Wb ltac:(discriminate)).
    specialize (Hbb ltac:(discriminate)). subst b'.
    assert (Fb : free_xor_wire r b) by exact (Hfx' _ _ Hb).
    destruct Hrows as [_ ->].
    rewrite (Gate_Eval_table g ws _ _ _ (label_of b vb)
               ltac:(rewrite Eop; auto) Wa ltac:(intros _; exact Wb)).
    rewrite Eop.
    pose proof (table_eval alg g r a b c va vb Sr Fa Fb
                  ltac:(rewrite Eop; auto)) as HT.
    rewrite Eop in HT. rewrite HT.
    eexists. split; [reflexivity|].
    apply LabelFromData_Bytes_wf. apply (wf_label_of r); tauto.
  - (* INV *)
    destruct Hrows as [_ ->].
    rewrite (Gate_Eval_table g ws _ _ _ (label_of a va)
               ltac:(rewrite Eop; auto) Wa
               ltac:(intros Hn; now contradiction Hn)).
    rewrite Eop.
    pose proof (table_eval alg g r a b' c va vb Sr Fa) as HT.
    rewrite Eop in HT.
    assert (Hb' : b' = a) by (unfold ins_of in Hins'; tauto).
    subst b'. rewrite (HT Fa ltac:(auto)).
    eexists. split; [reflexivity|].
    apply LabelFromData_Bytes_wf. apply (wf_label_of r); tauto.
Qed.

Lemma elem_of_map_Output (gates : list Gate) i :
  i ∈ map Output gates <-> exists g, g ∈ gates /\ Output g = i.
Proof.
  induction gates as [|g rest IH]; cbn [map].
  - split; [intros H; inversion H | intros (g & H & _); inversion H].
  - rewrite elem_of_cons, IH. split.
    + intros [->|(g' & Hg & <-)].
      * exists g. split; [left|]; reflexivity.
      * exists g'. split; [now right | reflexivity].
    + intros (g' & Hg & <-). apply elem_of_cons in Hg as [->|Hg];
        [now left | right; eauto].
Qed.

(** A gate is garbled only when its output wire is new: it has no labels
    yet and is none of the gate's inputs. *)
Lemma Gate_Garble_output_new g enc r st rows st' :
  Gate_Garble g enc r st = Ok (rows, st') ->
  wires st !! Output g = None /\
  Input0 g <> Output g /\
  (Op g <> INV -> Input1 g <> Output g).
Proof.
  intros H.
  apply Gate_Garble_Ok in H
    as (ins & st1 & a & b & w & Ein & Hins & Hout & _ & Hop).
  pose proof (garbleInputs_lookup _ _ _ _ _ Ein) as HF.
  split; [|split].
  - destruct (wires st !! Output g) as [w0|] eqn:E; [|reflexivity].
    rewrite (garbleInputs_mono _ _ _ _ _ _ _ Ein E) in Hout. discriminate.
  - intros Heq. unfold Gate_Inputs in HF.
    destruct (Op g); inversion HF; subst; congruence.
  - intros Hn Heq. unfold Gate_Inputs in HF.
    destruct (Op g); try contradiction;
      inversion HF as [|? ? ? ? _ HF']; subst;
      inversion HF'; subst; congruence.
Qed.

Lemma garbleGates_eval alg r :
  S r = true -> wf_label r ->
  forall gates idx garbled st out st',
    garbleGates gates idx (encrypt alg) r garbled st = Ok (out, st') ->
    wires_ok r (wires st) ->
    wires_ok r (wires st') /\
    (forall i w, wires st !! i = Some w -> wires st' !! i = Some w) /\
    (forall g, g ∈ gates -> wires st !! Output g = None) /\
    length out = length garbled /\
    (forall j, (j < idx)%nat -> out !! j = garbled !! j) /\
    forall W, (forall i w, wires st' !! i = Some w -> W !! i = Some w) ->
      forall env ws, holds_labels W (map Output gates) env ws ->
        exists ws',
          evalGates gates idx (decrypt alg) out ws = Ok ws' /\
          holds_labels W [] (plainEval gates env) ws'.
Proof.
  intros Sr Wr.
  induction gates as [|g rest IH]; intros idx garbled st out st' H Hok.
  - ret_inv H. split; [exact Hok|]. split; [auto|].
    split; [intros g Hg; inversion Hg|]. split; [reflexivity|].
    split; [reflexivity|]. intros W HW env ws Hws. exists ws. auto.
  - cbn [garbleGates] in H. bind_inv H as data s1 Eg.
    destruct (idx <? length garbled)%nat eqn:Eidx; [|discriminate].
    apply Nat.ltb_lt in Eidx.
    destruct (gate_garble_eval _ _ _ _ _ _ Eg Sr Wr Hok)
      as (Hok1 & a & b & c & Ha & Hb & Hc & Hev).
    destruct (Gate_Garble_output_new _ _ _ _ _ _ Eg) as (Hnew & Hn0 & Hn1).
    destruct (IH _ _ _ _ _ H Hok1)
      as (Hok' & Hmono & Hout & Hlen & Hpre & Heval).
    split; [exact Hok'|]. split.
    { intros i w Hi. apply Hmono. eapply Gate_Garble_mono; eauto. }
    split.
    { intros g' Hg'. apply elem_of_cons in Hg' as [->|Hg']; [exact Hnew|].
      destruct (wires st !! Output g') as [w0|] eqn:E; [|reflexivity].
      pose proof (Hout g' Hg') as Hn.
      rewrite (Gate_Garble_mono _ _ _ _ _ _ _ _ Eg E) in Hn.
      discriminate. }
    split; [now rewrite Hlen, length_insert|].
    split.
    { intros j Hj. rewrite Hpre by lia.
      apply list_lookup_insert_ne. lia. }
    intros W HW env ws Hws.
    assert (Hdata : out !! idx = Some data).
    { rewrite Hpre by lia. now apply list_lookup_insert_eq. }
    assert (Hrest : forall i w, wires s1 !! i = Some w ->
                      i ∉ map Output rest).
    { intros i w Hi Hin. apply elem_of_map_Output in Hin as (g' & Hg' & <-).
      rewrite (Hout g' Hg') in Hi. discriminate. }
    assert (Wa : ws !! Input0 g =
                 Some (label_of a (env (Input0 g)))).
    { apply Hws; [auto|]. cbn [map]. apply not_elem_of_cons.
      split; [exact Hn0 | eapply Hrest; eauto]. }
    assert (Wb : Op g <> INV ->
                 ws !! Input1 g = Some (label_of b (env (Input1 g)))).
    { intros Hn. apply Hws; [auto|]. cbn [map]. apply not_elem_of_cons.
      split; [auto | eapply Hrest; eauto]. }
    destruct (Hev _ _ ws Wa Wb) as (outb & Eout & Hlab).
    cbn [evalGates]. rewrite Hdata, Eout.
    destruct (Heval W HW (plainGate env g)
                (<[Output g := LabelFromData outb]> ws))
      as (ws' & Ews' & Hfin).
    { intros i w Hi Hni. destruct (decide (i = Output g)) as [->|Hne].
      - rewrite lookup_insert_eq, Hlab. unfold plainGate.
        rewrite Z.eqb_refl.
        assert (w = c) by (rewrite (HW _ _ (Hmono _ _ Hc)) in Hi; congruence).
        now subst w.
      - rewrite lookup_insert_ne by auto. unfold plainGate.
        rewrite (proj2 (Z.eqb_neq _ _) Hne).
        apply Hws; [exact Hi|]. cbn [map]. apply not_elem_of_cons. auto. }
    exists ws'. split; [exact Ews' | exact Hfin].
Qed.

Lemma assignUnset_mono r ids :
  forall st u st' j w,
    assignUnset r ids st = Ok (u, st') ->
    wires st !! j = Some w -> wires st' !! j = Some w.
Proof.
  induction ids as [|i rest IH]; intros st u st' j w H Hj.
  - ret_inv H. exact Hj.
  - cbn [assignUnset] in H. bind_inv H as ow s0 E0.
    unfold getWire in E0. inversion E0; subst; clear E0.
    bind_inv H as u1 s1 E1.
    apply (IH _ _ _ _ _ H).
    destruct (wires s0 !! i) as [w0|] eqn:Ew.
    + ret_inv E1. exact Hj.
    + bind_inv E1 as w1 s2 E2. apply makeLabels_Ok in E2 as (_ & Hws & _).
      unfold setWire in E1. inversion E1; subst; clear E1. simpl.
      rewrite Hws. rewrite lookup_insert_ne; [exact Hj|]. congruence.
Qed.

(** The steps of a successful [Circuit.Garble]. *)
Lemma Circuit_Garble_inv aes c key rnd garbled :
  Circuit_Garble aes c key rnd = Ok garbled ->
  exists block rnd' alg out s1 st,
    rnd = block :: rnd' /\
    aes_NewCipher aes key = Ok alg /\
    0 <= NumGates c /\
    garbleGates (Gates c) 0 (encrypt alg)
      (SetS true (LabelFromData block))
      (replicate (Z.to_nat (NumGates c)) [])
      {| wires := ∅; rand := rnd' |} = Ok (out, s1) /\
    assignUnset (SetS true (LabelFromData block)) (seqZ 0 (NumWires c)) s1
      = Ok (tt, st) /\
    garbled = {| Wires := wires st; GGates := out |}.
Proof.
  unfold Circuit_Garble. intros H.
  destruct (Circuit_Garble_R aes c key rnd) as [[g' r]| |] eqn:ER;
    try discriminate.
  inversion H; subst g'; clear H.
  unfold Circuit_Garble_R in ER.
  destruct rnd as [|block rnd']; cbn [NewLabel] in ER; [discriminate|].
  destruct (NumGates c <? 0) eqn:EN; [discriminate|].
  apply Z.ltb_ge in EN.
  destruct (aes_NewCipher aes key) as [alg| |] eqn:Ek; try discriminate.
  match type of ER with
  | match ?run ?st0 with _ => _ end = _ =>
      destruct (run st0) as [[out st]| |] eqn:Erun; try discriminate
  end.
  inversion ER; subst; clear ER.
  bind_inv Erun as out' s1 Eg. bind_inv Erun as u s2 Ea. ret_inv Erun.
  destruct u. do 6 eexists. repeat split; eauto.
Qed.

Lemma wires_ok_empty r : wires_ok r ∅.
Proof.
  split; intros i w Hi; rewrite lookup_empty in Hi; discriminate.
Qed.

(** X1.  Correctness of a garbled gate: when [Gate.Garble] has garbled an
    XOR, AND, OR or INV gate in a run whose labels are Free-XOR pairs under
    an offset with its permutation bit set, [Gate.Eval] on the table it
    returned and on the labels that stand for the bits [va] and [vb] of
    the inputs returns the bytes of the label that stands for the bit
    op([va], [vb]) on the output wire. *)
Theorem Gate_Eval_of_Garble alg g r st rows st' :
  Gate_Garble g (encrypt alg) r st = Ok (rows, st') ->
  S r = true -> wf_label r -> wires_ok r (wires st) ->
  exists a b c,
    wires st' !! Input0 g = Some a /\
    (Op g <> INV -> wires st' !! Input1 g = Some b) /\
    wires st' !! Output g = Some c /\
    forall va vb (ws : gmap Z Label),
      ws !! Input0 g = Some (label_of a va) ->
      (Op g <> INV -> ws !! Input1 g = Some (label_of b vb)) ->
      exists out,
        Gate_Eval g ws (decrypt alg) rows = Ok out /\
        LabelFromData out = label_of c (circuits.evalOp (Op g) va vb).
Proof.
  intros H Sr Wr Hok.
  exact (proj2 (gate_garble_eval alg g r st rows st' H Sr Wr Hok)).
Qed.

(** X1 on the AND gate of the examples, garbled from the empty wire map
    with offset 1. *)
Lemma Gate_Eval_of_Garble_witness :
  exists a b c,
    wires (snd examples.andGarbled) !! 0 = Some a /\
    wires (snd examples.andGarbled) !! 1 = Some b /\
    wires (snd examples.andGarbled) !! 2 = Some c /\
    forall va vb (ws : gmap Z Label),
      ws !! 0 = Some (label_of a va) -> ws !! 1 = Some (label_of b vb) ->
      exists out,
        Gate_Eval examples.andGate ws examples.dec0
          (fst examples.andGarbled) = Ok out /\
        LabelFromData out = label_of c (va && vb).
Proof.
  destruct (Gate_Eval_of_Garble
              (mkBlock 16 (examples.toyCipher examples.key0))
              examples.andGate 1 examples.gstate0
              (fst examples.andGarbled) (snd examples.andGarbled))
    as (a & b & c & Ha & Hb & Hc & Hev).
  - vm_compute. reflexivity.
  - reflexivity.
  - reflexivity.
  - apply wires_ok_empty.
  - exists a, b, c. split; [exact Ha|].
    split; [apply Hb; discriminate|]. split; [exact Hc|].
    intros va vb ws Wa Wb. apply (Hev va vb ws Wa). intros _. exact Wb.
Defined.

(** X2.  Correctness of garbled evaluation: when [Circuit.Garble] has
    succeeded and the evaluator's wire map holds, for every wire that no
    gate writes, the label that stands for the wire's input bit, then
    [Circuit.Eval] on the garbled tables succeeds and leaves on every
    wire the label that stands for the bit the circuit computes there in
    the clear. *)
Theorem Circuit_Eval_of_Garble aes c key rnd garbled inp
    (ws : gmap Z Label) :
  Circuit_Garble aes c key rnd = Ok garbled ->
  (forall i w, Wires garbled !! i = Some w ->
     i ∉ map Output (Gates c) -> ws !! i = Some (label_of w (inp i))) ->
  exists ws',
    Circuit_Eval aes c key ws (GGates garbled) = Ok ws' /\
    forall i w, Wires garbled !! i = Some w ->
      ws' !! i = Some (label_of w (plainEval (Gates c) inp i)).
Proof.
  intros H Hws.
  apply Circuit_Garble_inv in H
    as (block & rnd' & alg & out & s1 & st & -> & Ek & HN & Eg & Ea & ->).
  cbn [Wires GGates] in *.
  set (r := SetS true (LabelFromData block)) in *.
  assert (Sr : S r = true) by apply S_SetS_true.
  assert (Wr : wf_label r) by (apply wf_SetS_true, wf_LabelFromData).
  destruct (garbleGates_eval alg r Sr Wr _ _ _ _ _ _ Eg (wires_ok_empty r))
    as (_ & _ & _ & _ & _ & Hev).
  destruct (Hev (wires st)
              (fun i w Hi => assignUnset_mono _ _ _ _ _ _ _ Ea Hi) inp ws)
    as (ws' & E & Hfin).
  { exact Hws. }
  exists ws'. unfold Circuit_Eval. rewrite Ek. split; [exact E|].
  intros i w Hi. apply Hfin; [exact Hi|]. intros Hin. inversion Hin.
Qed.

(** X2 on the three-gate circuit of the examples, with the evaluator
    holding the labels of the input bits 1, 0, 1, ... on the wires. *)
Lemma Circuit_Eval_of_Garble_witness :
  exists ws',
    Circuit_Eval examples.toyCipher examples.circuit0 examples.key0
      (map_imap (fun i w => Some (label_of w (Z.even i)))
         (Wires examples.garbled0))
      (GGates examples.garbled0) = Ok ws' /\
    forall i w, Wires examples.garbled0 !! i = Some w ->
      ws' !! i =
        Some (label_of w (plainEval (Gates examples.circuit0) Z.even i)).
Proof.
  apply (Circuit_Eval_of_Garble examples.toyCipher examples.circuit0
           examples.key0 examples.rnd0 examples.garbled0 Z.even).
  - vm_compute. reflexivity.
  - intros i w Hi _. rewrite map_lookup_imap, Hi. reflexivity.
Defined.

(** *** The size of a garbled circuit *)

Lemma Gate_Garble_table_size alg g r st rows st' :
  Gate_Garble g (encrypt alg) r st = Ok (rows, st') ->
  length rows = tableSize (Op g) /\
  Forall (fun row => length row = 16%nat) rows.
Proof.
  intros H.
  apply Gate_Garble_Ok in H
    as (ins & st1 & a & b & w & _ & _ & _ & _ & Hrows).
  assert (Hgen : forall op,
    let rows' := map Data (sort_ByIndex
      (map (fun row => entry (encrypt alg) (fst (fst row))
                         (snd (fst row)) (snd row) (ID g))
           (truth_rows op a b w))) in
    length rows' = length (truth_rows op a b w) /\
    Forall (fun row => length row = 16%nat) rows').
  { intros op rows'. subst rows'.
    destruct (sort_ByIndex_map
                (fun row => entry (encrypt alg) (fst (fst row))
                              (snd (fst row)) (snd row) (ID g))
                (truth_rows op a b w)) as (l' & -> & HP).
    rewrite !length_map. split; [now apply Permutation_length|].
    rewrite map_map. clear HP.
    induction l' as [|x l' IHl]; cbn [map]; constructor; [|exact IHl].
    cbn [entry Data]. unfold encrypt. apply length_Bytes. }
  destruct (Op g).
  - destruct Hrows as (_ & -> & _). split; [reflexivity | constructor].
  - contradiction.
  - destruct Hrows as [_ ->]. exact (Hgen AND).
  - destruct Hrows as [_ ->]. exact (Hgen OR).
  - destruct Hrows as [_ ->]. exact (Hgen INV).
Qed.

Lemma garbleGates_tables alg r :
  forall gates idx garbled st out st',
    garbleGates gates idx (encrypt alg) r garbled st = Ok (out, st') ->
    length out = length garbled /\
    (forall j, (j < idx)%nat -> out !! j = garbled !! j) /\
    forall j g, gates !! j = Some g ->
      exists rows,
        out !! (idx + j)%nat = Some rows /\
        length rows = tableSize (Op g) /\
        Forall (fun row => length row = 16%nat) rows.
Proof.
  induction gates as [|g rest IH]; intros idx garbled st out st' H.
  - ret_inv H. split; [reflexivity|]. split; [reflexivity|].
    intros j g Hj. rewrite lookup_nil in Hj. discriminate.
  - cbn [garbleGates] in H. bind_inv H as data s1 Eg.
    destruct (idx <? length garbled)%nat eqn:Eidx; [|discriminate].
    apply Nat.ltb_lt in Eidx.
    destruct (IH _ _ _ _ _ H) as (Hlen & Hpre & Htab).
    split; [now rewrite Hlen, length_insert|]. split.
    { intros j Hj. rewrite Hpre by lia. apply list_lookup_insert_ne. lia. }
    intros [|j] g' Hj; cbn in Hj.
    + inversion Hj; subst g'. exists data.
      rewrite Nat.add_0_r, Hpre by lia.
      split; [now apply list_lookup_insert_eq|].
      eapply Gate_Garble_table_size; eauto.
    + destruct (Htab j g' Hj) as (rows & E & Hs).
      exists rows. split; [|exact Hs].
      now replace (idx + Datatypes.S j)%nat
        with (Datatypes.S idx + j)%nat by lia.
Qed.

(** X3.  The size of a garbled circuit: after a successful
    [Circuit.Garble] there is one table per declared gate, and the table
    of every gate of the circuit holds four ciphertexts for AND and OR,
    two for INV and none for XOR, each of 16 bytes. *)
Theorem Garble_table_sizes aes c key rnd garbled :
  Circuit_Garble aes c key rnd = Ok garbled ->
  length (GGates garbled) = Z.to_nat (NumGates c) /\
  (length (Gates c) <= length (GGates garbled))%nat /\
  forall j g, Gates c !! j = Some g ->
    exists rows,
      GGates garbled !! j = Some rows /\
      length rows = tableSize (Op g) /\
      Forall (fun row => length row = 16%nat) rows.
Proof.
  intros H.
  apply Circuit_Garble_inv in H
    as (block & rnd' & alg & out & s1 & st & -> & Ek & HN & Eg & Ea & ->).
  cbn [GGates].
  destruct (garbleGates_tables _ _ _ _ _ _ _ _ Eg) as (Hlen & _ & Htab).
  rewrite length_replicate in Hlen.
  split; [exact Hlen|]. split.
  - destruct (Gates c) as [|g0 gs] eqn:EG using rev_ind; [simpl; lia|].
    destruct (Htab (length gs) g0) as (rows & E & _).
    { rewrite lookup_app_r by lia. now rewrite Nat.sub_diag. }
    apply lookup_lt_Some in E. rewrite length_app. simpl in *. lia.
  - intros j g Hj. exact (Htab j g Hj).
Qed.

Lemma Garble_table_sizes_witness :
  length (GGates examples.garbled0) = 3%nat /\
  exists rows,
    GGates examples.garbled0 !! 0%nat = Some rows /\ length rows = 4%nat.
Proof.
  destruct (Garble_table_sizes examples.toyCipher examples.circuit0
              examples.key0 examples.rnd0 examples.garbled0)
    as (Hlen & _ & Htab).
  - vm_compute. reflexivity.
  - split; [exact Hlen|].
    destruct (Htab 0%nat (mkGate 0 1 2 AND 0) eq_refl)
      as (rows & E & Hl & _).
    exists rows. split; [exact E | exact Hl].
Defined.

(** *** Errors of the evaluator *)

Lemma idx_range_ptr a b : 0 <= idx a b < 4.
Proof.
  destruct a as [la|], b as [lb|]; unfold idx;
    try destruct (S la); try destruct (S lb);
    (split; [apply Z.leb_le | apply Z.ltb_lt]; reflexivity).
Qed.

(** The row that a guarded table lookup reads exists. *)
Lemma guarded_row (garbled : list (list byte)) a b :
  idx a b < Z.of_nat (length garbled) ->
  exists row, garbled !! Z.to_nat (idx a b) = Some row.
Proof.
  intros H. pose proof (idx_range_ptr a b).
  apply lookup_lt_is_Some_2. lia.
Qed.

(** On a wire map without nil labels the two models of [Gate.Eval]
    agree. *)
Lemma Gate_Eval_ptr_no_nil g (ws0 : gmap Z Label) alg garbled :
  circuit_ptr.Gate_Eval_ptr g (Some <$> ws0) (circuit_ptr.decrypt_ptr alg)
    garbled = Gate_Eval g ws0 (decrypt alg) garbled.
Proof.
  unfold circuit_ptr.Gate_Eval_ptr, Gate_Eval, circuit_ptr.decrypt_ptr.
  rewrite !lookup_fmap.
  destruct (Op g); try reflexivity;
    destruct (ws0 !! Input0 g) as [la|]; try reflexivity;
    try (destruct (ws0 !! Input1 g) as [lb|];
         [rewrite bool_decide_true by eauto
         |rewrite bool_decide_false by (intros [? ?]; discriminate)]);
    reflexivity.
Qed.

(** X4.  [Gate.Eval] on a wire map that can hold nil labels and on a
    table of 16-byte rows: it panics exactly when it reads a nil label,
    which is an XOR gate with a nil label on an input, or a table gate
    whose first label is nil and whose table has a row at the index of
    the inputs; it never indexes the table out of range, a table that is
    too short for the index is the corrupted-circuit error.  A result is
    16 bytes, an error is one of the four of the source, and on a wire
    map without nil labels the call never panics and is the evaluation
    on the map of the labels. *)
Theorem Gate_Eval_panics_on_nil_only g (ws : gmap Z (option Label)) alg
    garbled :
  Forall (fun row => length row = 16%nat) garbled ->
  (forall p,
     circuit_ptr.Gate_Eval_ptr g ws (circuit_ptr.decrypt_ptr alg) garbled
       = Panic p <->
     p = circuit_ptr.NilDereference /\ circuit_ptr.reads_nil g ws garbled) /\
  (forall out,
     circuit_ptr.Gate_Eval_ptr g ws (circuit_ptr.decrypt_ptr alg) garbled
       = Ok out ->
     length out = 16%nat) /\
  (forall e,
     circuit_ptr.Gate_Eval_ptr g ws (circuit_ptr.decrypt_ptr alg) garbled
       = Err e ->
     (e = ErrInvalidOperation XNOR /\ Op g = XNOR) \/
     (e = ErrNoInputA /\ ws !! Input0 g = None) \/
     (e = ErrNoInputB /\ ws !! Input1 g = None /\ Op g <> INV) \/
     (exists i, e = ErrCorruptedCircuit i (Z.of_nat (length garbled)) /\
                Z.of_nat (length garbled) <= i /\ Op g <> XOR)) /\
  ((forall i, ws !! i <> Some None) ->
   forall p,
     circuit_ptr.Gate_Eval_ptr g ws (circuit_ptr.decrypt_ptr alg) garbled
       <> Panic p) /\
  (forall ws0 : gmap Z Label,
     ws = Some <$> ws0 ->
     circuit_ptr.Gate_Eval_ptr g ws (circuit_ptr.decrypt_ptr alg) garbled
       = Gate_Eval g ws0 (decrypt alg) garbled).
Proof.
  intros _.
  assert (HP : forall p,
     circuit_ptr.Gate_Eval_ptr g ws (circuit_ptr.decrypt_ptr alg) garbled
       = Panic p <->
     p = circuit_ptr.NilDereference /\ circuit_ptr.reads_nil g ws garbled).
  { intros p.
    unfold circuit_ptr.Gate_Eval_ptr, circuit_ptr.reads_nil,
      circuit_ptr.decrypt_ptr.
    destruct (Op g) eqn:Eop;
      destruct (ws !! Input0 g) as [[la|]|] eqn:Ea;
      try destruct (ws !! Input1 g) as [[lb|]|] eqn:Eb;
      try match goal with
          | |- context [Z.of_nat (length garbled) <=? ?i] =>
              destruct (Z.leb_spec (Z.of_nat (length garbled)) i) as [Hi|Hi];
              [| match i with
                 | idx ?a ?b =>
                     destruct (guarded_row garbled a b Hi) as [row ->]
                 end ]
          end;
      unfold decrypt;
      (split;
       [ intros H; try discriminate H; inversion H; subst;
         try (split; [reflexivity|]); eauto 10
       | intros [-> H];
         repeat match goal with
                | H : exists _, _ |- _ => destruct H
                | H : _ /\ _ |- _ => destruct H
                | H : _ \/ _ |- _ => destruct H
                end;
         try discriminate; try contradiction; try congruence;
         try reflexivity; try lia; try (simplify_eq; lia) ]). }
  split; [exact HP|]. split; [|split; [|split]].
  4:{ intros ws0 ->. apply Gate_Eval_ptr_no_nil. }
  - intros out.
    unfold circuit_ptr.Gate_Eval_ptr, circuit_ptr.decrypt_ptr.
    destruct (Op g) eqn:Eop;
      destruct (ws !! Input0 g) as [[la|]|] eqn:Ea;
      try destruct (ws !! Input1 g) as [[lb|]|] eqn:Eb;
      try match goal with
          | |- context [Z.of_nat (length garbled) <=? ?i] =>
              destruct (Z.leb_spec (Z.of_nat (length garbled)) i) as [Hi|Hi];
              [| match i with
                 | idx ?a ?b =>
                     destruct (guarded_row garbled a b Hi) as [row ->]
                 end ]
          end;
      unfold decrypt; intros H; try discriminate H;
      inversion H; subst; apply length_Bytes.
  - intros e.
    unfold circuit_ptr.Gate_Eval_ptr, circuit_ptr.decrypt_ptr.
    destruct (Op g) eqn:Eop;
      destruct (ws !! Input0 g) as [[la|]|] eqn:Ea;
      try destruct (ws !! Input1 g) as [[lb|]|] eqn:Eb;
      try match goal with
          | |- context [Z.of_nat (length garbled) <=? ?i] =>
              destruct (Z.leb_spec (Z.of_nat (length garbled)) i) as [Hi|Hi];
              [| match i with
                 | idx ?a ?b =>
                     destruct (guarded_row garbled a b Hi) as [row ->]
                 end ]
          end;
      unfold decrypt; intros H; try discriminate H;
      inversion H; subst;
      first [ left; split; reflexivity
            | right; left; split; reflexivity
            | right; right; left; repeat split; try reflexivity;
              discriminate
            | right; right; right; eexists;
              repeat split; [exact Hi | discriminate] ].
  - intros Hnil p Hp. apply HP in Hp as [_ Hr].
    unfold circuit_ptr.reads_nil in Hr.
    destruct (Op g); try contradiction.
    + destruct Hr as (a & b & Ha & Hb & [->| ->]);
        [now apply (Hnil (Input0 g)) | now apply (Hnil (Input1 g))].
    + destruct Hr as (b & Ha & _). now apply (Hnil (Input0 g)).
    + destruct Hr as (b & Ha & _). now apply (Hnil (Input0 g)).
    + destruct Hr as (Ha & _). now apply (Hnil (Input0 g)).
Qed.

Lemma evalGates_Ok_inv dec garbled :
  forall gates idx (ws ws' : gmap Z Label),
    evalGates gates idx dec garbled ws = Ok ws' ->
    (gates = [] \/ idx + length gates <= length garbled)%nat /\
    (forall g, g ∈ gates -> is_Some (ws' !! Output g)) /\
    (forall i, i ∉ map Output gates -> ws' !! i = ws !! i).
Proof.
  induction gates as [|g rest IH]; intros idx ws ws' H.
  - inversion H; subst. split; [now left|].
    split; [intros g Hg; inversion Hg | reflexivity].
  - cbn [evalGates] in H.
    destruct (garbled !! idx) as [rows|] eqn:Erows; [|discriminate].
    destruct (Gate_Eval g ws dec rows) as [output| |]; try discriminate.
    apply IH in H as (Hlen & Hout & Hframe).
    apply lookup_lt_Some in Erows.
    split; [right; destruct Hlen as [->|Hlen]; simpl in *; lia|]. split.
    + intros g' Hg'. apply elem_of_cons in Hg' as [->|Hg']; [|auto].
      destruct (decide (Output g ∈ map Output rest)) as [Hin|Hnin].
      * apply elem_of_map_Output in Hin as (g' & Hg' & <-). auto.
      * rewrite (Hframe _ Hnin), lookup_insert_eq. eauto.
    + intros i Hi. cbn [map] in Hi. apply not_elem_of_cons in Hi as [Hne Hi].
      rewrite (Hframe _ Hi). apply lookup_insert_ne. congruence.
Qed.

(** X5.  [Circuit.Eval] indexes the garbled tables by gate position
    without a check: it can succeed only when there is a table for every
    gate (with fewer tables it stops with the error of an earlier gate or
    panics with an index out of range).  When it succeeds, every gate
    output has a label and the labels of the other wires are those it
    was given. *)
Theorem Circuit_Eval_needs_tables aes c key (ws ws' : gmap Z Label)
    garbled :
  Circuit_Eval aes c key ws garbled = Ok ws' ->
  (length (Gates c) <= length garbled)%nat /\
  (forall g, g ∈ Gates c -> is_Some (ws' !! Output g)) /\
  (forall i, i ∉ map Output (Gates c) -> ws' !! i = ws !! i).
Proof.
  unfold Circuit_Eval. intros H.
  destruct (aes_NewCipher aes key) as [alg| |]; try discriminate.
  apply evalGates_Ok_inv in H as (Hlen & Hout & Hframe).
  split; [destruct Hlen as [->|Hlen]; simpl; lia|]. split; assumption.
Qed.

Lemma Circuit_Eval_needs_tables_witness :
  exists ws' : gmap Z Label,
    Circuit_Eval examples.toyCipher examples.circuit0 examples.key0
      (map_imap (fun i w => Some (label_of w (Z.even i)))
         (Wires examples.garbled0))
      (GGates examples.garbled0) = Ok ws' /\
    is_Some (ws' !! 4).
Proof.
  destruct (Circuit_Eval
              examples.toyCipher examples.circuit0 examples.key0
              (map_imap (fun i w => Some (label_of w (Z.even i)))
                 (Wires examples.garbled0))
              (GGates examples.garbled0)) as [ws'| |] eqn:E.
  - exists ws'. split; [reflexivity|].
    destruct (Circuit_Eval_needs_tables _ _ _ _ _ _ E) as (_ & Hout & _).
    apply (Hout (mkGate 3 0 4 INV 2)).
    cbn. do 2 right. left.
  - exfalso. vm_compute in E. discriminate.
  - exfalso. vm_compute in E. discriminate.
Defined.

(** With no tables at all, evaluation of a circuit that has a gate
    panics. *)
Lemma Circuit_Eval_no_tables_panics aes c key (ws : gmap Z Label) alg :
  aes_NewCipher aes key = Ok alg -> Gates c <> [] ->
  Circuit_Eval aes c key ws [] = Panic (IndexOutOfRange 0 0).
Proof.
  intros Ek Hg. unfold Circuit_Eval. rewrite Ek.
  destruct (Gates c); [contradiction | reflexivity].
Qed.

(** *** What garbling accepts *)

Lemma garbleGates_order enc r :
  forall gates idx garbled st out st',
    garbleGates gates idx enc r garbled st = Ok (out, st') ->
    (forall g, g ∈ gates -> wires st !! Output g = None) /\
    (forall i, is_Some (wires st !! i) -> is_Some (wires st' !! i)) /\
    NoDup (map Output gates) /\
    Forall (fun g => Op g <> XNOR) gates /\
    forall i j gi gj,
      gates !! i = Some gi -> gates !! j = Some gj -> (i <= j)%nat ->
      Output gj ∉ Gate_Inputs gi.
Proof.
  induction gates as [|g rest IH]; intros idx garbled st out st' H.
  - ret_inv H. split; [intros g Hg; inversion Hg|]. split; [auto|].
    split; [constructor|]. split; [constructor|].
    intros i j gi gj Hi. rewrite lookup_nil in Hi. discriminate.
  - cbn [garbleGates] in H. bind_inv H as data s1 Eg.
    destruct (idx <? length garbled)%nat; [|discriminate].
    destruct (IH _ _ _ _ _ H) as (Hout & Hmono & Hnd & Hop & Hord).
    destruct (Gate_Garble_output_new _ _ _ _ _ _ Eg) as (Hnew & Hn0 & Hn1).
    pose proof (Gate_Garble_wires _ _ _ _ _ _ Eg)
      as (ins & st1 & a & b & c & Ein & Hins & Ha & Hb & Hc & Hws).
    assert (Hm1 : forall i, is_Some (wires st !! i) ->
                    is_Some (wires s1 !! i)).
    { intros i [w Hi]. exists w. eapply Gate_Garble_mono; eauto. }
    assert (Hin : forall i, i ∈ Gate_Inputs g -> is_Some (wires s1 !! i)).
    { intros i Hi. unfold Gate_Inputs in Hi.
      destruct (Op g) eqn:Eop;
        repeat (apply elem_of_cons in Hi as [->|Hi]); eauto;
        try (now inversion Hi);
        apply mk_is_Some in Hb; eauto; discriminate. }
    split.
    { intros g' Hg'. apply elem_of_cons in Hg' as [->|Hg']; [exact Hnew|].
      destruct (wires st !! Output g') as [w0|] eqn:E; [|reflexivity].
      destruct (Hm1 (Output g')) as [w1 Hw1]; [eauto|].
      rewrite (Hout g' Hg') in Hw1. discriminate. }
    split; [auto|]. split.
    { cbn [map]. constructor; [|exact Hnd].
      intros Hx. apply elem_of_map_Output in Hx as (g' & Hg' & Heq).
      pose proof (Hout g' Hg') as Hn. rewrite Heq, Hc in Hn. discriminate. }
    split.
    { constructor; [|exact Hop]. intros Hx.
      apply Gate_Garble_Ok in Eg
        as (? & ? & ? & ? & ? & _ & _ & _ & _ & Hf).
      now rewrite Hx in Hf. }
    intros [|i] [|j] gi gj Hi Hj Hle; cbn in Hi, Hj; try lia.
    + inversion Hi; inversion Hj; subst gi gj. intros Hx.
      unfold Gate_Inputs in Hx.
      destruct (Op g) eqn:Eop;
        repeat (apply elem_of_cons in Hx as [Hx|Hx]);
        try (now inversion Hx); try congruence;
        symmetry in Hx; revert Hx; apply Hn1; discriminate.
    + inversion Hi; subst gi. intros Hx. apply Hin in Hx as [w Hw].
      rewrite (Hout gj) in Hw; [discriminate|].
      eapply list_elem_of_lookup_2; eauto.
    + apply (Hord i j); auto. lia.
Qed.

(** X6.  [Circuit.Garble] accepts only circuits in single-assignment,
    topological form without XNOR gates: when it succeeds, no two gates
    write the same wire and no gate reads the wire that it or a later
    gate writes. *)
Theorem Garble_accepts_ordered aes c key rnd garbled :
  Circuit_Garble aes c key rnd = Ok garbled ->
  NoDup (map Output (Gates c)) /\
  Forall (fun g => Op g <> XNOR) (Gates c) /\
  forall i j gi gj,
    Gates c !! i = Some gi -> Gates c !! j = Some gj -> (i <= j)%nat ->
    Output gj ∉ Gate_Inputs gi.
Proof.
  intros H.
  apply Circuit_Garble_inv in H
    as (block & rnd' & alg & out & s1 & st & -> & Ek & HN & Eg & Ea & ->).
  destruct (garbleGates_order _ _ _ _ _ _ _ _ Eg)
    as (_ & _ & Hnd & Hop & Hord).
  split; [exact Hnd|]. split; assumption.
Qed.

Lemma Garble_accepts_ordered_witness :
  NoDup (map Output (Gates examples.circuit0)).
Proof.
  destruct (Garble_accepts_ordered examples.toyCipher examples.circuit0
              examples.key0 examples.rnd0 examples.garbled0) as [H _].
  - vm_compute. reflexivity.
  - exact H.
Defined.

End GarbledEval.

(** X4 on the AND gate of the examples with a nil label on its first
    input and a table of four rows: the call panics in [makeK]. *)
Lemma Gate_Eval_panics_on_nil_only_witness :
  circuit_ptr.Gate_Eval_ptr examples.andGate circuit_ptr.nilWires
    (circuit_ptr.decrypt_ptr
       (circuit.mkBlock 16 (examples.toyCipher examples.key0)))
    circuit_ptr.rows4 = Panic circuit_ptr.NilDereference.
Proof.
  destruct (Gate_Eval_panics_on_nil_only examples.andGate
              circuit_ptr.nilWires
              (circuit.mkBlock 16 (examples.toyCipher examples.key0))
              circuit_ptr.rows4) as [HP _].
  { unfold circuit_ptr.rows4. cbn [replicate]. repeat constructor. }
  apply HP. split; [reflexivity|].
  exists (Some 5). split; [reflexivity|]. split; [reflexivity|].
  reflexivity.
Defined.

(** ** Constant folding of expressions *)

Section Folding.

Import ast ast_expr.

Context {St : Type}.

Local Abbreviation lit v := (@BasicLit_Eval St (CInt32 v)).
Local Abbreviation ulit v := (@BasicLit_Eval St (CUint64 v)).

Lemma wrap_int32_range z : is_int32 (wrap_int32 z).
Proof.
  unfold is_int32, wrap_int32.
  pose proof (Z.mod_pos_bound (z + 2 ^ 31) (2 ^ 32) ltac:(lia)). lia.
Qed.

Lemma wrap_uint64_range z : is_uint64 (wrap_uint64 z).
Proof. unfold is_uint64, wrap_uint64. apply Z.mod_pos_bound. lia. Qed.

Lemma shiftr_int32 l r : is_int32 l -> 0 <= r -> is_int32 (Z.shiftr l r).
Proof.
  unfold is_int32. intros Hl Hr. rewrite Z.shiftr_div_pow2 by lia.
  assert (Hp : 1 <= 2 ^ r) by (apply (Z.pow_le_mono_r 2 0 r); lia).
  split.
  - apply Z.div_le_lower_bound; nia.
  - apply Z.div_lt_upper_bound; nia.
Qed.

Lemma shiftr_uint64 l r : is_uint64 l -> 0 <= r -> is_uint64 (Z.shiftr l r).
Proof.
  unfold is_uint64. intros Hl Hr. rewrite Z.shiftr_div_pow2 by lia.
  assert (Hp : 1 <= 2 ^ r) by (apply (Z.pow_le_mono_r 2 0 r); lia).
  split.
  - apply Z.div_pos; lia.
  - apply Z.div_lt_upper_bound; nia.
Qed.

(** X14.  [Binary.Eval] on two int32 constants keeps constants typed:
    every result is an int32 constant within the range of int32 or a
    bool constant, the only errors are the division by zero and the
    operators that are not implemented, and the compiler panics exactly
    on a shift by a negative count: every [<<] and [>>] by a negative
    count panics, and nothing else does.  Likewise every [/] and [%] by
    zero is the division-by-zero error. *)
Theorem Binary_Eval_int32_closed op l r (st : St) :
  is_int32 l -> is_int32 r ->
  (r < 0 -> op = BinaryLshift \/ op = BinaryRshift ->
   Binary_Eval op (lit l) (lit r) st = Panic (NegativeShift r)) /\
  (r = 0 -> op = BinaryDiv \/ op = BinaryMod ->
   Binary_Eval op (lit l) (lit r) st = Err ErrDivideByZero) /\
  match Binary_Eval op (lit l) (lit r) st with
  | Ok (v, ok, st') =>
      st' = st /\ ok = true /\ Const v = true /\
      ((exists z, ConstVal v = CInt32 z /\ is_int32 z /\
                  Type_ v = TagInt32) \/
       (exists b, ConstVal v = CBool b /\ Type_ v = TagBool))
  | Err e =>
      (e = ErrDivideByZero /\ r = 0 /\
       (op = BinaryDiv \/ op = BinaryMod)) \/
      e = ErrBinaryNotImplemented op
  | Panic p =>
      p = NegativeShift r /\ r < 0 /\
      (op = BinaryLshift \/ op = BinaryRshift)
  end.
Proof.
  intros Hl Hr.
  split.
  { intros Hn [->| ->]; cbn;
      now rewrite (proj2 (Z.ltb_lt r 0) Hn). }
  split.
  { intros -> [->| ->]; reflexivity. }
  assert (Hw : forall z, exists z', CInt32 (wrap_int32 z) = CInt32 z' /\
                           is_int32 z' /\ TagInt32 = TagInt32)
    by (intros z; eexists; split; [reflexivity|];
        split; [apply wrap_int32_range | reflexivity]).
  destruct op; cbn;
    try (repeat split; try reflexivity; left; apply Hw);
    try (repeat split; try reflexivity; right; eauto; fail);
    try (right; reflexivity).
  - destruct (Z.eqb_spec r 0); cbn; [left; auto|].
    repeat split; try reflexivity. left. apply Hw.
  - destruct (Z.eqb_spec r 0); cbn; [left; auto|].
    repeat split; try reflexivity. left. apply Hw.
  - destruct (Z.ltb_spec r 0); cbn; [auto|].
    repeat split; try reflexivity. left. apply Hw.
  - destruct (Z.ltb_spec r 0); cbn; [auto|].
    repeat split; try reflexivity. left.
    eexists. split; [reflexivity|]. split; [|reflexivity].
    now apply shiftr_int32.
Qed.

(** X15.  [Binary.Eval] on two uint64 constants: every result is a
    uint64 constant within the range of uint64 or a bool constant, the
    only errors are the division by zero and the operators that are not
    implemented, and there is no panic. *)
Theorem Binary_Eval_uint64_closed op l r (st : St) :
  is_uint64 l -> is_uint64 r ->
  match Binary_Eval op (ulit l) (ulit r) st with
  | Ok (v, ok, st') =>
      st' = st /\ ok = true /\ Const v = true /\
      ((exists z, ConstVal v = CUint64 z /\ is_uint64 z /\
                  Type_ v = TagUint64) \/
       (exists b, ConstVal v = CBool b /\ Type_ v = TagBool))
  | Err e =>
      (e = ErrDivideByZero /\ r = 0 /\
       (op = BinaryDiv \/ op = BinaryMod)) \/
      e = ErrBinaryNotImplemented op
  | Panic p => False
  end.
Proof.
  intros Hl Hr.
  assert (Hw : forall z, exists z', CUint64 (wrap_uint64 z) = CUint64 z' /\
                           is_uint64 z' /\ TagUint64 = TagUint64)
    by (intros z; eexists; split; [reflexivity|];
        split; [apply wrap_uint64_range | reflexivity]).
  destruct op; cbn;
    try (repeat split; try reflexivity; left; apply Hw);
    try (repeat split; try reflexivity; right; eauto; fail);
    try (right; reflexivity).
  - destruct (Z.eqb_spec r 0); cbn; [left; auto|].
    repeat split; try reflexivity. left. apply Hw.
  - destruct (Z.eqb_spec r 0); cbn; [left; auto|].
    repeat split; try reflexivity. left. apply Hw.
  - repeat split; try reflexivity. left.
    eexists. split; [reflexivity|]. split; [|reflexivity].
    apply shiftr_uint64; [exact Hl | unfold is_uint64 in Hr; lia].
Qed.

Lemma wrap_int32_neg_neg x :
  is_int32 x -> wrap_int32 (- wrap_int32 (- x)) = x.
Proof.
  unfold is_int32, wrap_int32. intros Hx.
  destruct (Z.eq_dec x (- 2 ^ 31)) as [->|Hne]; [reflexivity|].
  rewrite (Z.mod_small (- x + 2 ^ 31) (2 ^ 32)) by lia.
  replace (- (- x + 2 ^ 31 - 2 ^ 31) + 2 ^ 31) with (x + 2 ^ 31) by lia.
  rewrite Z.mod_small by lia. lia.
Qed.

(** X16.  [Unary.Eval] of the minus sign on an int32 constant folds to
    the constant that [Binary.Eval] gives for [0 - x]; negating twice
    gives the constant back, and the most negative int32 is its own
    negation. *)
Theorem Unary_minus_int32 x (st : St) :
  is_int32 x ->
  Unary_Eval UnaryMinus (lit x) st =
    Binary_Eval BinaryMinus (lit 0) (lit x) st /\
  Unary_Eval UnaryMinus (Unary_Eval UnaryMinus (lit x)) st =
    Ok (gen_Constant (CInt32 x) TagInt32, true, st) /\
  (x = - 2 ^ 31 ->
   Unary_Eval UnaryMinus (lit x) st =
     Ok (gen_Constant (CInt32 x) TagInt32, true, st)).
Proof.
  unfold is_int32. intros Hx. split; [reflexivity|]. split.
  - transitivity
      (@Ok error _ (gen_Constant (CInt32 (wrap_int32 (- wrap_int32 (- x))))
                      TagInt32, true, st)); [reflexivity|].
    now rewrite wrap_int32_neg_neg.
  - intros ->. reflexivity.
Qed.

(** The bits that [tmp &^ (0xffffffff << n)] keeps of a 32-bit [tmp]. *)
Lemma ldiff_mask32 t n :
  0 <= t < 2 ^ 32 -> 0 <= n ->
  Z.ldiff t (Z.shiftl (Z.ones 32) n mod 2 ^ 32) = t mod 2 ^ n.
Proof.
  intros Ht Hn. apply Z.bits_inj'. intros i Hi.
  rewrite Z.ldiff_spec.
  assert (Hhigh : 32 <= i -> Z.testbit t i = false).
  { intros H32. rewrite <- (Z.mod_small t (2 ^ 32)) by lia.
    apply Z.mod_pow2_bits_high. lia. }
  set (m := Z.shiftl (Z.ones 32) n).
  destruct (Z.lt_ge_cases i n) as [Hlt|Hge].
  - rewrite (Z.mod_pow2_bits_low t n i) by lia.
    destruct (Z.lt_ge_cases i 32) as [H32|H32].
    + rewrite (Z.mod_pow2_bits_low m 32 i) by lia.
      unfold m. rewrite Z.shiftl_spec by lia.
      rewrite (Z.testbit_neg_r (Z.ones 32) (i - n)) by lia.
      apply andb_true_r.
    + rewrite (Z.mod_pow2_bits_high m 32 i) by lia. apply andb_true_r.
  - rewrite (Z.mod_pow2_bits_high t n i) by lia.
    destruct (Z.lt_ge_cases i 32) as [H32|H32].
    + rewrite (Z.mod_pow2_bits_low m 32 i) by lia.
      unfold m. rewrite Z.shiftl_spec by lia.
      rewrite (Z.testbit_ones_nonneg 32 (i - n)) by lia.
      rewrite (proj2 (Z.ltb_lt (i - n) 32)) by lia. apply andb_false_r.
    + rewrite (Hhigh H32). reflexivity.
Qed.

(** X17.  [Slice.Eval] on an int32 constant with constant bounds: a
    range with [to <= from] and a start of 32 or more are errors, a
    negative start panics the compiler at the shift, and otherwise the
    result is the bit field [from .. to-1] of the constant's 32 bits;
    bits 0 to 32 give the constant back. *)
Theorem Slice_Eval_bit_field val from to (st : St) :
  is_int32 val ->
  (to <= from ->
   Slice_Eval (lit val) (Some (lit from)) (Some (lit to)) st =
     Err (ErrOther "invalid slice range")) /\
  (32 <= from < to ->
   Slice_Eval (lit val) (Some (lit from)) (Some (lit to)) st =
     Err (ErrOther "slice bounds out of range")) /\
  (from < 0 -> from < to ->
   Slice_Eval (lit val) (Some (lit from)) (Some (lit to)) st =
     Panic (NegativeShift from)) /\
  (0 <= from < 32 -> from < to ->
   Slice_Eval (lit val) (Some (lit from)) (Some (lit to)) st =
     Ok (gen_Constant
           (CInt32 (wrap_int32
                      ((val mod 2 ^ 32 / 2 ^ from) mod 2 ^ (to - from))))
           TagInt32, true, st)) /\
  Slice_Eval (lit val) (Some (lit 0)) (Some (lit 32)) st =
    Ok (gen_Constant (CInt32 val) TagInt32, true, st).
Proof.
  intros Hv.
  assert (Hgen : forall from to, 0 <= from < 32 -> from < to ->
    Slice_Eval (lit val) (Some (lit from)) (Some (lit to)) st =
      Ok (gen_Constant
            (CInt32 (wrap_int32
                       ((val mod 2 ^ 32 / 2 ^ from) mod 2 ^ (to - from))))
            TagInt32, true, st)).
  { intros f t Hf Ht. cbn.
    rewrite (proj2 (Z.leb_gt t f)) by lia.
    rewrite (proj2 (Z.leb_gt 32 f)) by lia.
    rewrite (proj2 (Z.ltb_ge f 0)) by lia.
    rewrite Z.shiftr_div_pow2 by lia.
    rewrite ldiff_mask32; [reflexivity | | lia].
    pose proof (Z.mod_pos_bound val (2 ^ 32) ltac:(lia)).
    assert (Hp : 1 <= 2 ^ f) by (apply (Z.pow_le_mono_r 2 0 f); lia).
    split.
    - apply Z.div_pos; lia.
    - apply Z.div_lt_upper_bound; nia. }
  split; [|split; [|split; [|split]]].
  - intros H. cbn. now rewrite (proj2 (Z.leb_le to from)) by lia.
  - intros H. cbn. rewrite (proj2 (Z.leb_gt to from)) by lia.
    now rewrite (proj2 (Z.leb_le 32 from)) by lia.
  - intros H1 H2. cbn. rewrite (proj2 (Z.leb_gt to from)) by lia.
    rewrite (proj2 (Z.leb_gt 32 from)) by lia.
    now rewrite (proj2 (Z.ltb_lt from 0)) by lia.
  - intros H1 H2. now apply Hgen.
  - rewrite Hgen by lia. do 4 f_equal.
    change (2 ^ 0) with 1. rewrite Z.div_1_r, Z.sub_0_r, Z.mod_mod by lia.
    unfold is_int32 in Hv. unfold wrap_int32.
    f_equal. rewrite Z.add_mod_idemp_l by lia. rewrite Z.mod_small; lia.
Qed.

End Folding.

Lemma Binary_Eval_int32_closed_witness :
  ast.Binary_Eval ast.BinaryLshift (@ast.BasicLit_Eval unit (ast.CInt32 1))
    (ast.BasicLit_Eval (ast.CInt32 (-1))) tt = Panic (NegativeShift (-1)).
Proof.
  destruct (@Binary_Eval_int32_closed unit ast.BinaryLshift 1 (-1) tt
              ltac:(unfold ast.is_int32; lia)
              ltac:(unfold ast.is_int32; lia)) as [H _].
  apply H; [lia | now left].
Defined.

Lemma Binary_Eval_uint64_closed_witness :
  ast.Binary_Eval ast.BinaryDiv (@ast.BasicLit_Eval unit (ast.CUint64 6))
    (ast.BasicLit_Eval (ast.CUint64 0)) tt = Err ast.ErrDivideByZero.
Proof.
  pose proof (@Binary_Eval_uint64_closed unit ast.BinaryDiv 6 0 tt
                ltac:(unfold ast.is_uint64; lia)
                ltac:(unfold ast.is_uint64; lia)) as H.
  destruct (ast.Binary_Eval ast.BinaryDiv
              (@ast.BasicLit_Eval unit (ast.CUint64 6))
              (ast.BasicLit_Eval (ast.CUint64 0)) tt)
    as [[[v ok] st']|e|p] eqn:E.
  - discriminate E.
  - destruct H as [[-> _]| ->]; [reflexivity | discriminate E].
  - destruct H.
Defined.

Lemma Unary_minus_int32_witness :
  ast_expr.Unary_Eval ast_expr.UnaryMinus
    (ast_expr.Unary_Eval ast_expr.UnaryMinus
       (@ast.BasicLit_Eval unit (ast.CInt32 5))) tt =
    Ok (ast.gen_Constant (ast.CInt32 5) ast.TagInt32, true, tt).
Proof.
  apply (@Unary_minus_int32 unit 5 tt). unfold ast.is_int32. lia.
Defined.

(** Bits 4 to 11 of 0xABCD are 0xBC. *)
Lemma Slice_Eval_bit_field_witness :
  ast_expr.Slice_Eval (@ast.BasicLit_Eval unit (ast.CInt32 43981))
    (Some (ast.BasicLit_Eval (ast.CInt32 4)))
    (Some (ast.BasicLit_Eval (ast.CInt32 12))) tt =
    Ok (ast.gen_Constant (ast.CInt32 188) ast.TagInt32, true, tt).
Proof.
  destruct (@Slice_Eval_bit_field unit 43981 4 12 tt
              ltac:(unfold ast.is_int32; lia)) as (_ & _ & _ & H & _).
  rewrite H by lia. reflexivity.
Defined.

(** ** Loop unrolling stays in its block *)

Section CountingLoopFrame.

Import ast ssa_examples.

Variables (N : Z) (body : nat) (block : BlockRef).

Local Abbreviation loop :=
  (forLoop (countCond N) countInc [Emit (Aux := unit) body]).

(** One expansion of the body touches the instructions and the bindings
    of the current block and nothing else. *)
Lemma forLoop_iter_frame fuel i env st o :
  blocks st !! block = Some o -> Dead o = false -> counter env < N ->
  exists st1 o',
    loop (Datatypes.S fuel) i env block st =
      loop fuel (i + 1)
        {| counter := counter env + 1; phis := phis env |} block st1 /\
    blocks st1 !! block = Some o' /\ Dead o' = false /\
    Instrs o' = Instrs o ++ [body] /\
    Next o' = Next o /\ Branch o' = Branch o /\
    BranchCond o' = BranchCond o /\
    length (blocks st1) = length (blocks st) /\ aux st1 = aux st /\
    forall b, b <> block -> blocks st1 !! b = blocks st !! b.
Proof.
  intros Hb Hd Hc. cbn [forLoop]. unfold countCond at 1.
  unfold bind at 1, ret at 1. cbn [fst snd negb].
  rewrite (proj2 (Z.ltb_lt _ _) Hc). cbn [negb].
  unfold setBindings at 1.
  rewrite (bind_Ok _ _ _ _ _ (updBlock_Ok st block o _ Hb)).
  match goal with |- context [bind _ _ ?s] => set (s1 := s) end.
  assert (H1 : blocks s1 !! block =
               Some {| BBindings := env; Dead := Dead o;
                       BranchCond := BranchCond o; Next := Next o;
                       Branch := Branch o; Instrs := Instrs o |}).
  { unfold s1. cbn [blocks]. apply list_lookup_insert_eq.
    now apply lookup_lt_Some in Hb. }
  rewrite (bind_Ok _ _ _ _ _ (List_SSA_Emit s1 block _ body H1 Hd)).
  cbn [fst BBindings Dead BranchCond Next Branch Instrs].
  match goal with |- context [bind (NewEnv _) _ ?s] => set (s2 := s) end.
  assert (H2 : blocks s2 !! block =
               Some {| BBindings := env; Dead := Dead o;
                       BranchCond := BranchCond o; Next := Next o;
                       Branch := Branch o; Instrs := Instrs o ++ [body] |}).
  { unfold s2. cbn [blocks]. apply list_lookup_insert_eq.
    now apply lookup_lt_Some in H1. }
  rewrite (bind_Ok _ _ _ _ _ (NewEnv_Ok _ _ _ H2)). cbn [BBindings].
  unfold countInc at 1. unfold bind at 1, ret at 1. cbn [fst snd negb].
  eexists s2, _. split; [reflexivity|]. split; [exact H2|].
  cbn [Dead Instrs Next Branch BranchCond].
  split; [exact Hd|]. do 4 (split; [reflexivity|]).
  unfold s2, s1. cbn [blocks aux].
  split; [now rewrite !length_insert|]. split; [reflexivity|].
  intros b Hne.
  rewrite !list_lookup_insert_ne by (intros E; apply Hne; now symmetry).
  reflexivity.
Qed.

(** X21.  Unrolling stays in its block: on the loop
    [for i := 0; i < N; i++ { body }] with [0 <= N < MaxLoopUnroll],
    entered in a live block, [For.SSA] succeeds and returns the block it
    was given with no variables; it creates no block, leaves every other
    block and the rest of the generator state as they were, and keeps
    the current block live with the successors and the branch condition
    it had.  The [N] copies of the body are all the loop adds. *)
Theorem For_SSA_stays_in_block MaxLoopUnroll st o :
  blocks st !! block = Some o -> Dead o = false ->
  0 <= N < MaxLoopUnroll ->
  exists st' o',
    countLoop MaxLoopUnroll N body block st = Ok ((block, []), st') /\
    length (blocks st') = length (blocks st) /\ aux st' = aux st /\
    (forall b, b <> block -> blocks st' !! b = blocks st !! b) /\
    blocks st' !! block = Some o' /\ Dead o' = false /\
    Next o' = Next o /\ Branch o' = Branch o /\
    BranchCond o' = BranchCond o /\
    Instrs o' = Instrs o ++ replicate (Z.to_nat N) body.
Proof.
  intros Hb Hd HN. unfold countLoop, For_SSA.
  rewrite (bind_Ok _ _ _ _ _ (NewEnv_Ok _ _ _ Hb)).
  unfold countInit at 1. unfold bind at 1, ret at 1.
  cbn [fst snd negb].
  set (env0 := {| counter := 0; phis := phis (BBindings o) |}).
  assert (Hgen : forall fuel i env s p,
            blocks s !! block = Some p -> Dead p = false ->
            (Z.to_nat (N - counter env) < fuel)%nat ->
            exists s' p',
              loop fuel i env block s = Ok ((block, []), s') /\
              length (blocks s') = length (blocks s) /\ aux s' = aux s /\
              (forall b, b <> block -> blocks s' !! b = blocks s !! b) /\
              blocks s' !! block = Some p' /\ Dead p' = false /\
              Next p' = Next p /\ Branch p' = Branch p /\
              BranchCond p' = BranchCond p /\
              Instrs p' =
                Instrs p ++ replicate (Z.to_nat (N - counter env)) body).
  { induction fuel as [|fuel IH]; intros i env s p Hp Hdp Hc; [lia|].
    destruct (Z.lt_ge_cases (counter env) N) as [Hlt|Hge].
    - destruct (forLoop_iter_frame fuel i env s p Hp Hdp Hlt)
        as (s1 & p1 & -> & Hp1 & Hd1 & Hi1 & Hn1 & Hr1 & Hc1 & Hl1 & Ha1
            & Hf1).
      destruct (IH (i + 1)
                  {| counter := counter env + 1; phis := phis env |}
                  s1 p1 Hp1 Hd1)
        as (s' & p' & E & Hl & Ha & Hf & Hp' & Hd' & Hn & Hr & Hbc & Hi).
      { cbn [counter]. lia. }
      exists s', p'. split; [exact E|].
      split; [congruence|]. split; [congruence|].
      split; [intros b Hne; rewrite (Hf b Hne); now apply Hf1|].
      split; [exact Hp'|]. split; [exact Hd'|].
      split; [congruence|]. split; [congruence|]. split; [congruence|].
      rewrite Hi, Hi1. cbn [counter].
      replace (Z.to_nat (N - counter env))
        with (Datatypes.S (Z.to_nat (N - (counter env + 1)))) by lia.
      cbn [replicate]. now rewrite <- app_assoc.
    - exists s, p. cbn [forLoop]. unfold countCond at 1.
      unfold bind at 1, ret at 1. cbn [fst snd negb].
      rewrite (proj2 (Z.ltb_ge _ _) Hge). cbn [negb].
      split; [reflexivity|]. do 3 (split; [reflexivity|]).
      split; [exact Hp|]. split; [exact Hdp|].
      do 3 (split; [reflexivity|]).
      replace (Z.to_nat (N - counter env)) with 0%nat by lia.
      now rewrite app_nil_r. }
  destruct (Hgen (Z.to_nat MaxLoopUnroll) 0 env0 st o Hb Hd)
    as (st' & o' & E & H).
  { unfold env0. cbn [counter]. lia. }
  exists st', o'. split; [exact E|].
  unfold env0 in H. cbn [counter] in H. now rewrite Z.sub_0_r in H.
Qed.

End CountingLoopFrame.

(** X21 on three iterations from the one-block start state, with a
    limit of 8. *)
Lemma For_SSA_stays_in_block_witness :
  exists st',
    ssa_examples.countLoop 8 3 5%nat 0%nat ssa_examples.start =
      Ok ((0%nat, []), st') /\
    length (ast.blocks st') = 1%nat /\
    ast.instrsOf st' 0%nat = [5%nat; 5%nat; 5%nat].
Proof.
  destruct (For_SSA_stays_in_block 3 5%nat 0%nat 8 ssa_examples.start _
              eq_refl eq_refl ltac:(lia))
    as (st' & o' & E & Hl & _ & _ & Hb & _ & _ & _ & _ & Hi).
  exists st'. split; [exact E|]. split; [exact Hl|].
  unfold ast.instrsOf. rewrite Hb. exact Hi.
Defined.

(** ** Type strings *)

Section ParseFacts.

Import types tprops.

Local Open Scope string_scope.

Variable SizeT : IntType.

Lemma append_cons c s t : String c s ++ t = String c (s ++ t).
Proof. reflexivity. Qed.

Lemma no_digits_app s t :
  no_digits (s ++ t) = (no_digits s && no_digits t)%bool.
Proof.
  induction s as [|c s IH]; [reflexivity|].
  rewrite append_cons. cbn [no_digits]. rewrite IH.
  now rewrite andb_assoc.
Qed.

Lemma digits_not_no_digits ds :
  all_digits ds = true -> nonempty ds = true -> no_digits ds = false.
Proof.
  destruct ds as [|c ds]; [discriminate|]. cbn [all_digits no_digits].
  intros H _. apply andb_prop in H as [-> _]. reflexivity.
Qed.

Lemma span_no_digits name ds :
  no_digits name = true -> all_digits ds = true ->
  span (fun c => negb (is_digit c)) (name ++ ds) = (name, ds).
Proof.
  intros Hn Hd. induction name as [|c name IH].
  - change ("" ++ ds) with ds. destruct ds as [|d ds]; [reflexivity|]. cbn [span].
    cbn [all_digits] in Hd. apply andb_prop in Hd as [-> _]. reflexivity.
  - cbn [no_digits] in Hn. apply andb_prop in Hn as [Hc Hn].
    rewrite append_cons. cbn [span]. rewrite Hc, (IH Hn). reflexivity.
Qed.

Lemma append_nil_r s : s ++ "" = s.
Proof.
  induction s as [|c s IH]; [reflexivity|]. rewrite append_cons. congruence.
Qed.

Lemma match_reSized_no_digits val :
  no_digits val = true -> match_reSized val = None.
Proof.
  intros H. unfold match_reSized.
  pose proof (span_no_digits val "" H eq_refl) as E.
  rewrite append_nil_r in E. rewrite E. cbn [fst snd nonempty].
  now rewrite andb_false_r.
Qed.

Lemma match_reArr_no_digits val :
  no_digits val = true -> match_reArr val = None.
Proof.
  intros H. unfold match_reArr.
  destruct val as [|c s]; [reflexivity|].
  cbn [no_digits] in H. apply andb_prop in H as [_ Hs].
  destruct (Ascii.eqb_spec c "["%char) as [->|Hne].
  2:{ destruct c as [[] [] [] [] [] [] [] []]; try reflexivity.
      exfalso. apply Hne. reflexivity. }
  destruct s as [|d t]; [reflexivity|].
  cbn [no_digits] in Hs. apply andb_prop in Hs as [Hd _].
  cbn [span]. apply negb_true_iff in Hd. rewrite Hd. cbn [fst snd].
  destruct d as [[] [] [] [] [] [] [] []]; reflexivity.
Qed.

(** X22.  A type name needs its size: a string without decimal digits
    other than "b", "bool" and "byte" is rejected as an unknown type.
    So are, for instance, "int", "uint", "string", and the empty
    string. *)
Theorem Parse_rejects_unsized val :
  no_digits val = true -> single_line val = true ->
  val <> "b" -> val <> "bool" -> val <> "byte" ->
  Parse SizeT val = Err (ErrUnknownType val).
Proof.
  intros Hn _ Hb Hbool Hbyte. unfold Parse. cbn [Parse_fuel].
  rewrite (proj2 (String.eqb_neq _ _) Hb).
  rewrite (proj2 (String.eqb_neq _ _) Hbool).
  rewrite (proj2 (String.eqb_neq _ _) Hbyte). cbn [orb].
  rewrite (match_reSized_no_digits _ Hn).
  now rewrite (match_reArr_no_digits _ Hn).
Qed.

Lemma sized_not_keyword name ds k :
  all_digits ds = true -> nonempty ds = true -> no_digits k = true ->
  String.eqb (name ++ ds) k = false.
Proof.
  intros Hd Hne Hk. apply String.eqb_neq. intros E.
  rewrite <- E, no_digits_app, (digits_not_no_digits _ Hd Hne) in Hk.
  now rewrite andb_false_r in Hk.
Qed.

Lemma match_reSized_sized name ds :
  no_digits name = true -> nonempty name = true ->
  all_digits ds = true -> nonempty ds = true ->
  match_reSized (name ++ ds) = Some (name, ds).
Proof.
  intros Hn Hne Hd Hde. unfold match_reSized.
  rewrite (span_no_digits _ _ Hn Hd). cbn [fst snd].
  now rewrite Hne, Hde, Hd.
Qed.

(** X23.  Sized scalar types: a name without digits followed by decimal
    digits is looked up among "i", "int", "u", "uint", "s" and "string".
    One of these gives the integer, unsigned or string kind with the
    digits, converted to [types.Size], as the width (any width, zero
    too), or the range error of [strconv.Atoi] when the digits do not
    fit a Go int; every other name, "bool8" or "float32" for instance,
    is an unknown type. *)
Theorem Parse_sized name ds :
  no_digits name = true -> nonempty name = true ->
  single_line name = true ->
  all_digits ds = true -> nonempty ds = true ->
  (forall ty,
     In (name, ty) [("i", TInt); ("int", TInt); ("u", TUint);
                    ("uint", TUint); ("s", TString); ("string", TString)] ->
     Parse SizeT (name ++ ds) =
       if (decimal ds <? 2 ^ 63)%Z
       then Ok {| Type__ := ty; Bits := toSize SizeT (decimal ds);
                  MinBits := toSize SizeT (decimal ds);
                  ElementType := None; ArraySize := 0 |}
       else Err (ErrAtoiRange ds)) /\
  (~ In name ["i"; "int"; "u"; "uint"; "s"; "string"] ->
     Parse SizeT (name ++ ds) = Err (ErrUnknownType (name ++ ds))).
Proof.
  intros Hn Hne _ Hd Hde.
  assert (E :
            Parse SizeT (name ++ ds) =
              match
                (if (String.eqb name "i" || String.eqb name "int")%bool
                 then Some TInt
                 else if (String.eqb name "u" || String.eqb name "uint")%bool
                 then Some TUint
                 else if (String.eqb name "s"
                          || String.eqb name "string")%bool
                 then Some TString else None)
              with
              | None => Err (ErrUnknownType (name ++ ds))
              | Some ty =>
                  if (decimal ds <? 2 ^ 63)%Z
                  then Ok {| Type__ := ty; Bits := toSize SizeT (decimal ds);
                             MinBits := toSize SizeT (decimal ds);
                             ElementType := None; ArraySize := 0 |}
                  else Err (ErrAtoiRange ds)
              end).
  { unfold Parse. cbn [Parse_fuel].
    rewrite (sized_not_keyword name ds "b" Hd Hde eq_refl).
    rewrite (sized_not_keyword name ds "bool" Hd Hde eq_refl).
    rewrite (sized_not_keyword name ds "byte" Hd Hde eq_refl). cbn [orb].
    rewrite (match_reSized_sized _ _ Hn Hne Hd Hde).
    unfold Atoi.
    destruct (if (String.eqb name "i" || String.eqb name "int")%bool
              then Some TInt
              else if (String.eqb name "u" || String.eqb name "uint")%bool
              then Some TUint
              else if (String.eqb name "s" || String.eqb name "string")%bool
              then Some TString else None); [|reflexivity].
    destruct (decimal ds <? 2 ^ 63)%Z; reflexivity. }
  split.
  - intros ty Hin. rewrite E. clear E.
    cbn [In] in Hin.
    destruct Hin as [H|[H|[H|[H|[H|[H|[]]]]]]]; inversion H; subst;
      reflexivity.
  - intros Hnot. rewrite E. clear E.
    assert (Hk : forall k,
              In k ["i"; "int"; "u"; "uint"; "s"; "string"] ->
              String.eqb name k = false).
    { intros k Hk. apply String.eqb_neq. intros ->. now apply Hnot. }
    rewrite !Hk by (cbn [In]; tauto). reflexivity.
Qed.

Lemma single_line_span_snd p s :
  single_line s = true -> single_line (snd (span p s)) = true.
Proof.
  induction s as [|c s IH]; [reflexivity|]. intros H. cbn [span].
  destruct (p c); [|exact H]. cbn [snd].
  cbn [single_line] in H. apply andb_prop in H as [_ H]. now apply IH.
Qed.

Lemma match_reArr_single_line val m1 m2 :
  match_reArr val = Some (m1, m2) -> single_line val = true ->
  single_line m2 = true.
Proof.
  unfold match_reArr. destruct val as [|c s]; [discriminate|].
  destruct (Ascii.eqb_spec c "["%char); [subst|].
  2:{ destruct c as [[] [] [] [] [] [] [] []]; try discriminate.
      exfalso. apply n. reflexivity. }
  intros H Hs. cbn [single_line] in Hs. apply andb_prop in Hs as [_ Hs].
  pose proof (single_line_span_snd is_digit s Hs) as Hl.
  destruct (snd (span is_digit s)) as [|c' t] eqn:Es; [discriminate|].
  destruct (Ascii.eqb_spec c' "]"%char); [subst|].
  2:{ destruct c' as [[] [] [] [] [] [] [] []]; try discriminate.
      exfalso. apply n. reflexivity. }
  destruct (nonempty (fst (span is_digit s)) && nonempty t)%bool;
    [|discriminate].
  inversion H; subst. cbn [single_line] in Hl.
  now apply andb_prop in Hl as [_ Hl].
Qed.

(** X24.  The shape of every type [Parse] accepts: [MinBits] equals
    [Bits]; a type without element type is a bool, an integer, an
    unsigned integer or a string with array size 0; a type with an
    element type is an array whose element type is itself the result of
    [Parse] on a shorter string, and whose width is the array size
    times the element width, converted to [types.Size].  [Parse] never
    returns an undefined, float or struct type. *)
Theorem Parse_result_shape val info :
  single_line val = true -> Parse SizeT val = Ok info ->
  MinBits info = Bits info /\
  match ElementType info with
  | None =>
      In (Type__ info) [TBool; TInt; TUint; TString] /\
      ArraySize info = 0%Z
  | Some el =>
      Type__ info = TArray /\
      Bits info = toSize SizeT (ArraySize info * Bits el) /\
      exists m,
        single_line m = true /\
        (String.length m < String.length val)%nat /\
        Parse SizeT m = Ok el
  end.
Proof.
  intros Hs H. unfold Parse in H. cbn [Parse_fuel] in H.
  destruct (String.eqb val "b" || String.eqb val "bool")%bool.
  { inversion H; subst. cbn. tauto. }
  destruct (String.eqb val "byte").
  { inversion H; subst. cbn. tauto. }
  destruct (match_reSized val) as [[m1 m2]|].
  { destruct (String.eqb m1 "i" || String.eqb m1 "int")%bool;
      [|destruct (String.eqb m1 "u" || String.eqb m1 "uint")%bool;
        [|destruct (String.eqb m1 "s" || String.eqb m1 "string")%bool;
          [|discriminate]]];
      unfold Atoi in H; destruct (decimal m2 <? 2 ^ 63)%Z;
      try discriminate; inversion H; subst; cbn; tauto. }
  destruct (match_reArr val) as [[m1 m2]|] eqn:Earr; [|discriminate].
  pose proof (match_reArr_shorter _ _ _ Earr) as Hlen.
  pose proof (match_reArr_single_line _ _ _ Earr Hs) as Hs2.
  destruct (Parse_fuel_enough SizeT (String.length val) m2 Hlen)
    as [E _].
  rewrite E in H.
  destruct (Parse SizeT m2) as [el| |] eqn:Eel; try discriminate.
  unfold Atoi in H. destruct (decimal m1 <? 2 ^ 63)%Z; [|discriminate].
  inversion H; subst. cbn [MinBits Bits ElementType Type__ ArraySize].
  split; [reflexivity|]. split; [reflexivity|]. split; [reflexivity|].
  exists m2. now repeat split.
Qed.

End ParseFacts.

(** X22 on "int": without a size it is not a type. *)
Lemma Parse_rejects_unsized_witness :
  types.Parse (types.mkIntType 32 true) "int" =
    Err (types.ErrUnknownType "int").
Proof.
  apply Parse_rejects_unsized;
    [reflexivity | reflexivity | discriminate ..].
Defined.

(** X23 on "uint8" and on "bool8". *)
Lemma Parse_sized_witness :
  types.Parse (types.mkIntType 32 true) "uint8" =
    Ok {| types.Type__ := types.TUint; types.Bits := 8;
          types.MinBits := 8; types.ElementType := None;
          types.ArraySize := 0 |} /\
  types.Parse (types.mkIntType 32 true) "bool8" =
    Err (types.ErrUnknownType "bool8").
Proof.
  split.
  - destruct (Parse_sized (types.mkIntType 32 true) "uint" "8"
                eq_refl eq_refl eq_refl eq_refl eq_refl) as [H _].
    exact (H types.TUint
             (or_intror (or_intror (or_intror (or_introl eq_refl))))).
  - destruct (Parse_sized (types.mkIntType 32 true) "bool" "8"
                eq_refl eq_refl eq_refl eq_refl eq_refl) as [_ H].
    apply H. cbn [In].
    intros [E|[E|[E|[E|[E|[E|[]]]]]]]; discriminate E.
Defined.

(** X24 on "[4]uint8": an array of 32 bits whose element type is the
    result of parsing "uint8". *)
Lemma Parse_result_shape_witness :
  exists info el,
    types.Parse (types.mkIntType 32 true) "[4]uint8" = Ok info /\
    types.ElementType info = Some el /\
    types.MinBits info = types.Bits info /\
    types.Type__ info = types.TArray /\
    types.Bits info =
      types.toSize (types.mkIntType 32 true)
        (types.ArraySize info * types.Bits el).
Proof.
  eexists
    {| types.Type__ := types.TArray; types.Bits := 32;
       types.MinBits := 32;
       types.ElementType :=
         Some {| types.Type__ := types.TUint; types.Bits := 8;
                 types.MinBits := 8; types.ElementType := None;
                 types.ArraySize := 0 |};
       types.ArraySize := 4 |}, _.
  split; [reflexivity|]. split; [reflexivity|].
  destruct (Parse_result_shape (types.mkIntType 32 true) "[4]uint8" _
              eq_refl eq_refl) as (H1 & H2 & H3 & _).
  split; [exact H1|]. split; [exact H2 | exact H3].
Defined.
